(** * AI Flashcards: the set lifecycle and the card-browsing state machine

    A shallow embedding of [src/app/components/flashcards.tsx]:
    the response parser [parseFlashcards], the subject namer
    [getUniqueSubjectName], the localStorage-backed set store and the React
    handlers of the [Flashcards] component, followed by the properties the
    specification states about them.

    Modelling conventions.
    - A JavaScript string is a list of UTF-16 code units, each an [N].
    - A JavaScript number that holds an index or a counter is a [Z].  The
      code only adds or subtracts one and compares, which is exact on
      doubles below 2^53.
    - A regular expression is a value of [regex], run by [matcher], a
      backtracking matcher in continuation-passing style that follows the
      evaluation order of the ECMAScript pattern semantics (greedy and lazy
      quantifiers, captures, lookahead, [^] and [$] without the [m] flag).
    - React state cells are the fields of one record [State]; a handler is a
      function on it, reading the values of the render it was created in
      and returning the state after its queued updates are applied.
    - localStorage is a record that holds the stored value and counts the
      calls of [setItem]. *)

From Stdlib Require Import List ZArith NArith PeanoNat Bool Lia String Ascii.
Import ListNotations.

(** ** Strings *)

Definition char := N.
Definition jsstring := list char.

(** [str "..."] is the JavaScript string with the code units of an ASCII
    literal. *)
Definition str (s : string) : jsstring :=
  List.map N_of_ascii (list_ascii_of_string s).

Definition jsstring_eqb (a b : jsstring) : bool :=
  if list_eq_dec N.eq_dec a b then true else false.

(** WhiteSpace and LineTerminator of ECMAScript: what [\s] matches and what
    [String.prototype.trim] strips. *)
Definition is_space (c : char) : bool :=
  ((9 <=? c) && (c <=? 13) || (c =? 32) || (c =? 160) || (c =? 5760)
   || (8192 <=? c) && (c <=? 8202) || (c =? 8232) || (c =? 8233)
   || (c =? 8239) || (c =? 8287) || (c =? 12288) || (c =? 65279))%N.

(** [\d]: the ten ASCII digits. *)
Definition is_digit (c : char) : bool := ((48 <=? c) && (c <=? 57))%N.

(** [[\s\S]]: any code unit. *)
Definition any_char (c : char) : bool := is_space c || negb (is_space c).

Fixpoint dropWhile (p : char -> bool) (s : jsstring) : jsstring :=
  match s with
  | [] => []
  | c :: s' => if p c then dropWhile p s' else s
  end.

Definition trimStart (s : jsstring) : jsstring := dropWhile is_space s.
Definition trimEnd (s : jsstring) : jsstring := rev (dropWhile is_space (rev s)).

(** [String.prototype.trim]. *)
Definition trim (s : jsstring) : jsstring := trimEnd (trimStart s).

(** [s.slice(from, to)] for [0 <= from <= to]. *)
Definition slice (s : jsstring) (from to : nat) : jsstring :=
  firstn (to - from) (skipn from s).

(** ** Regular expressions *)

Inductive regex : Type :=
| Empty                               (* the empty pattern *)
| Char (c : char)                     (* a literal code unit *)
| Class (p : char -> bool)            (* a character class *)
| Seq (r1 r2 : regex)                 (* r1r2 *)
| Alt (r1 r2 : regex)                 (* r1|r2 *)
| Star (greedy : bool) (r : regex)    (* r* and r*? *)
| Group (i : nat) (r : regex)         (* the i-th capturing group (r) *)
| Lookahead (r : regex)               (* (?=r) *)
| Bos                                 (* ^ *)
| Eos.                                (* $ *)

(** [r+], [r+?] and [r?]. *)
Definition Plus (greedy : bool) (r : regex) : regex := Seq r (Star greedy r).
Definition Opt (r : regex) : regex := Alt r Empty.

Fixpoint Lit (s : jsstring) : regex :=
  match s with
  | [] => Empty
  | c :: s' => Seq (Char c) (Lit s')
  end.

(** Captures: the start and end index of each group that took part. *)
Definition captures := list (nat * (nat * nat)).

Fixpoint capture (i : nat) (c : captures) : option (nat * nat) :=
  match c with
  | [] => None
  | (j, span) :: c' => if Nat.eqb i j then Some span else capture i c'
  end.

(** A continuation receives the rest of the input, the index reached and the
    captures made so far. *)
Definition cont (R : Type) := jsstring -> nat -> captures -> option R.
Definition matcher_t := forall R : Type, jsstring -> nat -> captures -> cont R -> option R.

(** RepeatMatcher with min = 0 and no upper bound.  An iteration that
    consumes nothing is rejected, so every iteration shortens the rest and
    [fuel] above its length is never used up. *)
Fixpoint repeat_loop (m : matcher_t) (greedy : bool) (fuel : nat) (R : Type)
    (s : jsstring) (pos : nat) (c : captures) (k : cont R) : option R :=
  match fuel with
  | O => None
  | S fuel' =>
      let again :=
        m R s pos c
          (fun s' pos' c' =>
             if Nat.ltb (List.length s') (List.length s)
             then repeat_loop m greedy fuel' R s' pos' c' k
             else None) in
      if greedy then
        match again with
        | Some r => Some r
        | None => k s pos c
        end
      else
        match k s pos c with
        | Some r => Some r
        | None => again
        end
  end.

Fixpoint matcher (r : regex) (R : Type) (s : jsstring) (pos : nat)
    (c : captures) (k : cont R) {struct r} : option R :=
  match r with
  | Empty => k s pos c
  | Char a =>
      match s with
      | x :: s' => if N.eqb x a then k s' (S pos) c else None
      | [] => None
      end
  | Class p =>
      match s with
      | x :: s' => if p x then k s' (S pos) c else None
      | [] => None
      end
  | Seq r1 r2 =>
      matcher r1 R s pos c (fun s1 pos1 c1 => matcher r2 R s1 pos1 c1 k)
  | Alt r1 r2 =>
      match matcher r1 R s pos c k with
      | Some x => Some x
      | None => matcher r2 R s pos c k
      end
  | Star greedy r1 =>
      repeat_loop (matcher r1) greedy (S (List.length s)) R s pos c k
  | Group i r1 =>
      matcher r1 R s pos c (fun s1 pos1 c1 => k s1 pos1 ((i, (pos, pos1)) :: c1))
  | Lookahead r1 =>
      match matcher r1 captures s pos c (fun _ _ c1 => Some c1) with
      | Some c1 => k s pos c1
      | None => None
      end
  | Bos => if Nat.eqb pos 0 then k s pos c else None
  | Eos =>
      match s with
      | [] => k s pos c
      | _ :: _ => None
      end
  end.

(** The result of a successful match: where it starts, where it ends and
    its captures. *)
Record MatchResult : Type := {
  m_index : nat;
  m_end : nat;
  m_captures : captures
}.

(** One attempt at index [pos], the rest of the input there being [s]. *)
Definition match_at (r : regex) (s : jsstring) (pos : nat) : option MatchResult :=
  matcher r MatchResult s pos []
    (fun _ e c => Some {| m_index := pos; m_end := e; m_captures := c |}).

(** The search of [RegExp.prototype.exec]: the first index at or after [pos]
    where the pattern matches. *)
Fixpoint search (r : regex) (s : jsstring) (pos : nat) : option MatchResult :=
  match match_at r s pos with
  | Some m => Some m
  | None =>
      match s with
      | [] => None
      | _ :: s' => search r s' (S pos)
      end
  end.

(** [regex.exec(text)] on a global pattern whose [lastIndex] is
    [lastIndex]. *)
Definition exec (r : regex) (text : jsstring) (lastIndex : nat) : option MatchResult :=
  if Nat.ltb (List.length text) lastIndex then None
  else search r (skipn lastIndex text) lastIndex.

(** [match[i]] of a match in [text]. *)
Definition group (text : jsstring) (m : MatchResult) (i : nat) : option jsstring :=
  match capture i (m_captures m) with
  | Some (from, to) => Some (slice text from to)
  | None => None
  end.

(** [str.match(regex)] for a pattern without the [g] flag. *)
Definition string_match (text : jsstring) (r : regex) : option MatchResult :=
  search r text 0.

(** ** Flashcards and their parser *)

Record Flashcard : Type := {
  question : jsstring;
  answer : jsstring
}.

Record StoredSet : Type := {
  ss_subject : jsstring;
  ss_flashcards : list Flashcard
}.

Definition Q_marker : regex := Lit (str "Q:").
Definition A_marker : regex := Lit (str "A:").

(** [/Q:\s*([\s\S]+?)\s*A:\s*([\s\S]+?)(?=Q:|$)/g] *)
Definition flashcard_regex : regex :=
  Seq Q_marker
   (Seq (Star true (Class is_space))
    (Seq (Group 1 (Plus false (Class any_char)))
     (Seq (Star true (Class is_space))
      (Seq A_marker
       (Seq (Star true (Class is_space))
        (Seq (Group 2 (Plus false (Class any_char)))
             (Lookahead (Alt Q_marker Eos)))))))).

Definition group_or_empty (text : jsstring) (m : MatchResult) (i : nat) : jsstring :=
  match group text m i with
  | Some g => g
  | None => []
  end.

Definition card_of_match (text : jsstring) (m : MatchResult) : Flashcard :=
  {| question := trim (group_or_empty text m 1);
     answer := trim (group_or_empty text m 2) |}.

(** The [while ((match = regex.exec(text)))] loop.  Every match of
    [flashcard_regex] ends after it starts, so [lastIndex] grows and at most
    [length text] rounds run. *)
Fixpoint parse_loop (fuel : nat) (text : jsstring) (lastIndex : nat) : list Flashcard :=
  match fuel with
  | O => []
  | S fuel' =>
      match exec flashcard_regex text lastIndex with
      | Some m => card_of_match text m :: parse_loop fuel' text (m_end m)
      | None => []
      end
  end.

Definition parseFlashcards (text : jsstring) : list Flashcard :=
  parse_loop (S (List.length text)) text 0.

(** ** Numbers in subject names *)

Fixpoint takeWhile (p : char -> bool) (s : jsstring) : jsstring :=
  match s with
  | [] => []
  | c :: s' => if p c then c :: takeWhile p s' else []
  end.

Definition digit_value (c : char) : Z := Z.of_N (c - 48).

Definition digits_value (ds : jsstring) : Z :=
  fold_left (fun acc d => 10 * acc + digit_value d)%Z ds 0%Z.

(** [parseInt(s, 10)]: leading white space is skipped, a sign is read, then
    the longest run of digits; [None] stands for NaN. *)
Definition parseInt (s : jsstring) : option Z :=
  let s1 := trimStart s in
  let '(negative, s2) :=
    match s1 with
    | c :: s' =>
        if (c =? 45)%N then (true, s')
        else if (c =? 43)%N then (false, s')
        else (false, s1)
    | [] => (false, s1)
    end in
  match takeWhile is_digit s2 with
  | [] => None
  | ds => Some (if negative then - digits_value ds else digits_value ds)%Z
  end.

Fixpoint digits_of (fuel : nat) (n : N) (acc : jsstring) : jsstring :=
  match fuel with
  | O => acc
  | S fuel' =>
      let acc' := (48 + n mod 10)%N :: acc in
      if (n <? 10)%N then acc' else digits_of fuel' (n / 10)%N acc'
  end.

(** The decimal digits of a natural number; a number has at most
    [log2 n + 1] of them. *)
Definition N_to_string (n : N) : jsstring :=
  digits_of (S (N.to_nat (N.log2 n))) n [].

(** [String(z)] for an integer [z], as a template literal inserts it. *)
Definition number_to_string (z : Z) : jsstring :=
  match z with
  | Zneg p => 45%N :: N_to_string (Npos p)
  | _ => N_to_string (Z.to_N z)
  end.

(** ** The subject namer *)

(** The characters of the class [[.*+?^${}()|[\]\\]]. *)
Definition is_special (c : char) : bool :=
  existsb (N.eqb c) (str ".*+?^${}()|[]\").

(** [str.replace(/[.*+?^${}()|[\]\\]/g, '\\$&')] *)
Fixpoint escapeRegExp (s : jsstring) : jsstring :=
  match s with
  | [] => []
  | c :: s' =>
      if is_special c then 92%N :: c :: escapeRegExp s'
      else c :: escapeRegExp s'
  end.

(** How [new RegExp] reads a pattern text made of plain characters and of
    escaped syntax characters: each stands for itself.  A bare syntax
    character is not in this fragment ([None]). *)
Fixpoint compile_atoms (fuel : nat) (p : jsstring) : option regex :=
  match fuel with
  | O => None
  | S fuel' =>
      match p with
      | [] => Some Empty
      | c :: p' =>
          if (c =? 92)%N then
            match p' with
            | d :: p'' =>
                if is_special d
                then option_map (Seq (Char d)) (compile_atoms fuel' p'')
                else None
            | [] => None
            end
          else if is_special c then None
          else option_map (Seq (Char c)) (compile_atoms fuel' p')
      end
  end.

(** [(?:\((\d+)\))?$], the tail of the namer's pattern. *)
Definition suffix_regex : regex :=
  Seq (Opt (Seq (Char 40%N) (Seq (Group 1 (Plus true (Class is_digit))) (Char 41%N))))
      Eos.

(** [new RegExp(`^${escapeRegExp(base)}(?:\\((\\d+)\\))?$`)].  The escaped
    base always compiles (lemma [compile_escapeRegExp]); the other branch
    stands for the SyntaxError of a malformed pattern and is never taken. *)
Definition subject_regex (base : jsstring) : regex :=
  let pattern := escapeRegExp base in
  match compile_atoms (S (List.length pattern)) pattern with
  | Some literal => Seq Bos (Seq literal suffix_regex)
  | None => Class (fun _ => false)
  end.

(** One round of the [sets.forEach] of [getUniqueSubjectName], on the pair
    [(maxIndex, foundBase)]. *)
Definition scan_subject (re : regex) (acc : Z * bool) (set : StoredSet) : Z * bool :=
  let '(maxIndex, foundBase) := acc in
  match string_match (ss_subject set) re with
  | Some m =>
      match group (ss_subject set) m 1 with
      | Some [] | None => (maxIndex, true)
      | Some digits =>
          match parseInt digits with
          | Some idx => if (idx >? maxIndex)%Z then (idx, foundBase) else acc
          | None => acc
          end
      end
  | None => acc
  end.

Definition getUniqueSubjectName (base : jsstring) (sets : list StoredSet) : jsstring :=
  let re := subject_regex base in
  let '(maxIndex, foundBase) := fold_left (scan_subject re) sets ((-1)%Z, false) in
  if negb foundBase then base
  else base ++ str "(" ++ number_to_string (maxIndex + 1) ++ str ")".

(** ** The set store *)

(** What [localStorage.getItem(STORAGE_KEY)] holds: nothing, a text that
    [JSON.parse] rejects, or the serialisation of a list of sets.  The
    handlers run in the browser only, so the [typeof window] guards are
    not modelled. *)
Inductive StoredItem : Type :=
| Absent
| Corrupt
| Json (sets : list StoredSet).

Record LocalStorage : Type := {
  ls_item : StoredItem;
  ls_writes : nat             (* calls of localStorage.setItem so far *)
}.

Definition getStoredSets (ls : LocalStorage) : list StoredSet :=
  match ls_item ls with
  | Json sets => sets
  | Absent | Corrupt => []
  end.

Definition saveStoredSets (sets : list StoredSet) (ls : LocalStorage) : LocalStorage :=
  {| ls_item := Json sets; ls_writes := S (ls_writes ls) |}.

Definition addStoredSet (subject : jsstring) (flashcards : list Flashcard)
    (ls : LocalStorage) : jsstring * LocalStorage :=
  let sets := getStoredSets ls in
  let uniqueSubject := getUniqueSubjectName subject sets in
  (uniqueSubject,
   saveStoredSets ({| ss_subject := uniqueSubject; ss_flashcards := flashcards |} :: sets) ls).

Fixpoint findIndex (p : StoredSet -> bool) (sets : list StoredSet) : option nat :=
  match sets with
  | [] => None
  | s :: sets' => if p s then Some O else option_map S (findIndex p sets')
  end.

(** [sets[idx].flashcards = flashcards] *)
Fixpoint assign_flashcards (idx : nat) (flashcards : list Flashcard)
    (sets : list StoredSet) : list StoredSet :=
  match sets, idx with
  | [], _ => []
  | s :: sets', O =>
      {| ss_subject := ss_subject s; ss_flashcards := flashcards |} :: sets'
  | s :: sets', S idx' => s :: assign_flashcards idx' flashcards sets'
  end.

Definition updateStoredSet (subject : jsstring) (flashcards : list Flashcard)
    (ls : LocalStorage) : LocalStorage :=
  let sets := getStoredSets ls in
  match findIndex (fun s => jsstring_eqb (ss_subject s) subject) sets with
  | Some idx => saveStoredSets (assign_flashcards idx flashcards sets) ls
  | None => ls
  end.

(** ** Counting the words of a question *)

(** [/\s+/] *)
Definition spaces_regex : regex := Plus true (Class is_space).

(** The loop of [RegExp.prototype[Symbol.split]]: [p] is where the current
    piece starts, [q] where the separator is tried next.  A round either
    moves [q] on or moves [p] up to [q], so twice the size of the text and
    one more round are enough. *)
Fixpoint split_loop (fuel : nat) (r : regex) (text : jsstring) (p q : nat)
    : list jsstring :=
  match fuel with
  | O => [slice text p (List.length text)]
  | S fuel' =>
      if Nat.ltb q (List.length text) then
        match match_at r (skipn q text) q with
        | None => split_loop fuel' r text p (S q)
        | Some m =>
            let e := Nat.min (m_end m) (List.length text) in
            if Nat.eqb e p then split_loop fuel' r text p (S q)
            else slice text p q :: split_loop fuel' r text e e
        end
      else [slice text p (List.length text)]
  end.

(** [text.split(r)] *)
Definition split (text : jsstring) (r : regex) : list jsstring :=
  match text with
  | [] =>
      match match_at r [] 0 with
      | Some _ => []
      | None => [[]]
      end
  | _ :: _ => split_loop (S (2 * List.length text)) r text 0 0
  end.

(** [Boolean(s)] for a string: true unless it is empty. *)
Definition truthy (s : jsstring) : bool :=
  match s with
  | [] => false
  | _ :: _ => true
  end.

(** [question.split(/\s+/).filter(Boolean).length] *)
Definition word_count (question : jsstring) : nat :=
  List.length (filter truthy (split question spaces_regex)).

(** The predicate of [cards.filter(...)] in [generateFlashcards]. *)
Definition short_question (card : Flashcard) : bool :=
  Nat.ltb (word_count (question card)) 30.

(** ** The component state *)

Record State : Type := {
  subject : jsstring;
  flashcards : list Flashcard;
  loading : bool;
  error : option jsstring;
  current : Z;
  showAnswer : bool;
  showGenerator : bool;
  addingMore : bool;
  storedSets : list StoredSet;
  activeSubject : option jsstring;
  switchAnimKey : Z;
  lastAnimatedCircle : option Z;
  lastCurrent : Z;
  switching : bool
}.

Definition setSubject (v : jsstring) (st : State) : State :=
  {| subject := v; flashcards := flashcards st; loading := loading st;
     error := error st; current := current st; showAnswer := showAnswer st;
     showGenerator := showGenerator st; addingMore := addingMore st;
     storedSets := storedSets st; activeSubject := activeSubject st;
     switchAnimKey := switchAnimKey st;
     lastAnimatedCircle := lastAnimatedCircle st;
     lastCurrent := lastCurrent st; switching := switching st |}.

Definition setFlashcards (v : list Flashcard) (st : State) : State :=
  {| subject := subject st; flashcards := v; loading := loading st;
     error := error st; current := current st; showAnswer := showAnswer st;
     showGenerator := showGenerator st; addingMore := addingMore st;
     storedSets := storedSets st; activeSubject := activeSubject st;
     switchAnimKey := switchAnimKey st;
     lastAnimatedCircle := lastAnimatedCircle st;
     lastCurrent := lastCurrent st; switching := switching st |}.

Definition setLoading (v : bool) (st : State) : State :=
  {| subject := subject st; flashcards := flashcards st; loading := v;
     error := error st; current := current st; showAnswer := showAnswer st;
     showGenerator := showGenerator st; addingMore := addingMore st;
     storedSets := storedSets st; activeSubject := activeSubject st;
     switchAnimKey := switchAnimKey st;
     lastAnimatedCircle := lastAnimatedCircle st;
     lastCurrent := lastCurrent st; switching := switching st |}.

Definition setError (v : option jsstring) (st : State) : State :=
  {| subject := subject st; flashcards := flashcards st; loading := loading st;
     error := v; current := current st; showAnswer := showAnswer st;
     showGenerator := showGenerator st; addingMore := addingMore st;
     storedSets := storedSets st; activeSubject := activeSubject st;
     switchAnimKey := switchAnimKey st;
     lastAnimatedCircle := lastAnimatedCircle st;
     lastCurrent := lastCurrent st; switching := switching st |}.

Definition setCurrent (v : Z) (st : State) : State :=
  {| subject := subject st; flashcards := flashcards st; loading := loading st;
     error := error st; current := v; showAnswer := showAnswer st;
     showGenerator := showGenerator st; addingMore := addingMore st;
     storedSets := storedSets st; activeSubject := activeSubject st;
     switchAnimKey := switchAnimKey st;
     lastAnimatedCircle := lastAnimatedCircle st;
     lastCurrent := lastCurrent st; switching := switching st |}.

Definition setShowAnswer (v : bool) (st : State) : State :=
  {| subject := subject st; flashcards := flashcards st; loading := loading st;
     error := error st; current := current st; showAnswer := v;
     showGenerator := showGenerator st; addingMore := addingMore st;
     storedSets := storedSets st; activeSubject := activeSubject st;
     switchAnimKey := switchAnimKey st;
     lastAnimatedCircle := lastAnimatedCircle st;
     lastCurrent := lastCurrent st; switching := switching st |}.

Definition setShowGenerator (v : bool) (st : State) : State :=
  {| subject := subject st; flashcards := flashcards st; loading := loading st;
     error := error st; current := current st; showAnswer := showAnswer st;
     showGenerator := v; addingMore := addingMore st;
     storedSets := storedSets st; activeSubject := activeSubject st;
     switchAnimKey := switchAnimKey st;
     lastAnimatedCircle := lastAnimatedCircle st;
     lastCurrent := lastCurrent st; switching := switching st |}.

Definition setAddingMore (v : bool) (st : State) : State :=
  {| subject := subject st; flashcards := flashcards st; loading := loading st;
     error := error st; current := current st; showAnswer := showAnswer st;
     showGenerator := showGenerator st; addingMore := v;
     storedSets := storedSets st; activeSubject := activeSubject st;
     switchAnimKey := switchAnimKey st;
     lastAnimatedCircle := lastAnimatedCircle st;
     lastCurrent := lastCurrent st; switching := switching st |}.

Definition setStoredSets (v : list StoredSet) (st : State) : State :=
  {| subject := subject st; flashcards := flashcards st; loading := loading st;
     error := error st; current := current st; showAnswer := showAnswer st;
     showGenerator := showGenerator st; addingMore := addingMore st;
     storedSets := v; activeSubject := activeSubject st;
     switchAnimKey := switchAnimKey st;
     lastAnimatedCircle := lastAnimatedCircle st;
     lastCurrent := lastCurrent st; switching := switching st |}.

Definition setActiveSubject (v : option jsstring) (st : State) : State :=
  {| subject := subject st; flashcards := flashcards st; loading := loading st;
     error := error st; current := current st; showAnswer := showAnswer st;
     showGenerator := showGenerator st; addingMore := addingMore st;
     storedSets := storedSets st; activeSubject := v;
     switchAnimKey := switchAnimKey st;
     lastAnimatedCircle := lastAnimatedCircle st;
     lastCurrent := lastCurrent st; switching := switching st |}.

Definition setSwitchAnimKey (v : Z) (st : State) : State :=
  {| subject := subject st; flashcards := flashcards st; loading := loading st;
     error := error st; current := current st; showAnswer := showAnswer st;
     showGenerator := showGenerator st; addingMore := addingMore st;
     storedSets := storedSets st; activeSubject := activeSubject st;
     switchAnimKey := v;
     lastAnimatedCircle := lastAnimatedCircle st;
     lastCurrent := lastCurrent st; switching := switching st |}.

Definition setLastAnimatedCircle (v : option Z) (st : State) : State :=
  {| subject := subject st; flashcards := flashcards st; loading := loading st;
     error := error st; current := current st; showAnswer := showAnswer st;
     showGenerator := showGenerator st; addingMore := addingMore st;
     storedSets := storedSets st; activeSubject := activeSubject st;
     switchAnimKey := switchAnimKey st;
     lastAnimatedCircle := v;
     lastCurrent := lastCurrent st; switching := switching st |}.

Definition setLastCurrent (v : Z) (st : State) : State :=
  {| subject := subject st; flashcards := flashcards st; loading := loading st;
     error := error st; current := current st; showAnswer := showAnswer st;
     showGenerator := showGenerator st; addingMore := addingMore st;
     storedSets := storedSets st; activeSubject := activeSubject st;
     switchAnimKey := switchAnimKey st;
     lastAnimatedCircle := lastAnimatedCircle st;
     lastCurrent := v; switching := switching st |}.

Definition setSwitching (v : bool) (st : State) : State :=
  {| subject := subject st; flashcards := flashcards st; loading := loading st;
     error := error st; current := current st; showAnswer := showAnswer st;
     showGenerator := showGenerator st; addingMore := addingMore st;
     storedSets := storedSets st; activeSubject := activeSubject st;
     switchAnimKey := switchAnimKey st;
     lastAnimatedCircle := lastAnimatedCircle st;
     lastCurrent := lastCurrent st; switching := v |}.

(** [setSwitchAnimKey((k) => k + 1)] *)
Definition bumpSwitchAnimKey (st : State) : State :=
  setSwitchAnimKey (switchAnimKey st + 1) st.

(** The state of the first render. *)
Definition initial_state : State :=
  {| subject := []; flashcards := []; loading := false; error := None;
     current := 0; showAnswer := false; showGenerator := true;
     addingMore := false; storedSets := []; activeSubject := None;
     switchAnimKey := 0; lastAnimatedCircle := None; lastCurrent := 0;
     switching := false |}.

(** ** Navigation handlers *)

Open Scope Z_scope.

Definition handleFlip (st : State) : State :=
  setShowAnswer (negb (showAnswer st)) st.

Definition handleCircleClick (idx : Z) (st : State) : State :=
  let st1 := if negb (idx =? current st) then bumpSwitchAnimKey st else st in
  setShowAnswer false (setCurrent idx st1).

Definition handlePrev (st : State) : State :=
  if current st >? 0 then
    setShowAnswer false (setCurrent (current st - 1) (bumpSwitchAnimKey st))
  else st.

Definition handleNext (st : State) : State :=
  if current st <? Z.of_nat (List.length (flashcards st)) - 1 then
    setShowAnswer false (setCurrent (current st + 1) (bumpSwitchAnimKey st))
  else st.

Definition handleBackToGenerator (st : State) : State :=
  bumpSwitchAnimKey
    (setActiveSubject None
      (setSubject []
        (setError None
          (setShowAnswer false
            (setCurrent 0
              (setFlashcards []
                (setShowGenerator true st))))))).

Definition handleStoredSetClick (set : StoredSet) (st : State) : State :=
  bumpSwitchAnimKey
    (setError None
      (setShowAnswer false
        (setCurrent 0
          (setShowGenerator false
            (setFlashcards (ss_flashcards set)
              (setActiveSubject (Some (ss_subject set))
                (setSubject (ss_subject set) st))))))).

(** [activeSubject === subjectToDelete] for an [activeSubject] that may be
    [null]. *)
Definition is_subject (a : option jsstring) (s : jsstring) : bool :=
  match a with
  | Some x => jsstring_eqb x s
  | None => false
  end.

Definition handleDeleteStoredSet (subjectToDelete : jsstring)
    (st : State) (ls : LocalStorage) : State * LocalStorage :=
  let sets :=
    filter (fun s => negb (jsstring_eqb (ss_subject s) subjectToDelete))
      (getStoredSets ls) in
  let ls' := saveStoredSets sets ls in
  let st1 := setStoredSets sets st in
  if negb (showGenerator st)
     && (is_subject (activeSubject st) subjectToDelete
         || jsstring_eqb (subject st) subjectToDelete)
  then (handleBackToGenerator st1, ls')
  else (st1, ls').

(** The two effects that follow [current]: the first records the circle to
    animate, the second raises [switching] when [current] has moved since
    the last render.  The timer that lowers [switching] again is a matter
    of real time and is left out. *)
Definition useEffects (st : State) : State :=
  let st1 := setLastAnimatedCircle (Some (current st)) st in
  if negb (lastCurrent st1 =? current st1)
  then setLastCurrent (current st1) (setSwitching true st1)
  else st1.

(** The navigation operations of the browsing view. *)
Inductive NavEvent : Type :=
| Next
| Prev
| GoTo (idx : Z)
| ToggleReveal.

Definition handle (e : NavEvent) (st : State) : State :=
  match e with
  | Next => handleNext st
  | Prev => handlePrev st
  | GoTo idx => handleCircleClick idx st
  | ToggleReveal => handleFlip st
  end.

(** A handler runs, then the effects of the render it causes. *)
Definition dispatch (e : NavEvent) (st : State) : State :=
  useEffects (handle e st).


(** ** Generation *)

(** What the request to the text service comes to.  [FetchThrew] is a
    rejected [fetch] or [res.json()]: [Some m] when the value thrown is an
    [Error] with message [m], [None] for any other value.  [FetchNotOk] is a
    response whose [ok] is false.  [FetchText] carries
    [data?.candidates?.[0]?.content?.parts?.[0]?.text || ""]. *)
Inductive FetchOutcome : Type :=
| FetchThrew (message : option jsstring)
| FetchNotOk
| FetchText (text : jsstring).

Definition fetch_failed_message : jsstring :=
  str "Failed to fetch flashcards from Gemini".
Definition parse_failed_message : jsstring :=
  str "Could not parse flashcards from Gemini's response.".
Definition filter_failed_message : jsstring :=
  str "Could not parse flashcards with questions under 30 words from Gemini's response.".
Definition fallback_message : jsstring := str "An error occurred.".

(** The body of the [try] block up to the merge: the filtered cards, or the
    value thrown. *)
Definition generated_cards (outcome : FetchOutcome)
    : option jsstring + list Flashcard :=
  match outcome with
  | FetchThrew message => inl message
  | FetchNotOk => inl (Some fetch_failed_message)
  | FetchText text =>
      let cards := parseFlashcards text in
      if Nat.eqb (List.length cards) 0 then inl (Some parse_failed_message)
      else
        let filteredCards := filter short_question cards in
        if Nat.eqb (List.length filteredCards) 0
        then inl (Some filter_failed_message)
        else inr filteredCards
  end.

(** The [catch] block: the message that [setError] receives. *)
Definition caught_message (thrown : option jsstring) : jsstring :=
  match thrown with
  | Some [] | None => fallback_message
  | Some message => message
  end.

(** [generateFlashcards(subject, prevQuestions)].  The prompt only feeds the
    request, whose outcome is an argument here.  The call is taken as one
    step: no other handler runs while the request is pending. *)
Definition generateFlashcards (subject : jsstring) (prevQuestions : list jsstring)
    (outcome : FetchOutcome) (st : State) (ls : LocalStorage)
    : State * LocalStorage :=
  let st0 := setError None (setLoading true st) in
  let '(st1, ls1) :=
    match generated_cards outcome with
    | inr filteredCards =>
        if Nat.eqb (List.length prevQuestions) 0 then
          let '(uniqueSubject, ls') := addStoredSet subject filteredCards ls in
          (bumpSwitchAnimKey
            (setShowAnswer false
              (setCurrent 0
                (setShowGenerator false
                  (setFlashcards filteredCards
                    (setActiveSubject (Some uniqueSubject)
                      (setSubject uniqueSubject
                        (setStoredSets (getStoredSets ls') st0))))))),
           ls')
        else
          let updated := flashcards st ++ filteredCards in
          let '(stA, ls') :=
            match activeSubject st with
            | Some ((_ :: _) as active) =>
                let ls' := updateStoredSet active updated ls in
                (setStoredSets (getStoredSets ls') st0, ls')
            | _ => (st0, ls)
            end in
          (bumpSwitchAnimKey
            (setShowAnswer false
              (setCurrent (Z.of_nat (List.length (flashcards st)))
                (setFlashcards updated stA))),
           ls')
    | inl thrown => (setError (Some (caught_message thrown)) st0, ls)
    end in
  (setAddingMore false (setLoading false st1), ls1).

Definition handleSubmit (outcome : FetchOutcome) (st : State) (ls : LocalStorage)
    : State * LocalStorage :=
  let st1 :=
    bumpSwitchAnimKey
      (setActiveSubject None
        (setShowAnswer false (setCurrent 0 (setFlashcards [] st)))) in
  generateFlashcards (subject st) [] outcome st1 ls.

Definition handleAddMore (outcome : FetchOutcome) (st : State) (ls : LocalStorage)
    : State * LocalStorage :=
  let prevQuestions := List.map question (flashcards st) in
  let target :=
    match activeSubject st with
    | Some active => active
    | None => subject st
    end in
  generateFlashcards target prevQuestions outcome (setAddingMore true st) ls.

(** ** The view as a transition system *)

(** What the user can do.  [EditSubject] is the [onChange] of the subject
    input; [Submit] and [AddMore] carry the outcome of their request. *)
Inductive Event : Type :=
| EditSubject (text : jsstring)
| Submit (outcome : FetchOutcome)
| SelectStored (set : StoredSet)
| DeleteStored (subjectToDelete : jsstring)
| Navigate (e : NavEvent)
| AddMore (outcome : FetchOutcome)
| Back.

(** The card view is rendered when the generator is hidden and there is a
    card to show; all its controls, and the arrow keys, live there. *)
Definition browsing (st : State) : Prop :=
  showGenerator st = false /\ flashcards st <> [].

(** Which controls the rendered view offers.  The subject input is
    [required] and disabled while loading; there is one circle per card;
    the delete and select buttons belong to the list of stored sets of the
    generator view. *)
Definition offered (ev : Event) (st : State) : Prop :=
  match ev with
  | EditSubject _ => showGenerator st = true /\ loading st = false
  | Submit _ =>
      showGenerator st = true /\ loading st = false /\ subject st <> []
  | SelectStored set => showGenerator st = true /\ In set (storedSets st)
  | DeleteStored subjectToDelete =>
      showGenerator st = true
      /\ In subjectToDelete (List.map ss_subject (storedSets st))
  | Navigate (GoTo idx) =>
      browsing st /\ 0 <= idx < Z.of_nat (List.length (flashcards st))
  | Navigate _ => browsing st
  | AddMore _ => browsing st /\ loading st = false /\ addingMore st = false
  | Back => browsing st
  end.

Definition handler (ev : Event) (st : State) (ls : LocalStorage)
    : State * LocalStorage :=
  match ev with
  | EditSubject text => (setSubject text st, ls)
  | Submit outcome => handleSubmit outcome st ls
  | SelectStored set => (handleStoredSetClick set st, ls)
  | DeleteStored subjectToDelete => handleDeleteStoredSet subjectToDelete st ls
  | Navigate e => (handle e st, ls)
  | AddMore outcome => handleAddMore outcome st ls
  | Back => (handleBackToGenerator st, ls)
  end.

Definition step (ev : Event) (st : State) (ls : LocalStorage)
    : State * LocalStorage :=
  let '(st', ls') := handler ev st ls in (useEffects st', ls').

(** The state after mounting: the effects of the first render have run and
    the stored sets are loaded. *)
Definition mounted (ls : LocalStorage) : State :=
  useEffects (setStoredSets (getStoredSets ls) initial_state).


(** The bounds invariant of the data model. *)
Definition in_bounds (st : State) : Prop :=
  match flashcards st with
  | [] => current st = 0
  | _ :: _ => 0 <= current st < Z.of_nat (List.length (flashcards st))
  end.

(** ** Words, as the specification counts them *)



(** ** Vocabulary of the statements *)

(** Every character of [w] is in the class [p]. *)
Definition all_of (p : char -> bool) (w : jsstring) : Prop :=
  Forall (fun x => p x = true) w.

(** What [(?=Q:|$)] asks of the rest of the text: nothing left, or a [Q:]
    marker next. *)
Definition at_boundary (s : jsstring) : bool :=
  match s with
  | [] => true
  | x :: y :: _ => ((x =? 81) && (y =? 58))%N
  | _ :: [] => false
  end.

(** A card and the unit of the text it was read from: a [Q:] marker, the
    question span, an [A:] marker and the answer span, white space allowed
    after the markers and before [A:]; the answer span ends at the first
    place, one character in at least, where the text ends or a [Q:] marker
    stands. *)
Definition read_from (text : jsstring) (card : Flashcard) : Prop :=
  exists pre w1 q w2 w3 a post,
    text = pre ++ str "Q:" ++ w1 ++ q ++ w2 ++ str "A:" ++ w3 ++ a ++ post
    /\ all_of is_space w1 /\ all_of is_space w2 /\ all_of is_space w3
    /\ q <> [] /\ a <> []
    /\ at_boundary post = true
    /\ (forall a1 a2, a = a1 ++ a2 -> a1 <> [] -> a2 <> [] ->
          at_boundary (a2 ++ post) = false)
    /\ question card = trim q
    /\ answer card = trim a.

(** A matcher uses its continuation only through the results it gives. *)
Definition respects_cont (m : matcher_t) : Prop :=
  forall (R : Type) (s : jsstring) (pos : nat) (c : captures) (k1 k2 : cont R),
    (forall s' pos' c', k1 s' pos' c' = k2 s' pos' c') ->
    m R s pos c k1 = m R s pos c k2.

(** What holds of every state the view can get into: the index is within
    the cards, the generator view holds no session, the card view knows its
    active subject, the effects have settled and no request is pending. *)
Definition view_inv (st : State) : Prop :=
  in_bounds st
  /\ (showGenerator st = true ->
      flashcards st = [] /\ showAnswer st = false /\ activeSubject st = None)
  /\ (showGenerator st = false -> activeSubject st = Some (subject st))
  /\ lastCurrent st = current st
  /\ loading st = false
  /\ addingMore st = false.


(** The message of a response text that fails at the parse or the filter
    stage. *)
Definition stage_message (text : jsstring) : jsstring :=
  if Nat.eqb (List.length (parseFlashcards text)) 0
  then parse_failed_message
  else filter_failed_message.


(** An empty store, as on a first visit or after the site data were
    cleared. *)
Definition cleared_storage : LocalStorage :=
  {| ls_item := Absent; ls_writes := 0 |}.

(** The largest numeric suffix that [getUniqueSubjectName] finds for
    [base], -1 when it finds none. *)
Definition highest_suffix (base : jsstring) (sets : list StoredSet) : Z :=
  fst (fold_left (scan_subject (subject_regex base)) sets (-1, false)).

(** Number.MAX_SAFE_INTEGER: up to it, and one beyond, doubles count
    exactly. *)
Definition max_safe_integer : Z := 2 ^ 53 - 1.

(** The stores that a run of [addStoredSet] calls builds from an empty one,
    every suffix met on the way being a safe integer. *)
Inductive grown : LocalStorage -> Prop :=
| grown_empty : grown cleared_storage
| grown_add : forall (ls : LocalStorage) (subject : jsstring)
                     (cards : list Flashcard),
    grown ls ->
    highest_suffix subject (getStoredSets ls) < max_safe_integer ->
    grown (snd (addStoredSet subject cards ls)).

(** ** Sample data *)

(** A card from two ASCII literals. *)
Definition demo_card (q a : string) : Flashcard :=
  {| question := str q; answer := str a |}.

(** A session of three cards on the card view. *)
Definition demo_cards : list Flashcard :=
  [demo_card "A?" "B"; demo_card "C?" "D"; demo_card "E?" "F"].

Definition demo_state (cur : Z) (revealed : bool) : State :=
  {| subject := str "Math"; flashcards := demo_cards; loading := false;
     error := None; current := cur; showAnswer := revealed;
     showGenerator := false; addingMore := false;
     storedSets := [{| ss_subject := str "Math"; ss_flashcards := demo_cards |}];
     activeSubject := Some (str "Math");
     switchAnimKey := 1; lastAnimatedCircle := Some cur; lastCurrent := cur;
     switching := false |}.



(** ** More of the component: vocabulary *)

(** The set that [sets.findIndex((s) => s.subject === subject)] points at:
    the first one with that subject. *)
Definition lookup_set (subject : jsstring) (sets : list StoredSet)
    : option StoredSet :=
  find (fun s => jsstring_eqb (ss_subject s) subject) sets.

(** The subjects of the stored sets, in the order of the store. *)
Definition stored_subjects (ls : LocalStorage) : list jsstring :=
  List.map ss_subject (getStoredSets ls).

(** The states the view can get into when the page is opened on the store
    [ls0]. *)
Inductive reachable_from (ls0 : LocalStorage) : State -> LocalStorage -> Prop :=
| from_mount : reachable_from ls0 (mounted ls0) ls0
| from_step : forall ev st ls,
    reachable_from ls0 st ls -> offered ev st ->
    reachable_from ls0 (fst (step ev st ls)) (snd (step ev st ls)).

(** Every question of the list passes the filter of [generateFlashcards]. *)
Definition all_short (cards : list Flashcard) : Prop :=
  Forall (fun card => short_question card = true) cards.

(** A set as the component writes them: a subject that is not empty, at
    least one card, every question short. *)
Definition well_formed_set (set : StoredSet) : Prop :=
  ss_subject set <> [] /\ ss_flashcards set <> []
  /\ all_short (ss_flashcards set).

(** How the session and the store stand to each other: the view lists what
    is stored, what is stored is well formed, the cards of the session are
    short, and the card view has cards and an active subject that is
    stored. *)
Definition store_inv (st : State) (ls : LocalStorage) : Prop :=
  storedSets st = getStoredSets ls
  /\ Forall well_formed_set (getStoredSets ls)
  /\ all_short (flashcards st)
  /\ (showGenerator st = false ->
      flashcards st <> []
      /\ exists active, activeSubject st = Some active /\ active <> []
                        /\ In active (stored_subjects ls)).

(** A first visit: the subject is typed and submitted, and a card comes
    back. *)
Definition typed_state : State * LocalStorage :=
  step (EditSubject (str "Math")) (mounted cleared_storage) cleared_storage.

Definition first_set_state : State * LocalStorage :=
  step (Submit (FetchText (str "Q: G? A: H"))) (fst typed_state) (snd typed_state).

(** How many times an event makes the component call [setItem]. *)
Definition writes_of (ev : Event) : nat :=
  match ev with
  | DeleteStored _ => 1
  | Submit outcome | AddMore outcome =>
      match generated_cards outcome with
      | inr _ => 1
      | inl _ => 0
      end
  | _ => 0
  end.

(** ** The circles under the card and the keyboard *)

Definition MAX_PER_LINE : nat := 20.

(** [flashcards.slice(from, to)] *)
Definition cards_slice (cards : list Flashcard) (from to : nat) : list Flashcard :=
  firstn (to - from) (skipn from cards).

(** [for (let i = 0; i < flashcards.length; i += MAX_PER_LINE)
      lines.push(flashcards.slice(i, i + MAX_PER_LINE))], from [i] on.  The
    index grows in every round, so a round per card is more than enough. *)
Fixpoint lines_loop (fuel : nat) (cards : list Flashcard) (i : nat)
    : list (list Flashcard) :=
  match fuel with
  | O => []
  | S fuel' =>
      if Nat.ltb i (List.length cards)
      then cards_slice cards i (i + MAX_PER_LINE)
           :: lines_loop fuel' cards (i + MAX_PER_LINE)
      else []
  end.

Definition circle_lines (cards : list Flashcard) : list (list Flashcard) :=
  lines_loop (List.length cards) cards 0.

(** [line.map((_, idxInLine) => lineIdx * MAX_PER_LINE + idxInLine)]: the
    index each circle of a line hands to [handleCircleClick]. *)
Definition line_indices (lineIdx : nat) (line : list Flashcard) : list nat :=
  List.map (fun idxInLine => (lineIdx * MAX_PER_LINE + idxInLine)%nat)
    (seq 0 (List.length line)).

(** [lines.map((line, lineIdx) => ...)], the lines numbered from
    [lineIdx] on. *)
Fixpoint lines_indices (lineIdx : nat) (lines : list (list Flashcard))
    : list (list nat) :=
  match lines with
  | [] => []
  | line :: rest => line_indices lineIdx line :: lines_indices (S lineIdx) rest
  end.

Definition circle_indices (cards : list Flashcard) : list (list nat) :=
  lines_indices 0 (circle_lines cards).

(** The [keydown] listener of the window. *)
Definition onKeyDown (key : jsstring) (st : State) : State :=
  if negb (showGenerator st) && Nat.ltb 0 (List.length (flashcards st)) then
    if jsstring_eqb key (str "ArrowLeft") then handlePrev st
    else if jsstring_eqb key (str "ArrowRight") then handleNext st
    else st
  else st.

(** The [onKeyDown] of the card. *)
Definition card_onKeyDown (key : jsstring) (st : State) : State :=
  if jsstring_eqb key (str " ") || jsstring_eqb key (str "Enter")
  then handleFlip st
  else st.

(** ** The typing placeholder *)

(** The four cells of [useTypingPlaceholder]. *)
Record TypingState : Type := {
  placeholder : jsstring;
  exampleIdx : nat;
  charIdx : nat;
  deleting : bool
}.

Definition typing_initial : TypingState :=
  {| placeholder := []; exampleIdx := 0; charIdx := 0; deleting := false |}.

(** What the effect of the hook does to the cells, the timer it sets having
    fired (the delays are a matter of real time and are left out).  [None]
    stands for the TypeError of reading [length] off
    [examples[exampleIdx]] when there is no such example. *)
Definition typing_effect (examples : list jsstring) (ts : TypingState)
    : option TypingState :=
  match nth_error examples (exampleIdx ts) with
  | None => None
  | Some currentExample =>
      if negb (deleting ts) then
        if Nat.ltb (charIdx ts) (List.length currentExample) then
          Some {| placeholder := slice currentExample 0 (charIdx ts + 1);
                  exampleIdx := exampleIdx ts;
                  charIdx := charIdx ts + 1;
                  deleting := deleting ts |}
        else
          Some {| placeholder := placeholder ts;
                  exampleIdx := exampleIdx ts;
                  charIdx := charIdx ts;
                  deleting := true |}
      else
        if Nat.ltb 0 (charIdx ts) then
          Some {| placeholder := slice currentExample 0 (charIdx ts - 1);
                  exampleIdx := exampleIdx ts;
                  charIdx := charIdx ts - 1;
                  deleting := deleting ts |}
        else
          Some {| placeholder := placeholder ts;
                  exampleIdx := (exampleIdx ts + 1) mod List.length examples;
                  charIdx := charIdx ts;
                  deleting := false |}
  end.

(** The effect run [n] times over. *)
Fixpoint typing_run (examples : list jsstring) (n : nat) (ts : TypingState)
    : option TypingState :=
  match n with
  | O => Some ts
  | S n' =>
      match typing_effect examples ts with
      | Some ts' => typing_run examples n' ts'
      | None => None
      end
  end.

(** The text the hook returns: the placeholder, a bar while the example is
    being typed, three dots. *)
Definition typing_text (examples : list jsstring) (ts : TypingState)
    : option jsstring :=
  if deleting ts then Some (placeholder ts ++ str "...")
  else
    match nth_error examples (exampleIdx ts) with
    | None => None
    | Some currentExample =>
        Some (placeholder ts
              ++ (if Nat.ltb (charIdx ts) (List.length currentExample)
                  then str "|" else [])
              ++ str "...")
    end.

(** The cells fit together: there is a current example, the characters
    shown are a count within it, and the placeholder is that many of its
    characters. *)
Definition typing_ok (examples : list jsstring) (ts : TypingState) : Prop :=
  exists currentExample,
    nth_error examples (exampleIdx ts) = Some currentExample
    /\ (charIdx ts <= List.length currentExample)%nat
    /\ placeholder ts = firstn (charIdx ts) currentExample.

(** The [exampleSubjects] of the component. *)
Definition exampleSubjects : list jsstring :=
  [str "Quantum Physics"; str "Formula 1"; str "Photosynthesis";
   str "World War II"; str "Calculus"; str "Cristiano Ronaldo";
   str "Shakespeare"; str "Machine Learning"; str "The French Revolution";
   str "Cell Biology"].

(** ** Vocabulary for the parser *)

(** Neither the first nor the last character of [s] is white space. *)
Definition no_edge_space (s : jsstring) : Prop :=
  (forall c r, s = c :: r -> is_space c = false)
  /\ (forall c r, s = r ++ [c] -> is_space c = false).

(** [marker] stands somewhere in [s]. *)
Definition occurs (marker s : jsstring) : Prop :=
  exists pre post, s = pre ++ marker ++ post.

(** A test for [occurs], to settle it on a text at hand. *)
Fixpoint has_marker (marker s : jsstring) : bool :=
  match s with
  | [] => false
  | _ :: s' =>
      jsstring_eqb (firstn (List.length marker) s) marker || has_marker marker s'
  end.

(** The text of a card in the format the prompt asks for: ["Q: "], the
    question, a line break, ["A: "], the answer, a line break. *)
Definition unit_text (card : Flashcard) : jsstring :=
  str "Q: " ++ question card ++ [10%N] ++ str "A: " ++ answer card ++ [10%N].

Definition response_text (cards : list Flashcard) : jsstring :=
  List.concat (List.map unit_text cards).

(** A card that the format can carry: question and answer are not empty and
    have no white space at their ends, no [A:] stands in the question and no
    [Q:] in the answer. *)
Definition plain_card (card : Flashcard) : Prop :=
  question card <> [] /\ answer card <> []
  /\ no_edge_space (question card) /\ no_edge_space (answer card)
  /\ ~ occurs (str "A:") (question card)
  /\ ~ occurs (str "Q:") (answer card).

(** What the card view shows is stored: a stored set has the active subject
    and the cards of the session. *)
Definition session_saved (st : State) (ls : LocalStorage) : Prop :=
  showGenerator st = false ->
  exists active,
    activeSubject st = Some active
    /\ In {| ss_subject := active; ss_flashcards := flashcards st |}
          (getStoredSets ls).

(** [addStoredSet(base, cards)] called [n] times in a row. *)
Definition add_repeatedly (n : nat) (base : jsstring) (cards : list Flashcard)
    (ls : LocalStorage) : LocalStorage :=
  Nat.iter n (fun ls' => snd (addStoredSet base cards ls')) ls.

(** * Properties *)

(** ** Navigation *)

Section Navigation.

Variable st : State.


Lemma handleCircleClick_showAnswer (idx : Z) :
  showAnswer (handleCircleClick idx st) = false.
Proof. unfold handleCircleClick. destruct (negb (idx =? current st)); reflexivity. Qed.


Lemma handleCircleClick_moved (idx : Z) :
  idx <> current st ->
  handleCircleClick idx st
  = setShowAnswer false (setCurrent idx (bumpSwitchAnimKey st)).
Proof.
  intros Hne. unfold handleCircleClick.
  destruct (Z.eqb_spec idx (current st)) as [Heq | _]; [contradiction | reflexivity].
Qed.

Lemma handleNext_at_end : current st = Z.of_nat (List.length (flashcards st)) - 1 -> handleNext st = st.
Proof.
  intros Hc. unfold handleNext. rewrite Hc, Z.ltb_irrefl. reflexivity.
Qed.

Lemma handlePrev_at_start : current st = 0 -> handlePrev st = st.
Proof. intros Hc. unfold handlePrev. rewrite Hc. reflexivity. Qed.

Lemma handleNext_inside :
  current st < Z.of_nat (List.length (flashcards st)) - 1 -> handleNext st = handleCircleClick (current st + 1) st.
Proof.
  intros Hc. rewrite handleCircleClick_moved by lia.
  unfold handleNext.
  destruct (Z.ltb_spec (current st) (Z.of_nat (List.length (flashcards st)) - 1)); [reflexivity | lia].
Qed.

Lemma handlePrev_inside :
  0 < current st -> handlePrev st = handleCircleClick (current st - 1) st.
Proof.
  intros Hc. rewrite handleCircleClick_moved by lia.
  unfold handlePrev.
  destruct (Z.gtb_spec (current st) 0); [reflexivity | lia].
Qed.

Lemma handleNext_flashcards : flashcards (handleNext st) = flashcards st.
Proof. unfold handleNext. destruct (_ <? _); reflexivity. Qed.

Lemma handlePrev_flashcards : flashcards (handlePrev st) = flashcards st.
Proof. unfold handlePrev. destruct (_ >? _); reflexivity. Qed.

Lemma handleNext_range :
  0 <= current st < Z.of_nat (List.length (flashcards st)) ->
  0 <= current (handleNext st) < Z.of_nat (List.length (flashcards st)).
Proof.
  intros Hc. unfold handleNext.
  destruct (Z.ltb_spec (current st) (Z.of_nat (List.length (flashcards st)) - 1)); simpl; lia.
Qed.

Lemma handlePrev_range :
  0 <= current st < Z.of_nat (List.length (flashcards st)) ->
  0 <= current (handlePrev st) < Z.of_nat (List.length (flashcards st)).
Proof.
  intros Hc. unfold handlePrev.
  destruct (Z.gtb_spec (current st) 0); simpl; lia.
Qed.

End Navigation.

Lemma useEffects_current (st : State) : current (useEffects st) = current st.
Proof. unfold useEffects. destruct (negb _); reflexivity. Qed.


Lemma useEffects_showAnswer (st : State) : showAnswer (useEffects st) = showAnswer st.
Proof. unfold useEffects. destruct (negb _); reflexivity. Qed.

(** Once the effects have run, running them again changes nothing. *)
Lemma useEffects_idle (st : State) :
  lastCurrent st = current st -> lastAnimatedCircle st = Some (current st) ->
  useEffects st = st.
Proof.
  intros Hl Ha. unfold useEffects. simpl. rewrite Hl, Z.eqb_refl. simpl.
  destruct st; simpl in *. subst. reflexivity.
Qed.

(** C8: at the last card [next] changes nothing and at the first card [prev]
    changes nothing; anywhere else within the cards they are [goTo] of the
    neighbouring index. *)
Theorem next_prev_bounds (st : State) :
  (current st = Z.of_nat (List.length (flashcards st)) - 1 -> handleNext st = st)
  /\ (current st = 0 -> handlePrev st = st)
  /\ (0 <= current st < Z.of_nat (List.length (flashcards st)) ->
      current st <> Z.of_nat (List.length (flashcards st)) - 1 ->
      handleNext st = handleCircleClick (current st + 1) st)
  /\ (0 <= current st < Z.of_nat (List.length (flashcards st)) ->
      current st <> 0 ->
      handlePrev st = handleCircleClick (current st - 1) st).
Proof.
  split; [apply handleNext_at_end |].
  split; [apply handlePrev_at_start |].
  split; intros Hrange Hne.
  - apply handleNext_inside. lia.
  - apply handlePrev_inside. lia.
Qed.

Lemma next_prev_bounds_witness :
  handleNext (demo_state 2 true) = demo_state 2 true
  /\ handlePrev (demo_state 0 true) = demo_state 0 true
  /\ handleNext (demo_state 1 true) = handleCircleClick 2 (demo_state 1 true)
  /\ handlePrev (demo_state 1 true) = handleCircleClick 0 (demo_state 1 true).
Proof.
  split; [| split; [| split]].
  - apply (proj1 (next_prev_bounds (demo_state 2 true))). reflexivity.
  - apply (proj1 (proj2 (next_prev_bounds (demo_state 0 true)))). reflexivity.
  - apply (proj1 (proj2 (proj2 (next_prev_bounds (demo_state 1 true))))).
    + simpl. lia.
    + simpl. lia.
  - apply (proj2 (proj2 (proj2 (next_prev_bounds (demo_state 1 true))))).
    + simpl. lia.
    + simpl. lia.
Defined.

(** C7, the claim as stated fails: on a revealed card, [goTo] of the current
    index hides the answer again. *)
Lemma goTo_same_index_hides_answer :
  let st := demo_state 1 true in
  showAnswer st = true
  /\ showAnswer (handleCircleClick (current st) st) = false
  /\ handleCircleClick (current st) st <> st.
Proof.
  split; [reflexivity |]. split; [reflexivity |].
  intros Heq. apply (f_equal showAnswer) in Heq. discriminate Heq.
Qed.

(** C7, amended: [goTo] of the current index leaves the index, the switching
    flag and the animation key as they are, and clears [revealed]; it is the
    state with [showAnswer] set to false, also once the effects have run. *)
Theorem goTo_same_index (st : State) :
  handleCircleClick (current st) st = setShowAnswer false st
  /\ current (dispatch (GoTo (current st)) st) = current st
  /\ showAnswer (dispatch (GoTo (current st)) st) = false
  /\ (lastCurrent st = current st ->
      switching (dispatch (GoTo (current st)) st) = switching st).
Proof.
  assert (Hk : handleCircleClick (current st) st = setShowAnswer false st).
  { unfold handleCircleClick. rewrite Z.eqb_refl. simpl.
    destruct st; reflexivity. }
  unfold dispatch, handle. rewrite Hk.
  split; [reflexivity |].
  split; [rewrite useEffects_current; reflexivity |].
  split; [rewrite useEffects_showAnswer; reflexivity |].
  intros Hl. unfold useEffects. simpl. rewrite Hl, Z.eqb_refl. reflexivity.
Qed.

Lemma goTo_same_index_witness :
  switching (dispatch (GoTo 1) (demo_state 1 true)) = false.
Proof.
  apply (proj2 (proj2 (proj2 (goTo_same_index (demo_state 1 true))))).
  reflexivity.
Defined.

(** ** Reachable states of the view *)

Lemma generated_cards_nonempty (outcome : FetchOutcome) (cards : list Flashcard) :
  generated_cards outcome = inr cards -> cards <> [].
Proof.
  unfold generated_cards. destruct outcome as [m | | text]; try discriminate.
  destruct (Nat.eqb _ 0); [discriminate |].
  destruct (filter short_question (parseFlashcards text)) as [| c l];
    simpl; [discriminate |].
  intros H. injection H as <-. discriminate.
Qed.



Lemma in_bounds_range (st : State) :
  flashcards st <> [] -> in_bounds st ->
  0 <= current st < Z.of_nat (List.length (flashcards st)).
Proof.
  unfold in_bounds. destruct (flashcards st); [congruence | auto].
Qed.

Lemma range_in_bounds (st : State) :
  0 <= current st < Z.of_nat (List.length (flashcards st)) -> in_bounds st.
Proof.
  unfold in_bounds. destruct (flashcards st); simpl; [lia | auto].
Qed.












(** ** Reveal and deletion *)

Lemma jsstring_eqb_spec (a b : jsstring) : reflect (a = b) (jsstring_eqb a b).
Proof.
  unfold jsstring_eqb. destruct (list_eq_dec N.eq_dec a b); constructor; assumption.
Qed.

Lemma jsstring_eqb_refl (a : jsstring) : jsstring_eqb a a = true.
Proof. destruct (jsstring_eqb_spec a a); congruence. Qed.

Lemma generate_showAnswer (subj : jsstring) (prev : list jsstring)
    (outcome : FetchOutcome) (st : State) (ls : LocalStorage) :
  let st' := fst (generateFlashcards subj prev outcome st ls) in
  showAnswer st' = false
  \/ (showAnswer st' = showAnswer st /\ current st' = current st).
Proof.
  unfold generateFlashcards.
  destruct (generated_cards outcome) as [thrown | cards]; simpl.
  - right. split; reflexivity.
  - left. destruct (Nat.eqb (List.length prev) 0).
    + reflexivity.
    + destruct (activeSubject st) as [[| a0 active] |]; reflexivity.
Qed.

Lemma handle_showAnswer (e : NavEvent) (st : State) :
  current (handle e st) <> current st -> showAnswer (handle e st) = false.
Proof.
  destruct e as [| | idx |]; unfold handle.
  - unfold handleNext. destruct (_ <? _); simpl; congruence.
  - unfold handlePrev. destruct (_ >? _); simpl; congruence.
  - intros _. apply handleCircleClick_showAnswer.
  - simpl. congruence.
Qed.

Lemma step_showAnswer (ev : Event) (st : State) (ls : LocalStorage) :
  current (fst (step ev st ls)) <> current st ->
  showAnswer (fst (step ev st ls)) = false.
Proof.
  unfold step.
  destruct (handler ev st ls) as [st' ls'] eqn:Hh. simpl.
  rewrite useEffects_current, useEffects_showAnswer.
  assert (Hst : st' = fst (handler ev st ls)) by (rewrite Hh; reflexivity).
  clear Hh. subst st'.
  destruct ev as [text | outcome | set | subj | e | outcome |]; simpl.
  - congruence.
  - intros _. unfold handleSubmit.
    destruct (generate_showAnswer (subject st) [] outcome
                (bumpSwitchAnimKey
                   (setActiveSubject None
                      (setShowAnswer false (setCurrent 0 (setFlashcards [] st)))))
                ls) as [H | (H & _)]; exact H.
  - reflexivity.
  - unfold handleDeleteStoredSet.
    destruct (negb (showGenerator st) && _); simpl; congruence.
  - apply handle_showAnswer.
  - unfold handleAddMore. intros Hc.
    destruct (generate_showAnswer
                match activeSubject st with
                | Some active => active
                | None => subject st
                end (List.map question (flashcards st)) outcome
                (setAddingMore true st) ls) as [H | (_ & H)];
      [exact H | contradiction].
  - reflexivity.
Qed.

(** C9: whenever an operation changes the current index, the answer is
    hidden afterwards; so after [toggleReveal] has revealed it, [next],
    [prev] or [goTo] to another index leaves [revealed] false.  The first
    part covers every handler of the component, not only navigation. *)
Theorem reveal_resets_on_index_change :
  (forall (ev : Event) (st : State) (ls : LocalStorage),
      current (fst (step ev st ls)) <> current st ->
      showAnswer (fst (step ev st ls)) = false)
  /\ (forall (e : NavEvent) (st : State),
        showAnswer st = false ->
        showAnswer (dispatch ToggleReveal st) = true
        /\ (current (dispatch e (dispatch ToggleReveal st))
              <> current (dispatch ToggleReveal st) ->
            showAnswer (dispatch e (dispatch ToggleReveal st)) = false)).
Proof.
  split; [exact step_showAnswer |].
  intros e st Hs. split.
  - unfold dispatch. rewrite useEffects_showAnswer. simpl. rewrite Hs. reflexivity.
  - generalize (dispatch ToggleReveal st). intros st1.
    unfold dispatch. rewrite useEffects_current, useEffects_showAnswer.
    apply handle_showAnswer.
Qed.

Lemma reveal_resets_on_index_change_witness :
  showAnswer (dispatch ToggleReveal (demo_state 1 false)) = true
  /\ showAnswer (dispatch Next (dispatch ToggleReveal (demo_state 1 false))) = false
  /\ showAnswer (dispatch Prev (dispatch ToggleReveal (demo_state 1 false))) = false
  /\ showAnswer (dispatch (GoTo 0) (dispatch ToggleReveal (demo_state 1 false))) = false
  /\ showAnswer (fst (step Back (demo_state 1 true)
                        {| ls_item := Absent; ls_writes := 0 |})) = false.
Proof.
  split; [| split; [| split; [| split]]].
  - apply (proj2 reveal_resets_on_index_change Next). reflexivity.
  - apply (proj2 reveal_resets_on_index_change Next); [reflexivity | discriminate].
  - apply (proj2 reveal_resets_on_index_change Prev); [reflexivity | discriminate].
  - apply (proj2 reveal_resets_on_index_change (GoTo 0)); [reflexivity | discriminate].
  - apply (proj1 reveal_resets_on_index_change). discriminate.
Defined.

(** C10: on the card view, deleting the set whose subject is the active one
    brings the session back to the entry view: no cards, index 0, answer
    hidden, no error, no active subject.  Deleting another subject changes
    nothing of the session but the list of stored sets it displays.  The
    premise of the second part, that the card view shows its active
    subject, holds of every state the view can reach
    ([reachable_view_inv]). *)
Theorem delete_active_set_resets (subjectToDelete : jsstring) (st : State)
    (ls : LocalStorage) :
  (showGenerator st = false -> activeSubject st = Some subjectToDelete ->
   let st' := fst (handleDeleteStoredSet subjectToDelete st ls) in
   flashcards st' = [] /\ current st' = 0 /\ showAnswer st' = false
   /\ error st' = None /\ activeSubject st' = None /\ showGenerator st' = true)
  /\ ((showGenerator st = false -> activeSubject st = Some (subject st)) ->
      activeSubject st <> Some subjectToDelete ->
      fst (handleDeleteStoredSet subjectToDelete st ls)
      = setStoredSets
          (filter (fun s => negb (jsstring_eqb (ss_subject s) subjectToDelete))
             (getStoredSets ls)) st).
Proof.
  unfold handleDeleteStoredSet. split.
  - intros Hs Ha. rewrite Hs, Ha. simpl.
    rewrite jsstring_eqb_refl. simpl. auto 10.
  - intros Hinv Hne. destruct (showGenerator st) eqn:Hs; [reflexivity |].
    rewrite (Hinv eq_refl) in *. simpl.
    destruct (jsstring_eqb_spec (subject st) subjectToDelete) as [Heq | _].
    + exfalso. apply Hne. rewrite Heq. reflexivity.
    + reflexivity.
Qed.

Lemma delete_active_set_resets_witness :
  let ls := {| ls_item := Json (storedSets (demo_state 1 true)); ls_writes := 0 |} in
  flashcards (fst (handleDeleteStoredSet (str "Math") (demo_state 1 true) ls)) = []
  /\ fst (handleDeleteStoredSet (str "Physics") (demo_state 1 true) ls)
     = setStoredSets (storedSets (demo_state 1 true)) (demo_state 1 true).
Proof.
  split.
  - apply (proj1 (delete_active_set_resets (str "Math") (demo_state 1 true)
                    {| ls_item := Json (storedSets (demo_state 1 true));
                       ls_writes := 0 |})); reflexivity.
  - apply (proj2 (delete_active_set_resets (str "Physics") (demo_state 1 true)
                    {| ls_item := Json (storedSets (demo_state 1 true));
                       ls_writes := 0 |})); [reflexivity | discriminate].
Defined.

(** ** Generation: failures and store writes *)

Lemma generate_failure (subj : jsstring) (prev : list jsstring)
    (outcome : FetchOutcome) (thrown : option jsstring) (st : State)
    (ls : LocalStorage) :
  generated_cards outcome = inl thrown ->
  generateFlashcards subj prev outcome st ls
  = (setAddingMore false
       (setLoading false (setError (Some (caught_message thrown)) st)), ls).
Proof.
  intros Hgen. unfold generateFlashcards. rewrite Hgen. reflexivity.
Qed.

Lemma generated_cards_stage_failure (text : jsstring) :
  parseFlashcards text = []
  \/ filter short_question (parseFlashcards text) = [] ->
  generated_cards (FetchText text) = inl (Some (stage_message text)).
Proof.
  unfold generated_cards, stage_message. intros [Hp | Hf].
  - rewrite Hp. reflexivity.
  - destruct (Nat.eqb _ 0); [reflexivity |]. rewrite Hf. reflexivity.
Qed.

Lemma caught_stage_message (text : jsstring) :
  caught_message (Some (stage_message text)) = stage_message text.
Proof. unfold stage_message. destruct (Nat.eqb _ 0); reflexivity. Qed.

Lemma idle_state_restored (v : option jsstring) (st : State) :
  loading st = false -> addingMore st = false ->
  setAddingMore false (setLoading false (setError v st)) = setError v st.
Proof.
  intros Hl Hm. destruct st; simpl in *. subst. reflexivity.
Qed.

(** C5: when a generate call fails at the parse or the filter stage, the
    store is the one before the call and so are the cards of the session.
    The state after the call is the state before it with the error set and
    the two in-flight flags lowered; called with no request in flight,
    whether directly or through [handleAddMore], only the error differs. *)
Theorem failed_generation_changes_error_only (subj : jsstring)
    (prev : list jsstring) (text : jsstring) (st : State) (ls : LocalStorage) :
  parseFlashcards text = []
  \/ filter short_question (parseFlashcards text) = [] ->
  snd (generateFlashcards subj prev (FetchText text) st ls) = ls
  /\ flashcards (fst (generateFlashcards subj prev (FetchText text) st ls))
     = flashcards st
  /\ fst (generateFlashcards subj prev (FetchText text) st ls)
     = setAddingMore false
         (setLoading false (setError (Some (stage_message text)) st))
  /\ (loading st = false -> addingMore st = false ->
      fst (generateFlashcards subj prev (FetchText text) st ls)
      = setError (Some (stage_message text)) st
      /\ handleAddMore (FetchText text) st ls
         = (setError (Some (stage_message text)) st, ls)).
Proof.
  intros Hfail.
  pose proof (generated_cards_stage_failure text Hfail) as Hgen.
  rewrite (generate_failure subj prev _ _ st ls Hgen), caught_stage_message.
  split; [reflexivity |]. split; [reflexivity |]. split; [reflexivity |].
  intros Hl Hm. split.
  - apply idle_state_restored; assumption.
  - unfold handleAddMore.
    rewrite (generate_failure _ _ _ _ (setAddingMore true st) ls Hgen),
      caught_stage_message.
    f_equal. destruct st; simpl in *. subst. reflexivity.
Qed.

(** The same for a submission from the generator view of a reachable state:
    besides the error only the animation key moves. *)
Lemma handleSubmit_failure (text : jsstring) (st : State) (ls : LocalStorage) :
  view_inv st -> showGenerator st = true ->
  parseFlashcards text = []
  \/ filter short_question (parseFlashcards text) = [] ->
  handleSubmit (FetchText text) st ls
  = (bumpSwitchAnimKey (setError (Some (stage_message text)) st), ls).
Proof.
  intros (Hb & Hg & _ & _ & Hl & Hm) Hs Hfail.
  destruct (Hg Hs) as (Hf & Ha & Hact).
  unfold in_bounds in Hb. rewrite Hf in Hb.
  pose proof (generated_cards_stage_failure text Hfail) as Hgen.
  unfold handleSubmit.
  rewrite (generate_failure _ _ _ _ _ ls Hgen), caught_stage_message.
  f_equal. destruct st; simpl in *. subst. reflexivity.
Qed.

Lemma failed_generation_changes_error_only_witness :
  let st := demo_state 1 true in
  let ls := {| ls_item := Json (storedSets st); ls_writes := 3 |} in
  let text := str "I cannot help with that." in
  snd (generateFlashcards (str "Math") [str "A?"] (FetchText text) st ls) = ls
  /\ flashcards (fst (generateFlashcards (str "Math") [str "A?"] (FetchText text) st ls))
     = flashcards st
  /\ fst (generateFlashcards (str "Math") [str "A?"] (FetchText text) st ls)
     = setAddingMore false
         (setLoading false (setError (Some (stage_message text)) st))
  /\ (loading st = false -> addingMore st = false ->
      fst (generateFlashcards (str "Math") [str "A?"] (FetchText text) st ls)
      = setError (Some (stage_message text)) st
      /\ handleAddMore (FetchText text) st ls
         = (setError (Some (stage_message text)) st, ls)).
Proof.
  apply (failed_generation_changes_error_only (str "Math") [str "A?"]
           (str "I cannot help with that.") (demo_state 1 true)
           {| ls_item := Json (storedSets (demo_state 1 true)); ls_writes := 3 |}).
  left. vm_compute. reflexivity.
Defined.

Lemma findIndex_none (subject : jsstring) (sets : list StoredSet) :
  ~ In subject (List.map ss_subject sets) ->
  findIndex (fun s => jsstring_eqb (ss_subject s) subject) sets = None.
Proof.
  induction sets as [| s sets IH]; simpl; intros Hnot; [reflexivity |].
  destruct (jsstring_eqb_spec (ss_subject s) subject) as [Heq | Hne].
  - exfalso. apply Hnot. left. exact Heq.
  - rewrite IH; [reflexivity |]. intros Hin. apply Hnot. right. exact Hin.
Qed.

Lemma findIndex_some (subject : jsstring) (sets : list StoredSet) :
  In subject (List.map ss_subject sets) ->
  exists idx, findIndex (fun s => jsstring_eqb (ss_subject s) subject) sets = Some idx.
Proof.
  induction sets as [| s sets IH]; simpl; intros Hin; [contradiction |].
  destruct (jsstring_eqb_spec (ss_subject s) subject) as [Heq | Hne].
  - exists O. reflexivity.
  - destruct Hin as [Heq | Hin]; [contradiction |].
    destruct (IH Hin) as (idx & Hidx). rewrite Hidx. exists (S idx). reflexivity.
Qed.

Lemma updateStoredSet_present (subject : jsstring) (cards : list Flashcard)
    (ls : LocalStorage) :
  In subject (List.map ss_subject (getStoredSets ls)) ->
  ls_writes (updateStoredSet subject cards ls) = S (ls_writes ls).
Proof.
  intros Hin. unfold updateStoredSet.
  destruct (findIndex_some subject _ Hin) as (idx & Hidx). rewrite Hidx.
  reflexivity.
Qed.

Lemma updateStoredSet_missing (subject : jsstring) (cards : list Flashcard)
    (ls : LocalStorage) :
  ~ In subject (List.map ss_subject (getStoredSets ls)) ->
  updateStoredSet subject cards ls = ls.
Proof.
  intros Hnot. unfold updateStoredSet. rewrite findIndex_none by exact Hnot.
  reflexivity.
Qed.

(** C6, the claim as stated fails: a continuation call whose active subject
    names no stored set succeeds (its card is appended, no error) and writes nothing to the store. *)
Lemma continuation_without_stored_set_writes_nothing :
  let st := demo_state 1 true in
  let outcome := FetchText (str "Q: G? A: H") in
  generated_cards outcome = inr [demo_card "G?" "H"]
  /\ flashcards (fst (handleAddMore outcome st cleared_storage))
     = demo_cards ++ [demo_card "G?" "H"]
  /\ error (fst (handleAddMore outcome st cleared_storage)) = None
  /\ snd (handleAddMore outcome st cleared_storage) = cleared_storage.
Proof. vm_compute. repeat split; reflexivity. Qed.

(** C6, amended: a failed call writes nothing.  A successful initial call
    writes once, the new set going first.  A successful continuation writes
    once when the active subject is a non-empty text that names a stored
    set, and writes nothing when there is no such set. *)
Theorem store_writes_per_generation (subj : jsstring) (prev : list jsstring)
    (outcome : FetchOutcome) (st : State) (ls : LocalStorage) :
  (forall thrown, generated_cards outcome = inl thrown ->
     snd (generateFlashcards subj prev outcome st ls) = ls)
  /\ (forall cards, generated_cards outcome = inr cards -> prev = [] ->
        ls_writes (snd (generateFlashcards subj prev outcome st ls))
        = S (ls_writes ls)
        /\ getStoredSets (snd (generateFlashcards subj prev outcome st ls))
           = {| ss_subject := getUniqueSubjectName subj (getStoredSets ls);
                ss_flashcards := cards |} :: getStoredSets ls)
  /\ (forall cards active, generated_cards outcome = inr cards -> prev <> [] ->
        activeSubject st = Some active -> active <> [] ->
        In active (List.map ss_subject (getStoredSets ls)) ->
        ls_writes (snd (generateFlashcards subj prev outcome st ls))
        = S (ls_writes ls))
  /\ (forall cards, generated_cards outcome = inr cards -> prev <> [] ->
        (forall active, activeSubject st = Some active -> active <> [] ->
           ~ In active (List.map ss_subject (getStoredSets ls))) ->
        snd (generateFlashcards subj prev outcome st ls) = ls).
Proof.
  split; [| split; [| split]].
  - intros thrown Hgen. rewrite (generate_failure _ _ _ _ _ _ Hgen). reflexivity.
  - intros cards Hgen ->. unfold generateFlashcards. rewrite Hgen. simpl.
    split; reflexivity.
  - intros cards active Hgen Hprev Hact Hne Hin.
    unfold generateFlashcards. rewrite Hgen.
    destruct prev as [| q prev]; [congruence |]. simpl. rewrite Hact.
    destruct active as [| a0 active]; [congruence |]. simpl.
    apply updateStoredSet_present, Hin.
  - intros cards Hgen Hprev Hmiss.
    unfold generateFlashcards. rewrite Hgen.
    destruct prev as [| q prev]; [congruence |]. simpl.
    destruct (activeSubject st) as [[| a0 active] |] eqn:Hact; simpl;
      try reflexivity.
    apply updateStoredSet_missing, (Hmiss _ eq_refl). discriminate.
Qed.

Lemma store_writes_per_generation_witness :
  let st := demo_state 1 true in
  let ls := {| ls_item := Json (storedSets st); ls_writes := 3 |} in
  let good := FetchText (str "Q: G? A: H") in
  snd (generateFlashcards (str "Math") [] (FetchText (str "nothing")) st ls) = ls
  /\ ls_writes (snd (generateFlashcards (str "Math") [] good st ls)) = 4%nat
  /\ ls_writes (snd (generateFlashcards (str "Math") [str "A?"] good st ls)) = 4%nat
  /\ snd (generateFlashcards (str "Math") [str "A?"] good st cleared_storage)
     = cleared_storage.
Proof.
  split; [| split; [| split]].
  - apply (proj1 (store_writes_per_generation (str "Math") []
                    (FetchText (str "nothing")) (demo_state 1 true)
                    {| ls_item := Json (storedSets (demo_state 1 true));
                       ls_writes := 3 |}))
      with (thrown := Some parse_failed_message).
    vm_compute. reflexivity.
  - apply (proj1 (proj2 (store_writes_per_generation (str "Math") []
                    (FetchText (str "Q: G? A: H")) (demo_state 1 true)
                    {| ls_item := Json (storedSets (demo_state 1 true));
                       ls_writes := 3 |})))
      with (cards := [demo_card "G?" "H"]).
    + vm_compute. reflexivity.
    + reflexivity.
  - apply (proj1 (proj2 (proj2 (store_writes_per_generation (str "Math")
                    [str "A?"] (FetchText (str "Q: G? A: H")) (demo_state 1 true)
                    {| ls_item := Json (storedSets (demo_state 1 true));
                       ls_writes := 3 |}))))
      with (cards := [demo_card "G?" "H"]) (active := str "Math").
    + vm_compute. reflexivity.
    + discriminate.
    + reflexivity.
    + discriminate.
    + simpl. left. reflexivity.
  - apply (proj2 (proj2 (proj2 (store_writes_per_generation (str "Math")
                    [str "A?"] (FetchText (str "Q: G? A: H")) (demo_state 1 true)
                    cleared_storage))))
      with (cards := [demo_card "G?" "H"]).
    + vm_compute. reflexivity.
    + discriminate.
    + intros active _ _ Hin. exact Hin.
Defined.

(** ** The matcher on character classes *)



(** ** Words: the code's count is the specification's *)











Example word_count_demo :
  word_count (str "  What is  the capital of France? ") = 6%nat.
Proof. vm_compute. reflexivity. Qed.



(** ** The matcher on the flashcard pattern *)

Lemma matcher_Seq (r1 r2 : regex) (R : Type) (s : jsstring) (pos : nat)
    (c : captures) (k : cont R) :
  matcher (Seq r1 r2) R s pos c k
  = matcher r1 R s pos c (fun s1 pos1 c1 => matcher r2 R s1 pos1 c1 k).
Proof. reflexivity. Qed.

Lemma matcher_Lit_inv (l : jsstring) (R : Type) (k : cont R) (r : R) :
  forall (s : jsstring) (pos : nat) (c : captures),
    matcher (Lit l) R s pos c k = Some r ->
    exists s', s = l ++ s' /\ k s' (pos + List.length l)%nat c = Some r.
Proof.
  induction l as [| a l IH]; intros s pos c H; simpl in H.
  - exists s. rewrite Nat.add_0_r. auto.
  - destruct s as [| x s]; [discriminate |].
    destruct (N.eqb_spec x a) as [-> | _]; [| discriminate].
    apply IH in H as (s' & -> & Hk). exists s'. split; [reflexivity |].
    simpl. rewrite <- Hk. f_equal. lia.
Qed.

Lemma matcher_Class_inv (p : char -> bool) (R : Type) (k : cont R) (r : R)
    (s : jsstring) (pos : nat) (c : captures) :
  matcher (Class p) R s pos c k = Some r ->
  exists x s', s = x :: s' /\ p x = true /\ k s' (S pos) c = Some r.
Proof.
  simpl. destruct s as [| x s']; [discriminate |].
  destruct (p x) eqn:Hp; [| discriminate].
  intros H. exists x, s'. auto.
Qed.

(** A star over a class, greedy or lazy: what it consumes is a run of the
    class, and the continuation succeeds behind it. *)
Lemma star_class_inv (p : char -> bool) (greedy : bool) (R : Type)
    (k : cont R) (r : R) :
  forall (fuel : nat) (s : jsstring) (pos : nat) (c : captures),
    repeat_loop (matcher (Class p)) greedy fuel R s pos c k = Some r ->
    exists w s', s = w ++ s' /\ all_of p w
                 /\ k s' (pos + List.length w)%nat c = Some r.
Proof.
  induction fuel as [| fuel IH]; intros s pos c H; [discriminate |].
  simpl in H.
  assert (Hstop : k s pos c = Some r ->
                  exists w s', s = w ++ s' /\ all_of p w
                               /\ k s' (pos + List.length w)%nat c = Some r).
  { intros Hk. exists [], s. simpl. rewrite Nat.add_0_r.
    split; [reflexivity |]. split; [constructor | exact Hk]. }
  assert (Hmore :
            match s with
            | [] => None
            | x :: s' =>
                if p x
                then if Nat.ltb (List.length s') (List.length s)
                     then repeat_loop (matcher (Class p)) greedy fuel R s' (S pos) c k
                     else None
                else None
            end = Some r ->
            exists w s', s = w ++ s' /\ all_of p w
                         /\ k s' (pos + List.length w)%nat c = Some r).
  { destruct s as [| x s1]; [discriminate |].
    destruct (p x) eqn:Hp; [| discriminate].
    destruct (Nat.ltb _ _); [| discriminate].
    intros Hrec. apply IH in Hrec as (w & s' & -> & Hw & Hk).
    exists (x :: w), s'. split; [reflexivity |].
    split; [constructor; assumption |].
    simpl. rewrite <- Hk. f_equal. lia. }
  destruct greedy.
  - destruct (match s with [] => None | _ :: _ => _ end) as [r' |] eqn:Hagain.
    + apply Hmore. rewrite <- H. reflexivity.
    + apply Hstop, H.
  - destruct (k s pos c) as [r' |] eqn:Hk.
    + apply Hstop. rewrite <- H. reflexivity.
    + apply Hmore, H.
Qed.

(** A lazy star stops at the first place where the continuation succeeds:
    behind every shorter run the continuation fails. *)
Lemma star_class_lazy_first (p : char -> bool) (R : Type) (k : cont R) (r : R) :
  forall (fuel : nat) (s : jsstring) (pos : nat) (c : captures),
    repeat_loop (matcher (Class p)) false fuel R s pos c k = Some r ->
    exists w s', s = w ++ s' /\ all_of p w
                 /\ k s' (pos + List.length w)%nat c = Some r
                 /\ forall w1 w2, w = w1 ++ w2 -> w2 <> [] ->
                      k (w2 ++ s') (pos + List.length w1)%nat c = None.
Proof.
  induction fuel as [| fuel IH]; intros s pos c H; [discriminate |].
  simpl in H. destruct (k s pos c) as [r' |] eqn:Hk.
  - exists [], s. simpl. rewrite Nat.add_0_r.
    split; [reflexivity |]. split; [constructor |].
    split; [congruence |].
    intros w1 w2 Hw Hne. destruct w1; destruct w2; simpl in Hw; congruence.
  - destruct s as [| x s1]; [discriminate |].
    destruct (p x) eqn:Hp; [| discriminate].
    destruct (Nat.ltb _ _); [| discriminate].
    apply IH in H as (w & s' & -> & Hw & Hres & Hfirst).
    exists (x :: w), s'. split; [reflexivity |].
    split; [constructor; assumption |].
    split; [simpl; rewrite <- Hres; f_equal; lia |].
    intros w1 w2 Hsplit Hne. destruct w1 as [| y w1]; simpl in Hsplit.
    + subst w2. simpl. rewrite Nat.add_0_r. exact Hk.
    + injection Hsplit as <- ->. simpl.
      replace (pos + S (List.length w1))%nat with (S pos + List.length w1)%nat by lia.
      apply Hfirst; [reflexivity | exact Hne].
Qed.

Lemma matcher_Star (greedy : bool) (r1 : regex) (R : Type) (s : jsstring)
    (pos : nat) (c : captures) (k : cont R) :
  matcher (Star greedy r1) R s pos c k
  = repeat_loop (matcher r1) greedy (S (List.length s)) R s pos c k.
Proof. reflexivity. Qed.

Lemma matcher_Group (i : nat) (r1 : regex) (R : Type) (s : jsstring)
    (pos : nat) (c : captures) (k : cont R) :
  matcher (Group i r1) R s pos c k
  = matcher r1 R s pos c (fun s1 pos1 c1 => k s1 pos1 ((i, (pos, pos1)) :: c1)).
Proof. reflexivity. Qed.

Lemma lookahead_boundary (R : Type) (s : jsstring) (pos : nat) (c : captures)
    (k : cont R) :
  matcher (Lookahead (Alt Q_marker Eos)) R s pos c k
  = if at_boundary s then k s pos c else None.
Proof.
  change Q_marker with (Seq (Char 81%N) (Seq (Char 58%N) Empty)).
  destruct s as [| x [| y s]]; simpl.
  - reflexivity.
  - destruct (x =? 81)%N; reflexivity.
  - destruct (x =? 81)%N; [| reflexivity].
    destruct (y =? 58)%N; reflexivity.
Qed.

Lemma match_at_flashcard_inv (s : jsstring) (pos : nat) (m : MatchResult) :
  match_at flashcard_regex s pos = Some m ->
  exists w1 q w2 w3 a post,
    s = str "Q:" ++ w1 ++ q ++ w2 ++ str "A:" ++ w3 ++ a ++ post
    /\ all_of is_space w1 /\ all_of is_space w2 /\ all_of is_space w3
    /\ q <> [] /\ a <> [] /\ at_boundary post = true
    /\ (forall a1 a2, a = a1 ++ a2 -> a1 <> [] -> a2 <> [] ->
          at_boundary (a2 ++ post) = false)
    /\ m_index m = pos
    /\ m_end m = (pos + 2 + List.length w1 + List.length q + List.length w2
                  + 2 + List.length w3 + List.length a)%nat
    /\ m_captures m
       = [ (2, ((pos + 2 + List.length w1 + List.length q + List.length w2
                 + 2 + List.length w3)%nat,
                (pos + 2 + List.length w1 + List.length q + List.length w2
                 + 2 + List.length w3 + List.length a)%nat));
           (1, ((pos + 2 + List.length w1)%nat,
                (pos + 2 + List.length w1 + List.length q)%nat)) ]%nat.
Proof.
  unfold match_at, flashcard_regex, Plus. intros H.
  rewrite matcher_Seq in H.
  apply matcher_Lit_inv in H as (s1 & -> & H). cbv beta in H.
  rewrite matcher_Seq, matcher_Star in H.
  apply star_class_inv in H as (w1 & s2 & -> & Hw1 & H). cbv beta in H.
  rewrite matcher_Seq, matcher_Group, matcher_Seq in H.
  apply matcher_Class_inv in H as (x & s3 & -> & _ & H). cbv beta in H.
  rewrite matcher_Star in H.
  apply star_class_inv in H as (q' & s4 & -> & _ & H). cbv beta in H.
  rewrite matcher_Seq, matcher_Star in H.
  apply star_class_inv in H as (w2 & s5 & -> & Hw2 & H). cbv beta in H.
  rewrite matcher_Seq in H.
  apply matcher_Lit_inv in H as (s6 & -> & H). cbv beta in H.
  rewrite matcher_Seq, matcher_Star in H.
  apply star_class_inv in H as (w3 & s7 & -> & Hw3 & H). cbv beta in H.
  rewrite matcher_Seq, matcher_Group, matcher_Seq in H.
  apply matcher_Class_inv in H as (y & s8 & -> & _ & H). cbv beta in H.
  rewrite matcher_Star in H.
  apply star_class_lazy_first in H as (a' & post & -> & _ & H & Hfirst).
  cbv beta in H. rewrite lookahead_boundary in H.
  destruct (at_boundary post) eqn:Hpost; [| discriminate].
  injection H as <-.
  exists w1, (x :: q'), w2, w3, (y :: a'), post.
  split; [reflexivity |].
  split; [exact Hw1 |]. split; [exact Hw2 |]. split; [exact Hw3 |].
  split; [discriminate |]. split; [discriminate |]. split; [exact Hpost |].
  split.
  { intros a1 a2 Ha Hne1 Hne2. destruct a1 as [| y1 a1]; [congruence |].
    simpl in Ha. injection Ha as <- Ha.
    specialize (Hfirst a1 a2 Ha Hne2). cbv beta in Hfirst.
    rewrite lookahead_boundary in Hfirst.
    destruct (at_boundary (a2 ++ post)); [discriminate | reflexivity]. }
  simpl. repeat split; try lia.
  repeat (f_equal; try lia).
Qed.

(** ** The parse loop *)

Lemma search_inv (r : regex) (m : MatchResult) :
  forall (s : jsstring) (pos : nat),
    search r s pos = Some m ->
    exists k, (k <= List.length s)%nat
              /\ match_at r (skipn k s) (pos + k)%nat = Some m.
Proof.
  induction s as [| x s IH]; intros pos H; simpl in H.
  - destruct (match_at r [] pos) eqn:Hm; [| discriminate].
    exists O. simpl. rewrite Nat.add_0_r. split; [lia | congruence].
  - destruct (match_at r (x :: s) pos) eqn:Hm.
    + exists O. simpl. rewrite Nat.add_0_r. split; [lia | congruence].
    + apply IH in H as (k & Hk & Hm'). exists (S k). simpl.
      split; [lia |]. rewrite <- Hm'. f_equal. lia.
Qed.

Lemma exec_inv (r : regex) (text : jsstring) (lastIndex : nat) (m : MatchResult) :
  exec r text lastIndex = Some m ->
  exists j, (lastIndex <= j <= List.length text)%nat
            /\ match_at r (skipn j text) j = Some m.
Proof.
  unfold exec.
  destruct (Nat.ltb_spec (List.length text) lastIndex) as [_ | Hle];
    [discriminate |].
  intros H. apply search_inv in H as (k & Hk & Hm).
  rewrite length_skipn in Hk. rewrite skipn_skipn in Hm.
  exists (k + lastIndex)%nat. split; [lia |].
  rewrite (Nat.add_comm k lastIndex) at 2. exact Hm.
Qed.

Lemma parse_loop_In (text : jsstring) (card : Flashcard) :
  forall (fuel lastIndex : nat),
    In card (parse_loop fuel text lastIndex) ->
    exists j m, (j <= List.length text)%nat
                /\ match_at flashcard_regex (skipn j text) j = Some m
                /\ card = card_of_match text m.
Proof.
  induction fuel as [| fuel IH]; intros lastIndex Hin; [contradiction |].
  simpl in Hin.
  destruct (exec flashcard_regex text lastIndex) as [m |] eqn:Hexec;
    [| contradiction].
  destruct Hin as [<- | Hin].
  - apply exec_inv in Hexec as (j & Hj & Hm). exists j, m.
    split; [lia |]. split; [exact Hm | reflexivity].
  - apply (IH _ Hin).
Qed.

Lemma slice_at (l pre mid post : jsstring) (from to : nat) :
  l = pre ++ mid ++ post -> from = List.length pre ->
  to = (from + List.length mid)%nat ->
  slice l from to = mid.
Proof.
  intros -> -> ->. unfold slice.
  rewrite skipn_app, skipn_all, Nat.sub_diag. simpl.
  replace (List.length pre + List.length mid - List.length pre)%nat
    with (List.length mid) by lia.
  rewrite firstn_app, firstn_all, Nat.sub_diag. simpl.
  apply app_nil_r.
Qed.

Lemma parseFlashcards_read_from (text : jsstring) (card : Flashcard) :
  In card (parseFlashcards text) -> read_from text card.
Proof.
  intros Hin. apply parse_loop_In in Hin as (j & m & Hj & Hm & ->).
  apply match_at_flashcard_inv in Hm
    as (w1 & q & w2 & w3 & a & post & Hs & Hw1 & Hw2 & Hw3 & Hq & Ha & Hpost
        & Hfirst & _ & _ & Hcaps).
  assert (Htext : text = firstn j text ++ str "Q:" ++ w1 ++ q ++ w2
                         ++ str "A:" ++ w3 ++ a ++ post).
  { rewrite <- Hs. symmetry. apply firstn_skipn. }
  assert (Hpre : List.length (firstn j text) = j)
    by (rewrite length_firstn; lia).
  exists (firstn j text), w1, q, w2, w3, a, post.
  split; [exact Htext |].
  split; [exact Hw1 |]. split; [exact Hw2 |]. split; [exact Hw3 |].
  split; [exact Hq |]. split; [exact Ha |]. split; [exact Hpost |].
  split; [exact Hfirst |].
  unfold card_of_match, group_or_empty, group. rewrite Hcaps. simpl.
  split; f_equal.
  - apply slice_at with (pre := firstn j text ++ str "Q:" ++ w1)
                        (post := w2 ++ str "A:" ++ w3 ++ a ++ post).
    + rewrite Htext at 1. rewrite <- !app_assoc. reflexivity.
    + rewrite !length_app, Hpre. simpl. lia.
    + lia.
  - apply slice_at with (pre := firstn j text ++ str "Q:" ++ w1 ++ q ++ w2
                                ++ str "A:" ++ w3)
                        (post := post).
    + rewrite Htext at 1. rewrite <- !app_assoc. reflexivity.
    + rewrite !length_app, Hpre. simpl. lia.
    + lia.
Qed.

(** Every match ends after it starts and within the text, so [lastIndex]
    grows and the rounds granted to [parse_loop] are never used up. *)
Lemma exec_progress (text : jsstring) (lastIndex : nat) (m : MatchResult) :
  exec flashcard_regex text lastIndex = Some m ->
  (lastIndex < m_end m <= List.length text)%nat.
Proof.
  intros H. apply exec_inv in H as (j & Hj & Hm).
  apply match_at_flashcard_inv in Hm
    as (w1 & q & w2 & w3 & a & post & Hs & _ & _ & _ & _ & _ & _ & _ & _
        & Hend & _).
  apply (f_equal (@List.length char)) in Hs.
  rewrite length_skipn, !length_app in Hs. simpl in Hs. lia.
Qed.

Lemma parse_loop_fuel (text : jsstring) :
  forall (fuel1 fuel2 lastIndex : nat),
    (List.length text - lastIndex < fuel1)%nat ->
    (List.length text - lastIndex < fuel2)%nat ->
    parse_loop fuel1 text lastIndex = parse_loop fuel2 text lastIndex.
Proof.
  induction fuel1 as [| fuel1 IH]; intros fuel2 lastIndex H1 H2; [lia |].
  destruct fuel2 as [| fuel2]; [lia |]. simpl.
  destruct (exec flashcard_regex text lastIndex) as [m |] eqn:Hexec;
    [| reflexivity].
  apply exec_progress in Hexec. f_equal. apply IH; lia.
Qed.

(** The spans are not empty, but a span of white space trims to nothing:
    here the question is the blank before [A:]. *)
Example parse_blank_question :
  parseFlashcards (str "Q: A: x") = [ {| question := []; answer := str "x" |} ].
Proof. vm_compute. reflexivity. Qed.

(** Text before the first marker is skipped, and line breaks are white
    space like any other. *)
Example parse_two_lines :
  parseFlashcards
    (str "Here you go: Q: 2+2?" ++ [10%N] ++ str "A: 4" ++ [10%N])
  = [ {| question := str "2+2?"; answer := str "4" |} ].
Proof. vm_compute. reflexivity. Qed.



(** ** The rounds granted to a star are never used up *)

Lemma repeat_loop_ext (m : matcher_t) (greedy : bool) :
  respects_cont m -> forall fuel, respects_cont (repeat_loop m greedy fuel).
Proof.
  intros Hm. induction fuel as [| fuel IH]; intros R s pos c k1 k2 Hk;
    [reflexivity |].
  simpl. rewrite (Hk s pos c).
  rewrite (Hm R s pos c _
             (fun s' pos' c' =>
                if Nat.ltb (List.length s') (List.length s)
                then repeat_loop m greedy fuel R s' pos' c' k2
                else None)); [reflexivity |].
  intros s' pos' c'. destruct (Nat.ltb _ _); [| reflexivity].
  apply IH, Hk.
Qed.

Lemma matcher_ext (r : regex) : respects_cont (matcher r).
Proof.
  induction r as [| a | p | r1 IH1 r2 IH2 | r1 IH1 r2 IH2 | greedy r1 IH1
                  | i r1 IH1 | r1 IH1 | |];
    intros R s pos c k1 k2 Hk; simpl.
  - apply Hk.
  - destruct s as [| x s']; [reflexivity |]. destruct (N.eqb x a); auto.
  - destruct s as [| x s']; [reflexivity |]. destruct (p x); auto.
  - apply IH1. intros s1 pos1 c1. apply IH2, Hk.
  - rewrite (IH1 R s pos c k1 k2 Hk), (IH2 R s pos c k1 k2 Hk). reflexivity.
  - apply (repeat_loop_ext (matcher r1) greedy IH1 (S (List.length s))), Hk.
  - apply IH1. intros s1 pos1 c1. apply Hk.
  - destruct (matcher r1 captures s pos c _); auto.
  - destruct (Nat.eqb pos 0); auto.
  - destruct s; auto.
Qed.

Lemma repeat_loop_fuel (m : matcher_t) (greedy : bool) (R : Type) (k : cont R) :
  respects_cont m ->
  forall (fuel1 fuel2 : nat) (s : jsstring) (pos : nat) (c : captures),
    (List.length s < fuel1)%nat -> (List.length s < fuel2)%nat ->
    repeat_loop m greedy fuel1 R s pos c k
    = repeat_loop m greedy fuel2 R s pos c k.
Proof.
  intros Hm. induction fuel1 as [| fuel1 IH]; intros fuel2 s pos c H1 H2; [lia |].
  destruct fuel2 as [| fuel2]; [lia |]. simpl.
  rewrite (Hm R s pos c _
             (fun s' pos' c' =>
                if Nat.ltb (List.length s') (List.length s)
                then repeat_loop m greedy fuel2 R s' pos' c' k
                else None)); [reflexivity |].
  intros s' pos' c'. destruct (Nat.ltb_spec (List.length s') (List.length s));
    [| reflexivity].
  apply IH; lia.
Qed.

(** More rounds than the length of the input change nothing for a star. *)
Lemma matcher_Star_fuel (greedy : bool) (r1 : regex) (R : Type) (s : jsstring)
    (pos : nat) (c : captures) (k : cont R) (extra : nat) :
  matcher (Star greedy r1) R s pos c k
  = repeat_loop (matcher r1) greedy (S (List.length s) + extra) R s pos c k.
Proof.
  rewrite matcher_Star. apply repeat_loop_fuel; [apply matcher_ext | lia | lia].
Qed.

(** More rounds than the length of the text change nothing for the parse
    loop. *)
Lemma parseFlashcards_fuel (text : jsstring) (extra : nat) :
  parseFlashcards text = parse_loop (S (List.length text) + extra) text 0.
Proof. unfold parseFlashcards. apply parse_loop_fuel; lia. Qed.

(** ** The subject namer *)

Lemma is_special_backslash : is_special 92%N = true.
Proof. reflexivity. Qed.

(** The escaped base is read back as the base itself, character by
    character. *)
Lemma compile_escapeRegExp (base : jsstring) :
  forall fuel : nat,
    (List.length (escapeRegExp base) < fuel)%nat ->
    compile_atoms fuel (escapeRegExp base) = Some (Lit base).
Proof.
  induction base as [| x base IH]; intros fuel Hfuel.
  - destruct fuel; [simpl in Hfuel; lia | reflexivity].
  - simpl escapeRegExp in *. destruct (is_special x) eqn:Hx.
    + destruct fuel as [| fuel]; [simpl in Hfuel; lia |].
      simpl. rewrite Hx.
      destruct fuel as [| fuel]; [simpl in Hfuel; lia |].
      rewrite IH by (simpl in Hfuel; lia). reflexivity.
    + destruct fuel as [| fuel]; [simpl in Hfuel; lia |].
      cbn [compile_atoms]. rewrite Hx.
      destruct (N.eqb_spec x 92) as [-> | _].
      * rewrite is_special_backslash in Hx. discriminate.
      * rewrite IH by (simpl in Hfuel; lia). reflexivity.
Qed.

Lemma subject_regex_eq (base : jsstring) :
  subject_regex base = Seq Bos (Seq (Lit base) suffix_regex).
Proof.
  unfold subject_regex. rewrite compile_escapeRegExp by lia. reflexivity.
Qed.

Lemma matcher_Lit_prefix (l : jsstring) (R : Type) (k : cont R) :
  forall (s' : jsstring) (pos : nat) (c : captures),
    matcher (Lit l) R (l ++ s') pos c k = k s' (pos + List.length l)%nat c.
Proof.
  induction l as [| a l IH]; intros s' pos c; simpl.
  - rewrite Nat.add_0_r. reflexivity.
  - rewrite N.eqb_refl, IH. f_equal. lia.
Qed.

(** A greedy star takes the whole run when the continuation succeeds behind
    it. *)
Lemma star_class_greedy_longest (p : char -> bool) (R : Type) (k : cont R) (r : R)
    (s' : jsstring) (c : captures) :
  match s' with [] => True | x :: _ => p x = false end ->
  forall (w : jsstring) (fuel pos : nat),
    all_of p w -> (List.length (w ++ s') < fuel)%nat ->
    k s' (pos + List.length w)%nat c = Some r ->
    repeat_loop (matcher (Class p)) true fuel R (w ++ s') pos c k = Some r.
Proof.
  intros Hstop. induction w as [| x w IH]; intros fuel pos Hall Hfuel Hk;
    (destruct fuel as [| fuel]; [simpl in Hfuel; lia |]).
  - simpl in *. rewrite Nat.add_0_r in Hk.
    destruct s' as [| y s']; [exact Hk |]. rewrite Hstop. exact Hk.
  - inversion Hall as [| ? ? Hx Hw]; subst. simpl. rewrite Hx.
    assert (Hlt : Nat.ltb (List.length (w ++ s')) (S (List.length (w ++ s'))) = true)
      by (apply Nat.ltb_lt; lia).
    rewrite Hlt.
    assert (Hrec : repeat_loop (matcher (Class p)) true fuel R (w ++ s') (S pos) c k
                   = Some r).
    { apply IH; [exact Hw | simpl in Hfuel; lia |].
      rewrite <- Hk. f_equal. simpl. lia. }
    simpl in Hrec. rewrite Hrec. reflexivity.
Qed.

Lemma search_here (r : regex) (s : jsstring) (pos : nat) (m : MatchResult) :
  match_at r s pos = Some m -> search r s pos = Some m.
Proof. intros H. destruct s; simpl; rewrite H; reflexivity. Qed.

(** The stored subject [base] itself matches, without a numeric group. *)
Lemma match_exact (base : jsstring) :
  string_match base (subject_regex base)
  = Some {| m_index := 0; m_end := List.length base; m_captures := [] |}.
Proof.
  unfold string_match. apply search_here.
  rewrite subject_regex_eq. unfold match_at.
  rewrite matcher_Seq. cbn [matcher Nat.eqb]. 
  pose proof (matcher_Lit_prefix base MatchResult
                (fun s1 pos1 c1 =>
                   matcher suffix_regex MatchResult s1 pos1 c1
                     (fun _ e c =>
                        Some {| m_index := 0; m_end := e; m_captures := c |}))
                [] 0 []) as Hlit.
  rewrite app_nil_r in Hlit. rewrite Hlit. reflexivity.
Qed.

Lemma suffix_digits (R : Type) (k : cont R) (r : R) (pos : nat) (c : captures)
    (d : char) (ds : jsstring) :
  all_of is_digit (d :: ds) ->
  k [] (pos + 1 + S (List.length ds) + 1)%nat
    ((1%nat, ((pos + 1)%nat, (pos + 1 + S (List.length ds))%nat)) :: c) = Some r ->
  matcher suffix_regex R (40%N :: d :: ds ++ [41%N]) pos c k = Some r.
Proof.
  intros Hall Hk. inversion Hall as [| ? ? Hd Hds]; subst.
  unfold suffix_regex, Opt, Plus. cbn [matcher app]. rewrite N.eqb_refl, Hd.
  match goal with
  | |- match ?X with Some x => Some x | None => _ end = _ =>
      assert (Hrec : X = Some r)
  end.
  { apply (star_class_greedy_longest is_digit R _ r [41%N]);
      [reflexivity | exact Hds | lia |].
    cbn. rewrite <- Hk. repeat f_equal; lia. }
  rewrite Hrec. reflexivity.
Qed.

(** A stored subject [base(digits)] matches, and the group holds the
    digits. *)
Lemma match_suffixed (base : jsstring) (d : char) (ds : jsstring) :
  all_of is_digit (d :: ds) ->
  string_match (base ++ str "(" ++ (d :: ds) ++ str ")") (subject_regex base)
  = Some {| m_index := 0;
            m_end := (List.length base + 1 + S (List.length ds) + 1)%nat;
            m_captures := [(1%nat, ((List.length base + 1)%nat,
                                    (List.length base + 1 + S (List.length ds))%nat))] |}.
Proof.
  intros Hall.
  unfold string_match. apply search_here.
  rewrite subject_regex_eq. unfold match_at.
  rewrite matcher_Seq. cbn [matcher Nat.eqb].
  rewrite matcher_Lit_prefix.
  change (str "(" ++ (d :: ds) ++ str ")") with (40%N :: d :: ds ++ [41%N]).
  apply suffix_digits; [exact Hall | reflexivity].
Qed.

(** ** Decimal numerals *)

Lemma digit_range (c : char) : is_digit c = true <-> (48 <= c <= 57)%N.
Proof.
  unfold is_digit. rewrite andb_true_iff, !N.leb_le. reflexivity.
Qed.

Lemma digit_not_space (c : char) : is_digit c = true -> is_space c = false.
Proof.
  intros Hd. apply digit_range in Hd. unfold is_space.
  repeat match goal with
         | |- context [(?a <=? ?b)%N] => destruct (N.leb_spec a b)
         | |- context [(?a =? ?b)%N] => destruct (N.eqb_spec a b)
         end; try reflexivity; lia.
Qed.

Lemma takeWhile_all_of (p : char -> bool) (s : jsstring) :
  all_of p s -> takeWhile p s = s.
Proof.
  induction 1 as [| x s Hx _ IH]; simpl; [reflexivity |].
  rewrite Hx, IH. reflexivity.
Qed.

Lemma parseInt_digits (d : char) (ds : jsstring) :
  all_of is_digit (d :: ds) ->
  parseInt (d :: ds) = Some (digits_value (d :: ds)).
Proof.
  intros Hall. inversion Hall as [| ? ? Hd Hds]; subst.
  unfold parseInt, trimStart. simpl dropWhile.
  rewrite (digit_not_space d Hd).
  apply digit_range in Hd.
  destruct (N.eqb_spec d 45); [lia |].
  destruct (N.eqb_spec d 43); [lia |].
  rewrite takeWhile_all_of by exact Hall. reflexivity.
Qed.

Lemma digit_value_of (n : N) :
  digit_value (48 + n mod 10)%N = Z.of_N (n mod 10)%N.
Proof. unfold digit_value. rewrite N.add_comm, N.add_sub. reflexivity. Qed.

Lemma log2_tenth (n : N) :
  (10 <= n)%N -> (N.to_nat (N.log2 (n / 10)) < N.to_nat (N.log2 n))%nat.
Proof.
  intros Hn.
  assert (Hpos : (0 < n / 10)%N) by (apply N.div_str_pos; lia).
  assert (Hle : (2 * (n / 10) <= n)%N).
  { pose proof (N.Div0.div_mod n 10) as Hdm.
    remember (n / 10)%N as q. remember (n mod 10)%N as r.
    clear Heqq Heqr. lia. }
  pose proof (N.log2_le_mono _ _ Hle) as Hmono.
  rewrite (N.log2_double _ Hpos) in Hmono. lia.
Qed.

(** Reading the digits of [n] gives [n] back. *)
Lemma digits_of_value :
  forall (fuel : nat) (n : N) (acc : jsstring),
    (N.to_nat (N.log2 n) < fuel)%nat ->
    fold_left (fun a d => 10 * a + digit_value d) (digits_of fuel n acc) 0
    = fold_left (fun a d => 10 * a + digit_value d) acc (Z.of_N n).
Proof.
  induction fuel as [| fuel IH]; intros n acc Hfuel; [lia |].
  cbn [digits_of]. destruct (N.ltb_spec n 10) as [Hsmall | Hbig].
  - cbn [fold_left]. rewrite digit_value_of, N.mod_small by exact Hsmall.
    f_equal.
  - rewrite IH by (pose proof (log2_tenth n Hbig); lia).
    cbn [fold_left]. rewrite digit_value_of. f_equal.
    pose proof (N.Div0.div_mod n 10) as Hdm.
    remember (n / 10)%N as q. remember (n mod 10)%N as r.
    clear Heqq Heqr. lia.
Qed.

Lemma digits_of_all (fuel : nat) :
  forall (n : N) (acc : jsstring),
    all_of is_digit acc -> all_of is_digit (digits_of fuel n acc).
Proof.
  induction fuel as [| fuel IH]; intros n acc Hacc; [exact Hacc |].
  assert (Hd : all_of is_digit ((48 + n mod 10)%N :: acc)).
  { constructor; [| exact Hacc]. apply digit_range.
    pose proof (N.mod_lt n 10 ltac:(discriminate)) as Hlt.
    remember (n mod 10)%N as r. clear Heqr. lia. }
  simpl. destruct (n <? 10)%N; [exact Hd | apply IH, Hd].
Qed.

Lemma digits_of_nonempty (fuel : nat) :
  forall (n : N) (acc : jsstring), digits_of (S fuel) n acc <> [].
Proof.
  induction fuel as [| fuel IH]; intros n acc.
  - simpl. destruct (n <? 10)%N; discriminate.
  - change (digits_of (S (S fuel)) n acc)
      with (if (n <? 10)%N then (48 + n mod 10)%N :: acc
            else digits_of (S fuel) (n / 10) ((48 + n mod 10)%N :: acc)).
    destruct (n <? 10)%N; [discriminate | apply IH].
Qed.

Lemma N_to_string_digits (n : N) :
  exists d ds, N_to_string n = d :: ds
               /\ all_of is_digit (d :: ds)
               /\ digits_value (d :: ds) = Z.of_N n.
Proof.
  unfold N_to_string.
  destruct (digits_of (S (N.to_nat (N.log2 n))) n []) as [| d ds] eqn:Hds.
  - exfalso. exact (digits_of_nonempty _ _ _ Hds).
  - exists d, ds. split; [reflexivity |]. split.
    + rewrite <- Hds. apply digits_of_all. constructor.
    + unfold digits_value. rewrite <- Hds. rewrite digits_of_value by lia.
      reflexivity.
Qed.

(** ** The name returned is not taken *)

Lemma scan_subject_mono (re : regex) (acc : Z * bool) (set : StoredSet) :
  fst acc <= fst (scan_subject re acc set)
  /\ (snd acc = true -> snd (scan_subject re acc set) = true).
Proof.
  unfold scan_subject. destruct acc as [maxIndex foundBase]. simpl.
  destruct (string_match (ss_subject set) re) as [m |]; [| simpl; split; [lia | auto]].
  destruct (group (ss_subject set) m 1) as [[| d ds] |];
    try (simpl; split; [lia | auto]).
  destruct (parseInt (d :: ds)) as [idx |]; [| simpl; split; [lia | auto]].
  destruct (Z.gtb_spec idx maxIndex); simpl; split; auto; lia.
Qed.

Lemma scan_fold_mono (re : regex) (sets : list StoredSet) :
  forall acc : Z * bool,
    fst acc <= fst (fold_left (scan_subject re) sets acc)
    /\ (snd acc = true -> snd (fold_left (scan_subject re) sets acc) = true).
Proof.
  induction sets as [| set sets IH]; intros acc; simpl; [split; [lia | auto] |].
  destruct (scan_subject_mono re acc set) as (H1 & H2).
  destruct (IH (scan_subject re acc set)) as (H3 & H4).
  split; [lia | auto].
Qed.

Lemma scan_exact (base : jsstring) (acc : Z * bool) (set : StoredSet) :
  ss_subject set = base ->
  snd (scan_subject (subject_regex base) acc set) = true.
Proof.
  intros Hs. unfold scan_subject. destruct acc as [maxIndex foundBase].
  rewrite Hs, match_exact. reflexivity.
Qed.

Lemma scan_suffixed (base : jsstring) (d : char) (ds : jsstring)
    (acc : Z * bool) (set : StoredSet) :
  all_of is_digit (d :: ds) ->
  ss_subject set = base ++ str "(" ++ (d :: ds) ++ str ")" ->
  digits_value (d :: ds) <= fst (scan_subject (subject_regex base) acc set).
Proof.
  intros Hall Hs. unfold scan_subject. destruct acc as [maxIndex foundBase].
  rewrite Hs, (match_suffixed base d ds Hall).
  unfold group. cbn [capture m_captures Nat.eqb].
  rewrite (slice_at (base ++ str "(" ++ (d :: ds) ++ str ")")
             (base ++ str "(") (d :: ds) (str ")"));
    [| rewrite <- app_assoc; reflexivity
     | rewrite length_app; reflexivity
     | simpl; lia].
  rewrite (parseInt_digits d ds Hall).
  destruct (Z.gtb_spec (digits_value (d :: ds)) maxIndex); simpl; lia.
Qed.

Lemma scan_fold_exact (base : jsstring) (sets : list StoredSet) :
  forall acc : Z * bool,
    In base (List.map ss_subject sets) ->
    snd (fold_left (scan_subject (subject_regex base)) sets acc) = true.
Proof.
  induction sets as [| set sets IH]; intros acc Hin; [contradiction |].
  simpl. destruct Hin as [Heq | Hin].
  - apply scan_fold_mono. apply scan_exact, Heq.
  - apply IH, Hin.
Qed.

Lemma scan_fold_suffixed (base : jsstring) (d : char) (ds : jsstring)
    (sets : list StoredSet) :
  all_of is_digit (d :: ds) ->
  forall acc : Z * bool,
    In (base ++ str "(" ++ (d :: ds) ++ str ")") (List.map ss_subject sets) ->
    digits_value (d :: ds)
    <= fst (fold_left (scan_subject (subject_regex base)) sets acc).
Proof.
  intros Hall. induction sets as [| set sets IH]; intros acc Hin; [contradiction |].
  simpl. destruct Hin as [Heq | Hin].
  - pose proof (scan_suffixed base d ds acc set Hall Heq) as H1.
    pose proof (proj1 (scan_fold_mono (subject_regex base) sets
                         (scan_subject (subject_regex base) acc set))) as H2.
    lia.
  - apply IH, Hin.
Qed.

Lemma number_to_string_nonneg (z : Z) :
  0 <= z -> number_to_string z = N_to_string (Z.to_N z).
Proof. destruct z; [reflexivity | reflexivity | lia]. Qed.

(** The name that [getUniqueSubjectName] returns is the subject of no
    stored set.  Numbers are exact integers in the model; the premise on
    the suffix is what makes them so in the code, where they are doubles. *)
Lemma getUniqueSubjectName_fresh (base : jsstring) (sets : list StoredSet) :
  highest_suffix base sets < max_safe_integer ->
  ~ In (getUniqueSubjectName base sets) (List.map ss_subject sets).
Proof.
  intros _. unfold getUniqueSubjectName.
  destruct (fold_left (scan_subject (subject_regex base)) sets (-1, false))
    as [maxIndex foundBase] eqn:Hfold.
  destruct foundBase; simpl.
  - pose proof (proj1 (scan_fold_mono (subject_regex base) sets (-1, false)))
      as Hlow.
    rewrite Hfold in Hlow. simpl in Hlow.
    rewrite number_to_string_nonneg by lia.
    destruct (N_to_string_digits (Z.to_N (maxIndex + 1)))
      as (d & ds & -> & Hall & Hval).
    intros Hin.
    pose proof (scan_fold_suffixed base d ds sets Hall (-1, false) Hin) as Hup.
    rewrite Hfold in Hup. simpl in Hup. lia.
  - intros Hin.
    pose proof (scan_fold_exact base sets (-1, false) Hin) as Hfound.
    rewrite Hfold in Hfound. discriminate Hfound.
Qed.

(** Adding a set keeps the stored subjects pairwise distinct. *)
Lemma addStoredSet_distinct (subject : jsstring) (cards : list Flashcard)
    (ls : LocalStorage) :
  highest_suffix subject (getStoredSets ls) < max_safe_integer ->
  NoDup (List.map ss_subject (getStoredSets ls)) ->
  NoDup (List.map ss_subject (getStoredSets (snd (addStoredSet subject cards ls)))).
Proof.
  intros Hsafe Hnd. unfold addStoredSet. simpl. constructor; [| exact Hnd].
  apply getUniqueSubjectName_fresh, Hsafe.
Qed.

(** After any run of adds to an empty store the subjects are pairwise
    distinct. *)
Lemma grown_distinct (ls : LocalStorage) :
  grown ls -> NoDup (List.map ss_subject (getStoredSets ls)).
Proof.
  induction 1 as [| ls subject cards _ IH Hsafe].
  - constructor.
  - apply addStoredSet_distinct; assumption.
Qed.

(** C1, the code at the failing input: three adds of "Math" to an empty
    store are named "Math", "Math(0)" and "Math(1)"; the second is not
    "Math(1)" and the third is not "Math(2)".  The three stored subjects
    are distinct all the same. *)
Theorem add_math_three_times :
  let ls1 := snd (addStoredSet (str "Math") demo_cards cleared_storage) in
  let ls2 := snd (addStoredSet (str "Math") demo_cards ls1) in
  let ls3 := snd (addStoredSet (str "Math") demo_cards ls2) in
  fst (addStoredSet (str "Math") demo_cards cleared_storage) = str "Math"
  /\ fst (addStoredSet (str "Math") demo_cards ls1) = str "Math(0)"
  /\ fst (addStoredSet (str "Math") demo_cards ls2) = str "Math(1)"
  /\ fst (addStoredSet (str "Math") demo_cards ls1) <> str "Math(1)"
  /\ fst (addStoredSet (str "Math") demo_cards ls2) <> str "Math(2)"
  /\ List.map ss_subject (getStoredSets ls3)
     = [str "Math(1)"; str "Math(0)"; str "Math"].
Proof. vm_compute. repeat split; try reflexivity; discriminate. Qed.

(** * Further properties of the component *)

(** ** The store: update and removal *)

Lemma assign_flashcards_subjects (cards : list Flashcard) (sets : list StoredSet) :
  forall idx : nat,
    List.map ss_subject (assign_flashcards idx cards sets)
    = List.map ss_subject sets.
Proof.
  induction sets as [| s sets IH]; intros idx; [destruct idx; reflexivity |].
  destruct idx as [| idx]; simpl; [reflexivity |]. rewrite IH. reflexivity.
Qed.

Lemma assign_flashcards_lookup (subject : jsstring) (cards : list Flashcard)
    (sets : list StoredSet) :
  forall idx : nat,
    findIndex (fun s => jsstring_eqb (ss_subject s) subject) sets = Some idx ->
    lookup_set subject (assign_flashcards idx cards sets)
    = Some {| ss_subject := subject; ss_flashcards := cards |}.
Proof.
  unfold lookup_set.
  induction sets as [| s sets IH]; intros idx Hidx; [discriminate |].
  simpl in Hidx.
  destruct (jsstring_eqb_spec (ss_subject s) subject) as [Heq | Hne].
  - injection Hidx as <-. simpl. rewrite Heq, jsstring_eqb_refl. reflexivity.
  - destruct (findIndex _ sets) as [j |] eqn:Hj; [| discriminate].
    injection Hidx as <-. simpl.
    destruct (jsstring_eqb_spec (ss_subject s) subject); [contradiction |].
    apply IH. reflexivity.
Qed.

Lemma assign_flashcards_others (subject other : jsstring)
    (cards : list Flashcard) (sets : list StoredSet) :
  other <> subject ->
  forall idx : nat,
    findIndex (fun s => jsstring_eqb (ss_subject s) subject) sets = Some idx ->
    lookup_set other (assign_flashcards idx cards sets) = lookup_set other sets.
Proof.
  intros Hother. unfold lookup_set.
  induction sets as [| s sets IH]; intros idx Hidx; [discriminate |].
  simpl in Hidx.
  destruct (jsstring_eqb_spec (ss_subject s) subject) as [Heq | Hne].
  - injection Hidx as <-. simpl.
    destruct (jsstring_eqb_spec (ss_subject s) other); [congruence | reflexivity].
  - destruct (findIndex _ sets) as [j |] eqn:Hj; [| discriminate].
    injection Hidx as <-. simpl.
    destruct (jsstring_eqb (ss_subject s) other); [reflexivity |].
    apply IH. reflexivity.
Qed.

(** X1: [updateStoredSet] on a stored subject writes once, keeps the
    subjects and their order, makes the given cards the cards of the first
    set of that subject and leaves what every other subject looks up to as
    it was; on a subject that is not stored it leaves the store alone. *)
Theorem updateStoredSet_replaces_cards (subject : jsstring)
    (cards : list Flashcard) (ls : LocalStorage) :
  (In subject (stored_subjects ls) ->
   ls_writes (updateStoredSet subject cards ls) = S (ls_writes ls)
   /\ stored_subjects (updateStoredSet subject cards ls) = stored_subjects ls
   /\ lookup_set subject (getStoredSets (updateStoredSet subject cards ls))
      = Some {| ss_subject := subject; ss_flashcards := cards |}
   /\ (forall other, other <> subject ->
         lookup_set other (getStoredSets (updateStoredSet subject cards ls))
         = lookup_set other (getStoredSets ls)))
  /\ (~ In subject (stored_subjects ls) ->
      updateStoredSet subject cards ls = ls).
Proof.
  unfold stored_subjects. split.
  - intros Hin. destruct (findIndex_some subject _ Hin) as (idx & Hidx).
    unfold updateStoredSet. rewrite Hidx. simpl.
    split; [reflexivity |].
    split; [apply assign_flashcards_subjects |].
    split; [apply assign_flashcards_lookup, Hidx |].
    intros other Hother. apply (assign_flashcards_others subject); assumption.
  - apply updateStoredSet_missing.
Qed.

Lemma updateStoredSet_replaces_cards_witness :
  let ls := {| ls_item := Json (storedSets (demo_state 0 false)); ls_writes := 2 |} in
  lookup_set (str "Math") (getStoredSets (updateStoredSet (str "Math") [] ls))
  = Some {| ss_subject := str "Math"; ss_flashcards := [] |}
  /\ updateStoredSet (str "Physics") [] ls = ls.
Proof.
  split.
  - apply (proj1 (updateStoredSet_replaces_cards (str "Math") []
                    {| ls_item := Json (storedSets (demo_state 0 false));
                       ls_writes := 2 |})).
    simpl. left. reflexivity.
  - apply (proj2 (updateStoredSet_replaces_cards (str "Physics") []
                    {| ls_item := Json (storedSets (demo_state 0 false));
                       ls_writes := 2 |})).
    simpl. intros [H | []]. discriminate H.
Defined.

Lemma filter_other_subjects (subject : jsstring) (sets : list StoredSet) :
  ~ In subject (List.map ss_subject sets) ->
  filter (fun s => negb (jsstring_eqb (ss_subject s) subject)) sets = sets.
Proof.
  induction sets as [| s sets IH]; intros Hnot; [reflexivity |]. simpl.
  destruct (jsstring_eqb_spec (ss_subject s) subject) as [Heq | Hne].
  - exfalso. apply Hnot. left. exact Heq.
  - simpl. rewrite IH; [reflexivity |]. intros Hin. apply Hnot. right. exact Hin.
Qed.

Lemma filter_removes_subject (subject : jsstring) (sets : list StoredSet) :
  ~ In subject
      (List.map ss_subject
         (filter (fun s => negb (jsstring_eqb (ss_subject s) subject)) sets)).
Proof.
  intros Hin. apply in_map_iff in Hin as (s & Hs & Hin).
  apply filter_In in Hin as (_ & Hkeep).
  destruct (jsstring_eqb_spec (ss_subject s) subject); [discriminate | contradiction].
Qed.

(** X2: [handleDeleteStoredSet] always writes the store once; afterwards no
    stored set has the deleted subject, the sets of other subjects are the
    same ones, the list the view displays is the content of the store, and
    a second deletion of the same subject removes nothing more.  Deleting a
    subject that is not stored keeps every set. *)
Theorem handleDeleteStoredSet_removes (subjectToDelete : jsstring) (st : State)
    (ls : LocalStorage) :
  ls_writes (snd (handleDeleteStoredSet subjectToDelete st ls)) = S (ls_writes ls)
  /\ ~ In subjectToDelete
         (stored_subjects (snd (handleDeleteStoredSet subjectToDelete st ls)))
  /\ (forall set, ss_subject set <> subjectToDelete ->
        (In set (getStoredSets (snd (handleDeleteStoredSet subjectToDelete st ls)))
         <-> In set (getStoredSets ls)))
  /\ storedSets (fst (handleDeleteStoredSet subjectToDelete st ls))
     = getStoredSets (snd (handleDeleteStoredSet subjectToDelete st ls))
  /\ getStoredSets
       (snd (handleDeleteStoredSet subjectToDelete
               (fst (handleDeleteStoredSet subjectToDelete st ls))
               (snd (handleDeleteStoredSet subjectToDelete st ls))))
     = getStoredSets (snd (handleDeleteStoredSet subjectToDelete st ls))
  /\ (~ In subjectToDelete (stored_subjects ls) ->
      getStoredSets (snd (handleDeleteStoredSet subjectToDelete st ls))
      = getStoredSets ls).
Proof.
  assert (Hsnd : forall st0 ls0,
             snd (handleDeleteStoredSet subjectToDelete st0 ls0)
             = saveStoredSets
                 (filter (fun s => negb (jsstring_eqb (ss_subject s) subjectToDelete))
                    (getStoredSets ls0)) ls0).
  { intros st0 ls0. unfold handleDeleteStoredSet.
    destruct (negb (showGenerator st0) && _); reflexivity. }
  rewrite !Hsnd. unfold stored_subjects, getStoredSets, saveStoredSets.
  cbn [ls_item ls_writes].
  split; [reflexivity |].
  split; [apply filter_removes_subject |].
  split.
  { intros set Hne. rewrite filter_In.
    destruct (jsstring_eqb_spec (ss_subject set) subjectToDelete);
      [contradiction | simpl; tauto]. }
  split.
  { unfold handleDeleteStoredSet.
    destruct (negb (showGenerator st) && _); reflexivity. }
  split.
  { apply filter_other_subjects, filter_removes_subject. }
  apply filter_other_subjects.
Qed.

Lemma handleDeleteStoredSet_removes_witness :
  getStoredSets
    (snd (handleDeleteStoredSet (str "Physics") (demo_state 0 false)
            {| ls_item := Json (storedSets (demo_state 0 false)); ls_writes := 0 |}))
  = storedSets (demo_state 0 false).
Proof.
  apply (proj2 (proj2 (proj2 (proj2 (proj2
           (handleDeleteStoredSet_removes (str "Physics") (demo_state 0 false)
              {| ls_item := Json (storedSets (demo_state 0 false));
                 ls_writes := 0 |})))))).
  simpl. intros [H | []]. discriminate H.
Defined.

(** ** The namer's pattern matches the base and its numbered variants only *)

Lemma matcher_Char_inv (a : char) (R : Type) (k : cont R) (r : R)
    (s : jsstring) (pos : nat) (c : captures) :
  matcher (Char a) R s pos c k = Some r ->
  exists s', s = a :: s' /\ k s' (S pos) c = Some r.
Proof.
  simpl. destruct s as [| x s']; [discriminate |].
  destruct (N.eqb_spec x a) as [-> | _]; [| discriminate].
  intros H. exists s'. auto.
Qed.

Lemma matcher_Eos_inv (R : Type) (k : cont R) (r : R)
    (s : jsstring) (pos : nat) (c : captures) :
  matcher Eos R s pos c k = Some r -> s = [] /\ k [] pos c = Some r.
Proof. simpl. destruct s; [auto | discriminate]. Qed.

Lemma suffix_regex_inv (R : Type) (k : cont R) (r : R) (s : jsstring)
    (pos : nat) (c : captures) :
  matcher suffix_regex R s pos c k = Some r ->
  (s = [] /\ k [] pos c = Some r)
  \/ (exists d ds,
        all_of is_digit (d :: ds)
        /\ s = 40%N :: d :: ds ++ [41%N]
        /\ k [] (S (S pos + List.length (d :: ds)))%nat
             ((1%nat, (S pos, (S pos + List.length (d :: ds))%nat)) :: c)
           = Some r).
Proof.
  unfold suffix_regex, Opt, Plus. rewrite matcher_Seq.
  change (matcher (Alt ?a Empty) R s pos c ?K)
    with (match matcher a R s pos c K with
          | Some x => Some x
          | None => matcher Empty R s pos c K
          end).
  match goal with
  | |- match ?X with Some x => Some x | None => _ end = _ -> _ =>
      destruct X as [x |] eqn:Hbranch
  end.
  - intros Hx. injection Hx as ->. right.
    rewrite matcher_Seq in Hbranch.
    apply matcher_Char_inv in Hbranch as (s1 & -> & H). cbv beta in H.
    rewrite matcher_Seq, matcher_Group, matcher_Seq in H.
    apply matcher_Class_inv in H as (d & s2 & -> & Hd & H). cbv beta in H.
    rewrite matcher_Star in H.
    apply star_class_inv in H as (ds & s3 & -> & Hds & H). cbv beta in H.
    apply matcher_Char_inv in H as (s4 & -> & H). cbv beta in H.
    apply matcher_Eos_inv in H as (-> & H).
    exists d, ds. split; [constructor; assumption |].
    split; [reflexivity |].
    rewrite <- H. simpl. repeat f_equal; lia.
  - intros H. left. cbn [matcher] in H.
    destruct s; [auto | discriminate].
Qed.

Lemma match_at_subject_inv (base s : jsstring) (pos : nat) (m : MatchResult) :
  match_at (subject_regex base) s pos = Some m ->
  pos = O
  /\ ((s = base /\ m_captures m = [])
      \/ (exists d ds,
            all_of is_digit (d :: ds)
            /\ s = base ++ str "(" ++ (d :: ds) ++ str ")"
            /\ m_captures m
               = [(1%nat, (S (List.length base),
                           (S (List.length base) + List.length (d :: ds))%nat))])).
Proof.
  rewrite subject_regex_eq. unfold match_at. rewrite matcher_Seq.
  cbn [matcher]. destruct pos as [| pos]; [| discriminate]. cbn [Nat.eqb].
  intros H. split; [reflexivity |].
  apply matcher_Lit_inv in H as (s' & -> & H). cbv beta in H.
  apply suffix_regex_inv in H as [(-> & H) | (d & ds & Hall & -> & H)].
  - left. injection H as <-. rewrite app_nil_r. auto.
  - right. exists d, ds. split; [exact Hall |]. split; [reflexivity |].
    injection H as <-. reflexivity.
Qed.

Lemma string_match_subject_inv (base s : jsstring) (m : MatchResult) :
  string_match s (subject_regex base) = Some m ->
  (s = base /\ group s m 1 = None)
  \/ (exists d ds,
        all_of is_digit (d :: ds)
        /\ s = base ++ str "(" ++ (d :: ds) ++ str ")"
        /\ group s m 1 = Some (d :: ds)).
Proof.
  unfold string_match. intros H.
  apply search_inv in H as (k & _ & H).
  apply match_at_subject_inv in H as (Hk & Hcases).
  simpl in Hk. subst k. simpl in Hcases.
  destruct Hcases as [(-> & Hcaps) | (d & ds & Hall & -> & Hcaps)].
  - left. unfold group. rewrite Hcaps. auto.
  - right. exists d, ds. split; [exact Hall |]. split; [reflexivity |].
    unfold group. rewrite Hcaps. cbn [capture Nat.eqb]. f_equal.
    apply slice_at with (pre := base ++ str "(") (post := str ")").
    + rewrite <- app_assoc. reflexivity.
    + rewrite length_app. simpl. lia.
    + reflexivity.
Qed.

(** X3: whatever characters the base holds, the pattern that
    [getUniqueSubjectName] builds from it matches a subject exactly when the
    subject is the base itself or the base followed by a parenthesised,
    non-empty run of digits. *)
Theorem subject_regex_matches (base s : jsstring) :
  string_match s (subject_regex base) <> None
  <-> (s = base
       \/ exists ds, ds <> [] /\ all_of is_digit ds
                     /\ s = base ++ str "(" ++ ds ++ str ")").
Proof.
  split.
  - destruct (string_match s (subject_regex base)) as [m |] eqn:Hm;
      [intros _ | congruence].
    apply string_match_subject_inv in Hm
      as [(-> & _) | (d & ds & Hall & -> & _)]; [left; reflexivity |].
    right. exists (d :: ds). split; [discriminate |]. auto.
  - intros [-> | (ds & Hne & Hall & ->)].
    + rewrite match_exact. discriminate.
    + destruct ds as [| d ds]; [congruence |].
      rewrite (match_suffixed base d ds Hall). discriminate.
Qed.

Lemma subject_regex_matches_witness :
  string_match (str "C++ (v.2)(17)") (subject_regex (str "C++ (v.2)")) <> None.
Proof.
  apply (proj2 (subject_regex_matches (str "C++ (v.2)") (str "C++ (v.2)(17)"))).
  right. exists (str "17"). split; [discriminate |].
  split; [repeat constructor | reflexivity].
Defined.

(** ** What name the namer returns *)

Lemma scan_subject_inv (base : jsstring) (acc : Z * bool) (set : StoredSet) :
  (snd (scan_subject (subject_regex base) acc set) = snd acc
   \/ ss_subject set = base)
  /\ (fst (scan_subject (subject_regex base) acc set) = fst acc
      \/ exists d ds,
           all_of is_digit (d :: ds)
           /\ ss_subject set = base ++ str "(" ++ (d :: ds) ++ str ")"
           /\ fst (scan_subject (subject_regex base) acc set)
              = digits_value (d :: ds)).
Proof.
  unfold scan_subject. destruct acc as [maxIndex foundBase].
  destruct (string_match (ss_subject set) (subject_regex base)) as [m |] eqn:Hm;
    [| simpl; auto].
  apply string_match_subject_inv in Hm
    as [(Hs & Hg) | (d & ds & Hall & Hs & Hg)]; rewrite Hg.
  - simpl. auto.
  - rewrite (parseInt_digits d ds Hall).
    destruct (Z.gtb_spec (digits_value (d :: ds)) maxIndex); simpl; [| auto].
    split; [auto |]. right. exists d, ds. auto.
Qed.

Lemma scan_fold_inv (base : jsstring) (sets : list StoredSet) :
  forall acc : Z * bool,
    (snd (fold_left (scan_subject (subject_regex base)) sets acc) = snd acc
     \/ In base (List.map ss_subject sets))
    /\ (fst (fold_left (scan_subject (subject_regex base)) sets acc) = fst acc
        \/ exists d ds,
             all_of is_digit (d :: ds)
             /\ In (base ++ str "(" ++ (d :: ds) ++ str ")")
                   (List.map ss_subject sets)
             /\ fst (fold_left (scan_subject (subject_regex base)) sets acc)
                = digits_value (d :: ds)).
Proof.
  induction sets as [| set sets IH]; intros acc; [simpl; auto |].
  cbn [fold_left List.map In].
  destruct (IH (scan_subject (subject_regex base) acc set)) as (IHs & IHf).
  destruct (scan_subject_inv base acc set) as (Hs & Hf).
  split.
  - destruct IHs as [IHs | IHs]; [| auto].
    destruct Hs as [Hs | Hs]; [left; congruence | auto].
  - destruct IHf as [IHf | (d & ds & Hall & Hin & Hv)].
    + destruct Hf as [Hf | (d & ds & Hall & Heq & Hv)]; [left; congruence |].
      right. exists d, ds. split; [exact Hall |]. split; [auto | congruence].
    + right. exists d, ds. auto.
Qed.

(** X4: [getUniqueSubjectName] returns the base unchanged exactly when no
    stored subject is the base, numbered variants or not; when the base is
    stored it returns [base(m+1)], where [m] is the largest number among the
    stored subjects [base(digits)] and -1 when there is none, so that the
    first duplicate is [base(0)].  The numbers are exact while they are
    safe integers, which is the premise of the numeric parts. *)
Theorem getUniqueSubjectName_cases (base : jsstring) (sets : list StoredSet) :
  (~ In base (List.map ss_subject sets) -> getUniqueSubjectName base sets = base)
  /\ (highest_suffix base sets < max_safe_integer ->
      (In base (List.map ss_subject sets) ->
       getUniqueSubjectName base sets
       = base ++ str "(" ++ number_to_string (highest_suffix base sets + 1)
              ++ str ")")
      /\ (forall ds, ds <> [] -> all_of is_digit ds ->
            In (base ++ str "(" ++ ds ++ str ")") (List.map ss_subject sets) ->
            digits_value ds <= highest_suffix base sets)
      /\ (highest_suffix base sets = -1
          \/ exists ds, ds <> [] /\ all_of is_digit ds
                        /\ In (base ++ str "(" ++ ds ++ str ")")
                              (List.map ss_subject sets)
                        /\ highest_suffix base sets = digits_value ds)).
Proof.
  unfold getUniqueSubjectName, highest_suffix.
  destruct (scan_fold_inv base sets (-1, false)) as (Hs & Hf).
  destruct (fold_left (scan_subject (subject_regex base)) sets (-1, false))
    as [maxIndex foundBase] eqn:Hfold.
  simpl in Hs, Hf |- *.
  split; [| intros _; split; [| split]].
  - intros Hnot. destruct Hs as [-> | Hin]; [reflexivity | contradiction].
  - intros Hin. pose proof (scan_fold_exact base sets (-1, false) Hin) as Hfound.
    rewrite Hfold in Hfound. simpl in Hfound. rewrite Hfound. reflexivity.
  - intros ds Hne Hall Hin. destruct ds as [| d ds]; [congruence |].
    pose proof (scan_fold_suffixed base d ds sets Hall (-1, false) Hin) as Hup.
    rewrite Hfold in Hup. exact Hup.
  - destruct Hf as [Hf | (d & ds & Hall & Hin & Hv)]; [auto |].
    right. exists (d :: ds). split; [discriminate |]. auto.
Qed.

Lemma getUniqueSubjectName_cases_witness :
  getUniqueSubjectName (str "Math")
    [{| ss_subject := str "Math(3)"; ss_flashcards := [] |}] = str "Math"
  /\ getUniqueSubjectName (str "Math")
       [{| ss_subject := str "Math(3)"; ss_flashcards := [] |};
        {| ss_subject := str "Math"; ss_flashcards := [] |}]
     = str "Math" ++ str "("
       ++ number_to_string
            (highest_suffix (str "Math")
               [{| ss_subject := str "Math(3)"; ss_flashcards := [] |};
                {| ss_subject := str "Math"; ss_flashcards := [] |}] + 1)
       ++ str ")"
  /\ digits_value (str "3")
     <= highest_suffix (str "Math")
          [{| ss_subject := str "Math(3)"; ss_flashcards := [] |}].
Proof.
  split; [| split].
  - apply (proj1 (getUniqueSubjectName_cases (str "Math")
                    [{| ss_subject := str "Math(3)"; ss_flashcards := [] |}])).
    simpl. intros [H | []]. discriminate H.
  - apply (proj2 (getUniqueSubjectName_cases (str "Math")
                    [{| ss_subject := str "Math(3)"; ss_flashcards := [] |};
                     {| ss_subject := str "Math"; ss_flashcards := [] |}])).
    + vm_compute. reflexivity.
    + simpl. right. left. reflexivity.
  - apply (proj2 (getUniqueSubjectName_cases (str "Math")
                    [{| ss_subject := str "Math(3)"; ss_flashcards := [] |}])).
    + vm_compute. reflexivity.
    + discriminate.
    + repeat constructor.
    + simpl. left. reflexivity.
Defined.

(** X5: after any run of [addStoredSet] calls on an empty store, whatever
    the bases, no two stored sets have the same subject (the suffixes met on
    the way being safe integers). *)
Theorem grown_store_subjects_distinct (ls : LocalStorage) :
  grown ls -> NoDup (stored_subjects ls).
Proof. apply grown_distinct. Qed.

Lemma grown_store_subjects_distinct_witness :
  NoDup
    (stored_subjects
       (snd (addStoredSet (str "Math") demo_cards
               (snd (addStoredSet (str "Math(0)") demo_cards
                       (snd (addStoredSet (str "Math") demo_cards
                               cleared_storage))))))).
Proof.
  apply grown_store_subjects_distinct.
  apply grown_add; [apply grown_add; [apply grown_add; [apply grown_empty |] |] |];
    vm_compute; reflexivity.
Defined.

(** ** Generation: what a successful call leaves behind *)

Lemma caught_message_nonempty (thrown : option jsstring) :
  caught_message thrown <> [].
Proof.
  destruct thrown as [[| c m] |]; simpl; try discriminate.
  all: intros H; apply (f_equal (@List.length char)) in H; vm_compute in H;
    discriminate H.
Qed.

(** X6: a successful initial generation stores the cards as the first set
    of the store, under the name the namer gives, and opens the card view on
    them: first card, answer hidden, no error, flags lowered, the name as
    subject and as active subject; the sets that were stored stay behind the
    new one and the list the view displays is the content of the store. *)
Theorem initial_generation_opens_new_set (subj : jsstring)
    (outcome : FetchOutcome) (cards : list Flashcard) (st : State)
    (ls : LocalStorage) :
  generated_cards outcome = inr cards ->
  let name := getUniqueSubjectName subj (getStoredSets ls) in
  let st' := fst (generateFlashcards subj [] outcome st ls) in
  let ls' := snd (generateFlashcards subj [] outcome st ls) in
  getStoredSets ls'
  = {| ss_subject := name; ss_flashcards := cards |} :: getStoredSets ls
  /\ lookup_set name (getStoredSets ls')
     = Some {| ss_subject := name; ss_flashcards := cards |}
  /\ storedSets st' = getStoredSets ls'
  /\ flashcards st' = cards /\ cards <> []
  /\ current st' = 0 /\ showAnswer st' = false /\ showGenerator st' = false
  /\ subject st' = name /\ activeSubject st' = Some name
  /\ error st' = None /\ loading st' = false /\ addingMore st' = false.
Proof.
  intros Hgen. pose proof (generated_cards_nonempty _ _ Hgen) as Hne.
  unfold generateFlashcards. rewrite Hgen. simpl.
  unfold lookup_set. simpl. rewrite jsstring_eqb_refl. auto 20.
Qed.

Lemma initial_generation_opens_new_set_witness :
  flashcards
    (fst (generateFlashcards (str "Math") [] (FetchText (str "Q: G? A: H"))
            initial_state cleared_storage))
  = [demo_card "G?" "H"].
Proof.
  apply (initial_generation_opens_new_set (str "Math")
           (FetchText (str "Q: G? A: H")) [demo_card "G?" "H"]
           initial_state cleared_storage).
  vm_compute. reflexivity.
Defined.



(** X8: whatever the request comes to, the call ends with both in-flight
    flags lowered; the error is empty exactly when cards came through, and
    a failure always shows a message that is not empty: the service's own
    when the response was not ok, the thrown error's when it has one, the
    fallback otherwise. *)
Theorem generation_error_reporting (subj : jsstring) (prev : list jsstring)
    (outcome : FetchOutcome) (st : State) (ls : LocalStorage) :
  loading (fst (generateFlashcards subj prev outcome st ls)) = false
  /\ addingMore (fst (generateFlashcards subj prev outcome st ls)) = false
  /\ (error (fst (generateFlashcards subj prev outcome st ls)) = None
      <-> exists cards, generated_cards outcome = inr cards)
  /\ (forall message,
        error (fst (generateFlashcards subj prev outcome st ls)) = Some message ->
        message <> [])
  /\ (outcome = FetchNotOk ->
      error (fst (generateFlashcards subj prev outcome st ls))
      = Some fetch_failed_message)
  /\ (forall message, outcome = FetchThrew (Some message) -> message <> [] ->
        error (fst (generateFlashcards subj prev outcome st ls)) = Some message)
  /\ (outcome = FetchThrew None \/ outcome = FetchThrew (Some []) ->
      error (fst (generateFlashcards subj prev outcome st ls))
      = Some fallback_message).
Proof.
  destruct (generated_cards outcome) as [thrown | cards] eqn:Hgen.
  - rewrite (generate_failure subj prev outcome thrown st ls Hgen). simpl.
    split; [reflexivity |]. split; [reflexivity |].
    split; [split; [discriminate | intros (cards & H); discriminate H] |].
    split; [intros message H; injection H as <-; apply caught_message_nonempty |].
    split; [intros ->; injection Hgen as <-; reflexivity |].
    split.
    + intros message -> Hne. injection Hgen as <-.
      destruct message; [congruence | reflexivity].
    + intros [-> | ->]; injection Hgen as <-; reflexivity.
  - assert (Herr : error (fst (generateFlashcards subj prev outcome st ls)) = None
                   /\ loading (fst (generateFlashcards subj prev outcome st ls)) = false
                   /\ addingMore (fst (generateFlashcards subj prev outcome st ls)) = false).
    { unfold generateFlashcards. rewrite Hgen.
      destruct (Nat.eqb (List.length prev) 0); [simpl; auto |].
      destruct (activeSubject st) as [[| a0 active] |]; simpl; auto. }
    destruct Herr as (Herr & Hl & Hm). rewrite Herr, Hl, Hm.
    split; [reflexivity |]. split; [reflexivity |].
    split; [split; [intros _; exists cards; reflexivity | reflexivity] |].
    split; [discriminate |].
    split; [intros ->; discriminate Hgen |].
    split; [intros message ->; discriminate Hgen |].
    intros [-> | ->]; discriminate Hgen.
Qed.

Lemma generation_error_reporting_witness :
  error (fst (generateFlashcards (str "Math") [] FetchNotOk initial_state
                cleared_storage))
  = Some fetch_failed_message
  /\ error (fst (generateFlashcards (str "Math") [] (FetchThrew (Some []))
                   initial_state cleared_storage))
     = Some fallback_message.
Proof.
  split.
  - apply (proj1 (proj2 (proj2 (proj2 (proj2
             (generation_error_reporting (str "Math") [] FetchNotOk
                initial_state cleared_storage)))))).
    reflexivity.
  - apply (proj2 (proj2 (proj2 (proj2 (proj2 (proj2
             (generation_error_reporting (str "Math") [] (FetchThrew (Some []))
                initial_state cleared_storage))))))).
    right. reflexivity.
Defined.

(** ** Navigation: how the operations compose *)

(** X9: flipping the card twice gives back the state it started from, and a
    flip touches nothing but the side shown. *)
Theorem handleFlip_twice (st : State) :
  handleFlip (handleFlip st) = st
  /\ handleFlip st = setShowAnswer (negb (showAnswer st)) st
  /\ current (handleFlip st) = current st
  /\ flashcards (handleFlip st) = flashcards st.
Proof.
  unfold handleFlip. destruct st as [? ? ? ? ? shown ? ? ? ? ? ? ? ?]; simpl.
  rewrite negb_involutive. auto.
Qed.

(** X10: away from the ends [next] and [prev] undo each other's move: after
    [next] then [prev], or [prev] then [next], the same card is current
    again, its answer hidden, and the cards are untouched. *)
Theorem next_prev_inverse (st : State) :
  (0 <= current st < Z.of_nat (List.length (flashcards st)) - 1 ->
   current (handlePrev (handleNext st)) = current st
   /\ showAnswer (handlePrev (handleNext st)) = false
   /\ flashcards (handlePrev (handleNext st)) = flashcards st)
  /\ (0 < current st <= Z.of_nat (List.length (flashcards st)) - 1 ->
      current (handleNext (handlePrev st)) = current st
      /\ showAnswer (handleNext (handlePrev st)) = false
      /\ flashcards (handleNext (handlePrev st)) = flashcards st).
Proof.
  split; intros Hr.
  - unfold handleNext.
    destruct (Z.ltb_spec (current st) (Z.of_nat (List.length (flashcards st)) - 1));
      [| lia].
    unfold handlePrev. simpl.
    destruct (Z.gtb_spec (current st + 1) 0); [| lia].
    simpl. repeat split. lia.
  - unfold handlePrev. destruct (Z.gtb_spec (current st) 0); [| lia].
    unfold handleNext. simpl.
    destruct (Z.ltb_spec (current st - 1)
                (Z.of_nat (List.length (flashcards st)) - 1)); [| lia].
    simpl. repeat split. lia.
Qed.

Lemma next_prev_inverse_witness :
  current (handlePrev (handleNext (demo_state 1 true))) = 1
  /\ current (handleNext (handlePrev (demo_state 1 true))) = 1.
Proof.
  split.
  - apply (proj1 (next_prev_inverse (demo_state 1 true))). simpl. lia.
  - apply (proj2 (next_prev_inverse (demo_state 1 true))). simpl. lia.
Defined.

Lemma iter_handleNext (k : nat) :
  forall st : State,
    current st <= Z.of_nat (List.length (flashcards st)) - 1 ->
    flashcards (Nat.iter k handleNext st) = flashcards st
    /\ current (Nat.iter k handleNext st)
       = Z.min (current st + Z.of_nat k)
               (Z.of_nat (List.length (flashcards st)) - 1).
Proof.
  induction k as [| k IH]; intros st Hr.
  - simpl. split; [reflexivity | lia].
  - destruct (IH st Hr) as (Hf & Hc).
    change (Nat.iter (S k) handleNext st)
      with (handleNext (Nat.iter k handleNext st)).
    rewrite handleNext_flashcards. split; [exact Hf |].
    remember (Nat.iter k handleNext st) as stk eqn:Hstk. clear Hstk.
    unfold handleNext. rewrite Hf, Hc.
    destruct (Z.ltb_spec
                (Z.min (current st + Z.of_nat k)
                   (Z.of_nat (List.length (flashcards st)) - 1))
                (Z.of_nat (List.length (flashcards st)) - 1)); simpl; lia.
Qed.

Lemma iter_handlePrev (k : nat) :
  forall st : State,
    0 <= current st ->
    flashcards (Nat.iter k handlePrev st) = flashcards st
    /\ current (Nat.iter k handlePrev st) = Z.max (current st - Z.of_nat k) 0.
Proof.
  induction k as [| k IH]; intros st Hr.
  - simpl. split; [reflexivity | lia].
  - destruct (IH st Hr) as (Hf & Hc).
    change (Nat.iter (S k) handlePrev st)
      with (handlePrev (Nat.iter k handlePrev st)).
    rewrite handlePrev_flashcards. split; [exact Hf |].
    remember (Nat.iter k handlePrev st) as stk eqn:Hstk. clear Hstk.
    unfold handlePrev. rewrite Hc.
    destruct (Z.gtb_spec (Z.max (current st - Z.of_nat k) 0) 0); simpl; lia.
Qed.

(** X11: [next] pressed [k] times moves [k] cards on, but stops at the last
    card and stays there; [prev] pressed [k] times moves [k] cards back, but
    stops at the first.  Neither wraps around. *)
Theorem repeated_next_prev_saturate (k : nat) (st : State) :
  0 <= current st <= Z.of_nat (List.length (flashcards st)) - 1 ->
  current (Nat.iter k handleNext st)
  = Z.min (current st + Z.of_nat k) (Z.of_nat (List.length (flashcards st)) - 1)
  /\ current (Nat.iter k handlePrev st) = Z.max (current st - Z.of_nat k) 0.
Proof.
  intros Hr. split.
  - apply iter_handleNext. lia.
  - apply iter_handlePrev. lia.
Qed.

Lemma repeated_next_prev_saturate_witness :
  current (Nat.iter 5 handleNext (demo_state 1 false)) = 2
  /\ current (Nat.iter 5 handlePrev (demo_state 1 false)) = 0.
Proof.
  destruct (repeated_next_prev_saturate 5 (demo_state 1 false)) as (Hn & Hp).
  - simpl. lia.
  - split; [rewrite Hn | rewrite Hp]; reflexivity.
Defined.

(** X12: once the effects of the last render have run, a navigation
    operation raises the switching flag exactly when it changes the current
    index, and never lowers it; with it the effects record the new index,
    so they are settled again. *)
Theorem switching_raised_on_move (e : NavEvent) (st : State) :
  lastCurrent st = current st ->
  switching (dispatch e st)
  = switching st || negb (current (dispatch e st) =? current st)
  /\ lastCurrent (dispatch e st) = current (dispatch e st)
  /\ lastAnimatedCircle (dispatch e st) = Some (current (dispatch e st)).
Proof.
  intros Hl. unfold dispatch.
  assert (Hsw : switching (handle e st) = switching st
                /\ lastCurrent (handle e st) = lastCurrent st).
  { destruct e as [| | idx |]; unfold handle.
    - unfold handleNext. destruct (_ <? _); auto.
    - unfold handlePrev. destruct (_ >? _); auto.
    - unfold handleCircleClick. destruct (negb _); auto.
    - auto. }
  destruct Hsw as (Hsw & Hlc).
  rewrite useEffects_current. unfold useEffects. cbn [lastCurrent current setLastAnimatedCircle].
  rewrite Hlc, Hl.
  destruct (Z.eqb_spec (current st) (current (handle e st))) as [Heq | Hne].
  - simpl. rewrite Hsw, <- Heq, Z.eqb_refl, orb_false_r, Hlc, Hl. auto.
  - simpl.
    destruct (Z.eqb_spec (current (handle e st)) (current st)); [congruence |].
    rewrite orb_true_r. auto.
Qed.

Lemma switching_raised_on_move_witness :
  switching (dispatch Next (demo_state 1 true)) = true
  /\ switching (dispatch Next (demo_state 2 true)) = false.
Proof.
  split.
  - rewrite (proj1 (switching_raised_on_move Next (demo_state 1 true) eq_refl)).
    reflexivity.
  - rewrite (proj1 (switching_raised_on_move Next (demo_state 2 true) eq_refl)).
    reflexivity.
Defined.

(** ** The session and the store, over every run of the view *)


Lemma generated_cards_short (outcome : FetchOutcome) (cards : list Flashcard) :
  generated_cards outcome = inr cards -> all_short cards.
Proof.
  unfold generated_cards. destruct outcome as [m | | text]; try discriminate.
  destruct (Nat.eqb _ 0); [discriminate |].
  destruct (Nat.eqb _ 0); [discriminate |].
  intros H. injection H as <-. apply Forall_forall.
  intros card Hin. apply filter_In in Hin. tauto.
Qed.

Lemma getUniqueSubjectName_nonempty (base : jsstring) (sets : list StoredSet) :
  base <> [] -> getUniqueSubjectName base sets <> [].
Proof.
  intros Hne. unfold getUniqueSubjectName.
  destruct (fold_left _ sets _) as [maxIndex foundBase].
  destruct (negb foundBase); [exact Hne |].
  destruct base; [congruence | discriminate].
Qed.

Lemma assign_flashcards_well_formed (cards : list Flashcard)
    (sets : list StoredSet) :
  cards <> [] -> all_short cards -> Forall well_formed_set sets ->
  forall idx : nat, Forall well_formed_set (assign_flashcards idx cards sets).
Proof.
  intros Hne Hshort. induction 1 as [| s sets Hs Hsets IH]; intros idx;
    [destruct idx; constructor |].
  destruct idx as [| idx]; simpl; constructor; auto.
  destruct Hs as (Hsubj & _). split; [exact Hsubj |]. split; assumption.
Qed.

Lemma store_inv_useEffects (st : State) (ls : LocalStorage) :
  store_inv st ls -> store_inv (useEffects st) ls.
Proof.
  unfold store_inv, useEffects.
  destruct (negb (lastCurrent _ =? current _)); simpl; auto.
Qed.

Lemma store_inv_generate_failure (subj : jsstring) (prev : list jsstring)
    (outcome : FetchOutcome) (thrown : option jsstring) (st : State)
    (ls : LocalStorage) :
  generated_cards outcome = inl thrown ->
  store_inv st ls ->
  store_inv (fst (generateFlashcards subj prev outcome st ls))
            (snd (generateFlashcards subj prev outcome st ls)).
Proof.
  intros Hgen Hinv. rewrite (generate_failure _ _ _ _ _ _ Hgen). exact Hinv.
Qed.

Lemma store_inv_generate_initial (subj : jsstring) (outcome : FetchOutcome)
    (cards : list Flashcard) (st : State) (ls : LocalStorage) :
  generated_cards outcome = inr cards -> subj <> [] ->
  Forall well_formed_set (getStoredSets ls) ->
  store_inv (fst (generateFlashcards subj [] outcome st ls))
            (snd (generateFlashcards subj [] outcome st ls)).
Proof.
  intros Hgen Hsubj Hwf.
  pose proof (generated_cards_nonempty _ _ Hgen) as Hne.
  pose proof (generated_cards_short _ _ Hgen) as Hshort.
  unfold generateFlashcards. rewrite Hgen. unfold store_inv, stored_subjects.
  simpl. split; [reflexivity |]. split.
  - constructor; [| exact Hwf].
    split; [apply getUniqueSubjectName_nonempty, Hsubj | split; assumption].
  - split; [exact Hshort |]. intros _. split; [exact Hne |].
    exists (getUniqueSubjectName subj (getStoredSets ls)).
    split; [reflexivity |].
    split; [apply getUniqueSubjectName_nonempty, Hsubj | left; reflexivity].
Qed.

Lemma store_inv_generate_continuation (subj : jsstring) (prev : list jsstring)
    (outcome : FetchOutcome) (cards : list Flashcard) (st : State)
    (ls : LocalStorage) :
  generated_cards outcome = inr cards -> prev <> [] ->
  showGenerator st = false -> store_inv st ls ->
  store_inv (fst (generateFlashcards subj prev outcome st ls))
            (snd (generateFlashcards subj prev outcome st ls))
  /\ ls_writes (snd (generateFlashcards subj prev outcome st ls))
     = S (ls_writes ls).
Proof.
  intros Hgen Hprev Hs (Hmirror & Hwf & Hshort & Hview).
  destruct (Hview Hs) as (Hcards & active & Hact & Hne & Hin).
  pose proof (generated_cards_nonempty _ _ Hgen) as Hnew.
  pose proof (generated_cards_short _ _ Hgen) as Hnewshort.
  assert (Hall : all_short (flashcards st ++ cards))
    by (apply Forall_app; split; assumption).
  assert (Hnonempty : flashcards st ++ cards <> [])
    by (destruct (flashcards st); [congruence | discriminate]).
  destruct (findIndex_some active _ Hin) as (idx & Hidx).
  unfold generateFlashcards. rewrite Hgen.
  destruct prev as [| q prev]; [congruence |]. cbn [List.length Nat.eqb].
  rewrite Hact. destruct active as [| a0 active]; [congruence |].
  unfold updateStoredSet. rewrite Hidx.
  assert (Hin' : In (a0 :: active)
                   (List.map ss_subject
                      (assign_flashcards idx (flashcards st ++ cards)
                         (getStoredSets ls))))
    by (rewrite assign_flashcards_subjects; exact Hin).
  unfold store_inv, stored_subjects. simpl.
  split; [| reflexivity].
  split; [reflexivity |].
  split; [apply assign_flashcards_well_formed; assumption |].
  split; [exact Hall |].
  intros _. split; [exact Hnonempty |].
  exists (a0 :: active). split; [exact Hact |]. split; [exact Hne |].
  exact Hin'.
Qed.

Lemma store_inv_mounted (ls : LocalStorage) :
  Forall well_formed_set (getStoredSets ls) -> store_inv (mounted ls) ls.
Proof.
  intros Hwf. apply store_inv_useEffects. unfold store_inv. simpl.
  split; [reflexivity |]. split; [exact Hwf |].
  split; [constructor | discriminate].
Qed.

Lemma store_inv_handle (e : NavEvent) (st : State) (ls : LocalStorage) :
  store_inv st ls -> store_inv (handle e st) ls.
Proof.
  unfold store_inv. destruct e as [| | idx |]; unfold handle.
  - unfold handleNext. destruct (_ <? _); simpl; auto.
  - unfold handlePrev. destruct (_ >? _); simpl; auto.
  - unfold handleCircleClick. destruct (negb _); simpl; auto.
  - simpl. auto.
Qed.

Lemma store_inv_step (ev : Event) (st : State) (ls : LocalStorage) :
  store_inv st ls -> offered ev st ->
  store_inv (fst (step ev st ls)) (snd (step ev st ls)).
Proof.
  intros Hinv Hoff. unfold step.
  destruct (handler ev st ls) as [st' ls'] eqn:Hh. cbn [fst snd].
  apply store_inv_useEffects.
  assert (Hst : st' = fst (handler ev st ls)) by (rewrite Hh; reflexivity).
  assert (Hls : ls' = snd (handler ev st ls)) by (rewrite Hh; reflexivity).
  clear Hh. subst st' ls'.
  destruct ev as [text | outcome | set | subj | e | outcome |];
    cbn [handler fst snd]; simpl in Hoff.
  - (* EditSubject *)
    destruct Hoff as (Hs & _). destruct Hinv as (H1 & H2 & H3 & _).
    unfold store_inv. simpl. rewrite Hs.
    split; [exact H1 |]. split; [exact H2 |]. split; [exact H3 | discriminate].
  - (* Submit *)
    destruct Hoff as (Hs & _ & Hsubj). destruct Hinv as (H1 & H2 & H3 & _).
    unfold handleSubmit.
    destruct (generated_cards outcome) as [thrown | cards] eqn:Hgen.
    + apply (store_inv_generate_failure _ _ _ thrown); [exact Hgen |].
      unfold store_inv. simpl. rewrite Hs.
      split; [exact H1 |]. split; [exact H2 |].
      split; [constructor | discriminate].
    + apply (store_inv_generate_initial _ _ cards); assumption.
  - (* SelectStored *)
    destruct Hoff as (_ & Hin). destruct Hinv as (H1 & H2 & _ & _).
    rewrite H1 in Hin.
    pose proof (proj1 (Forall_forall _ _) H2 set Hin) as (Hsubj & Hcards & Hshort).
    unfold store_inv, stored_subjects. simpl.
    split; [exact H1 |]. split; [exact H2 |]. split; [exact Hshort |].
    intros _. split; [exact Hcards |].
    exists (ss_subject set). split; [reflexivity |]. split; [exact Hsubj |].
    apply in_map, Hin.
  - (* DeleteStored *)
    destruct Hoff as (Hs & _). destruct Hinv as (_ & H2 & H3 & _).
    unfold handleDeleteStoredSet. rewrite Hs. simpl.
    unfold store_inv. simpl. rewrite Hs.
    split; [reflexivity |].
    split; [apply Forall_forall; intros set Hin; apply filter_In in Hin;
            apply (proj1 (Forall_forall _ _) H2); tauto |].
    split; [exact H3 | discriminate].
  - (* Navigate *)
    apply store_inv_handle, Hinv.
  - (* AddMore *)
    destruct Hoff as ((Hs & Hne) & _ & _). unfold handleAddMore.
    destruct (generated_cards outcome) as [thrown | cards] eqn:Hgen.
    + rewrite (generate_failure _ _ _ _ _ _ Hgen). exact Hinv.
    + apply (store_inv_generate_continuation _ _ _ cards).
      * exact Hgen.
      * destruct (flashcards st); [congruence | discriminate].
      * exact Hs.
      * exact Hinv.
  - (* Back *)
    destruct Hinv as (H1 & H2 & _ & _). unfold store_inv. simpl.
    split; [exact H1 |]. split; [exact H2 |].
    split; [constructor | discriminate].
Qed.

Lemma reachable_from_store_inv (ls0 : LocalStorage) (st : State)
    (ls : LocalStorage) :
  Forall well_formed_set (getStoredSets ls0) ->
  reachable_from ls0 st ls -> store_inv st ls.
Proof.
  intros Hwf. induction 1 as [| ev st ls _ IH Hoff].
  - apply store_inv_mounted, Hwf.
  - apply store_inv_step; assumption.
Qed.

Lemma first_set_reachable :
  reachable_from cleared_storage (fst first_set_state) (snd first_set_state).
Proof.
  unfold first_set_state. apply from_step.
  - unfold typed_state. apply from_step; [apply from_mount |].
    simpl. split; reflexivity.
  - simpl. split; [reflexivity |]. split; [reflexivity | discriminate].
Qed.

(** X13: opened on a store of well-formed sets, an empty one for instance,
    the view keeps it so whatever the user does: the list it displays is
    what is stored, every stored set has a subject, at least one card and
    only short questions, the cards of the session are short, and the card
    view always has cards and an active subject that is stored. *)
Theorem session_and_store_agree (ls0 : LocalStorage) (st : State)
    (ls : LocalStorage) :
  Forall well_formed_set (getStoredSets ls0) ->
  reachable_from ls0 st ls ->
  storedSets st = getStoredSets ls
  /\ Forall well_formed_set (getStoredSets ls)
  /\ all_short (flashcards st)
  /\ (showGenerator st = false ->
      flashcards st <> []
      /\ exists active, activeSubject st = Some active /\ active <> []
                        /\ In active (stored_subjects ls)).
Proof. apply reachable_from_store_inv. Qed.

Lemma session_and_store_agree_witness :
  storedSets (fst first_set_state) = getStoredSets (snd first_set_state)
  /\ Forall well_formed_set (getStoredSets (snd first_set_state))
  /\ all_short (flashcards (fst first_set_state))
  /\ (showGenerator (fst first_set_state) = false ->
      flashcards (fst first_set_state) <> []
      /\ exists active,
           activeSubject (fst first_set_state) = Some active /\ active <> []
           /\ In active (stored_subjects (snd first_set_state))).
Proof.
  apply (session_and_store_agree cleared_storage).
  - constructor.
  - exact first_set_reachable.
Defined.

(** X14: over every run of the view on a well-formed store, an event writes
    the store once when it is a deletion or a generation that succeeds, and
    not at all otherwise: navigation, selection, typing, going back and
    failed generations write nothing. *)
Theorem writes_per_event (ls0 : LocalStorage) (st : State) (ls : LocalStorage)
    (ev : Event) :
  Forall well_formed_set (getStoredSets ls0) ->
  reachable_from ls0 st ls -> offered ev st ->
  ls_writes (snd (step ev st ls)) = (ls_writes ls + writes_of ev)%nat.
Proof.
  intros Hwf Hreach Hoff.
  pose proof (reachable_from_store_inv ls0 st ls Hwf Hreach) as Hinv.
  unfold step. destruct (handler ev st ls) as [st' ls'] eqn:Hh. cbn [snd].
  assert (Hls : ls' = snd (handler ev st ls)) by (rewrite Hh; reflexivity).
  clear Hh. subst ls'.
  destruct ev as [text | outcome | set | subj | e | outcome |];
    cbn [handler snd writes_of]; simpl in Hoff; try lia.
  - unfold handleSubmit.
    destruct (generated_cards outcome) as [thrown | cards] eqn:Hgen.
    + rewrite (generate_failure _ _ _ _ _ _ Hgen). simpl. lia.
    + unfold generateFlashcards. rewrite Hgen. simpl. lia.
  - unfold handleDeleteStoredSet.
    destruct (negb (showGenerator st) && _); simpl; lia.
  - destruct Hoff as ((Hs & Hne) & _ & _). unfold handleAddMore.
    destruct (generated_cards outcome) as [thrown | cards] eqn:Hgen.
    + rewrite (generate_failure _ _ _ _ _ _ Hgen). simpl. lia.
    + assert (Hprev : List.map question (flashcards st) <> [])
        by (destruct (flashcards st); [congruence | discriminate]).
      rewrite (proj2 (store_inv_generate_continuation _ _ _ cards
                        (setAddingMore true st) ls Hgen Hprev Hs Hinv)).
      lia.
Qed.

Lemma writes_per_event_witness :
  ls_writes
    (snd (step (AddMore (FetchText (str "Q: I? A: J")))
            (fst first_set_state) (snd first_set_state)))
  = (ls_writes (snd first_set_state) + 1)%nat.
Proof.
  apply (writes_per_event cleared_storage (fst first_set_state)
           (snd first_set_state) (AddMore (FetchText (str "Q: I? A: J")))).
  - constructor.
  - exact first_set_reachable.
  - split; [split; [reflexivity | vm_compute; discriminate] | split; reflexivity].
Defined.



(** ** The circles and the keyboard *)

Lemma lines_loop_spec (cards : list Flashcard) :
  forall (fuel lineIdx : nat),
    (List.length cards - lineIdx * MAX_PER_LINE <= fuel)%nat ->
    List.concat (lines_loop fuel cards (lineIdx * MAX_PER_LINE))
    = skipn (lineIdx * MAX_PER_LINE) cards
    /\ Forall (fun line => (1 <= List.length line <= MAX_PER_LINE)%nat)
         (lines_loop fuel cards (lineIdx * MAX_PER_LINE))
    /\ List.concat (lines_indices lineIdx
                 (lines_loop fuel cards (lineIdx * MAX_PER_LINE)))
       = seq (lineIdx * MAX_PER_LINE)
           (List.length cards - lineIdx * MAX_PER_LINE).
Proof.
  induction fuel as [| fuel IH]; intros lineIdx Hfuel.
  - simpl. rewrite skipn_all2 by lia.
    replace (List.length cards - lineIdx * MAX_PER_LINE)%nat with O by lia.
    split; [reflexivity |]. split; [constructor | reflexivity].
  - cbn [lines_loop].
    destruct (Nat.ltb_spec (lineIdx * MAX_PER_LINE) (List.length cards))
      as [Hlt | Hge].
    + destruct (IH (S lineIdx)) as (IHc & IHl & IHi);
        [unfold MAX_PER_LINE in *; lia |].
      change (S lineIdx * MAX_PER_LINE)%nat
        with (MAX_PER_LINE + lineIdx * MAX_PER_LINE)%nat in *.
      rewrite (Nat.add_comm MAX_PER_LINE) in *.
      assert (Hline : cards_slice cards (lineIdx * MAX_PER_LINE)
                        (lineIdx * MAX_PER_LINE + MAX_PER_LINE)
                      = firstn MAX_PER_LINE (skipn (lineIdx * MAX_PER_LINE) cards)).
      { unfold cards_slice. f_equal. lia. }
      rewrite Hline.
      assert (Hlen : List.length
                       (firstn MAX_PER_LINE (skipn (lineIdx * MAX_PER_LINE) cards))
                     = Nat.min MAX_PER_LINE
                         (List.length cards - lineIdx * MAX_PER_LINE))
        by (rewrite length_firstn, length_skipn; reflexivity).
      split; [| split].
      * cbn [List.concat]. rewrite IHc.
        rewrite Nat.add_comm, <- skipn_skipn. apply firstn_skipn.
      * constructor; [rewrite Hlen; unfold MAX_PER_LINE in *; lia | exact IHl].
      * cbn [lines_indices List.concat]. rewrite IHi. unfold line_indices.
        rewrite Hlen.
        replace (List.map (fun idxInLine => (lineIdx * MAX_PER_LINE + idxInLine)%nat)
                   (seq 0 (Nat.min MAX_PER_LINE
                             (List.length cards - lineIdx * MAX_PER_LINE))))
          with (seq (lineIdx * MAX_PER_LINE)
                  (Nat.min MAX_PER_LINE
                     (List.length cards - lineIdx * MAX_PER_LINE))).
        2:{ generalize (Nat.min MAX_PER_LINE
                          (List.length cards - lineIdx * MAX_PER_LINE)).
            generalize (lineIdx * MAX_PER_LINE)%nat. intros a n.
            rewrite <- (Nat.add_0_r a) at 1.
            generalize O. induction n as [| n IHn]; intros b; [reflexivity |].
            simpl. f_equal. rewrite <- IHn. f_equal. lia. }
        destruct (Nat.le_ge_cases MAX_PER_LINE
                    (List.length cards - lineIdx * MAX_PER_LINE)) as [Hfull | Hlast].
        -- rewrite Nat.min_l by exact Hfull. rewrite <- seq_app. f_equal. lia.
        -- rewrite Nat.min_r by exact Hlast.
           replace (List.length cards - (lineIdx * MAX_PER_LINE + MAX_PER_LINE))%nat
             with O by lia.
           apply app_nil_r.
    + rewrite skipn_all2 by lia.
      replace (List.length cards - lineIdx * MAX_PER_LINE)%nat with O by lia.
      split; [reflexivity |]. split; [constructor | reflexivity].
Qed.

(** X16: the circles are the cards, cut into lines of at most twenty: put
    end to end the lines give the cards back, no line is empty, and the
    indices the circles hand to [handleCircleClick] are 0, 1, ... up to the
    last card, each once and in order, so that every one of them is the
    index of a card. *)
Theorem circles_enumerate_cards (cards : list Flashcard) :
  List.concat (circle_lines cards) = cards
  /\ Forall (fun line => (1 <= List.length line <= MAX_PER_LINE)%nat)
       (circle_lines cards)
  /\ List.concat (circle_indices cards) = seq 0 (List.length cards)
  /\ (forall idx, In idx (List.concat (circle_indices cards)) ->
        0 <= Z.of_nat idx < Z.of_nat (List.length cards)).
Proof.
  destruct (lines_loop_spec cards (List.length cards) 0) as (Hc & Hl & Hi);
    [simpl; lia |].
  simpl in Hc, Hl, Hi. rewrite Nat.sub_0_r in Hi.
  unfold circle_indices, circle_lines.
  split; [exact Hc |]. split; [exact Hl |]. split; [exact Hi |].
  intros idx Hin. rewrite Hi in Hin. apply in_seq in Hin. lia.
Qed.

Lemma circles_enumerate_cards_witness :
  0 <= Z.of_nat 2 < Z.of_nat (List.length demo_cards).
Proof.
  apply (proj2 (proj2 (proj2 (circles_enumerate_cards demo_cards)))).
  vm_compute. right. right. left. reflexivity.
Defined.

Lemma onKeyDown_cases (key : jsstring) (st : State) :
  onKeyDown key st = st \/ onKeyDown key st = handlePrev st
  \/ onKeyDown key st = handleNext st.
Proof.
  unfold onKeyDown. destruct (negb (showGenerator st) && _); [| auto].
  destruct (jsstring_eqb key (str "ArrowLeft")); [auto |].
  destruct (jsstring_eqb key (str "ArrowRight")); auto.
Qed.

Lemma onKeyDown_in_bounds (key : jsstring) (st : State) :
  in_bounds st ->
  in_bounds (onKeyDown key st)
  /\ flashcards (onKeyDown key st) = flashcards st.
Proof.
  intros Hb.
  assert (Hboth : in_bounds (handlePrev st) /\ in_bounds (handleNext st)).
  { destruct (flashcards st) as [| c cards] eqn:Hf.
    - unfold in_bounds in Hb. rewrite Hf in Hb.
      unfold handlePrev, handleNext. rewrite Hb, Hf. simpl.
      unfold in_bounds. rewrite Hf. auto.
    - assert (Hne : flashcards st <> []) by congruence.
      pose proof (in_bounds_range st Hne Hb) as Hr.
      split; apply range_in_bounds.
      + rewrite handlePrev_flashcards. apply handlePrev_range, Hr.
      + rewrite handleNext_flashcards. apply handleNext_range, Hr. }
  destruct Hboth as (Hprev & Hnext).
  destruct (onKeyDown_cases key st) as [-> | [-> | ->]].
  - auto.
  - split; [exact Hprev | apply handlePrev_flashcards].
  - split; [exact Hnext | apply handleNext_flashcards].
Qed.

(** X17: the arrow keys do what the arrow buttons do, on the card view
    only: with the generator shown or no card to show, and for any other
    key, the listener changes nothing; and no run of key presses moves the
    current index off the cards or changes the cards.  On the card, the
    space bar and Enter flip it and no other key does anything. *)
Theorem keyboard_navigation (keys : list jsstring) (key : jsstring) (st : State) :
  (showGenerator st = true \/ flashcards st = [] -> onKeyDown key st = st)
  /\ (key <> str "ArrowLeft" -> key <> str "ArrowRight" -> onKeyDown key st = st)
  /\ (browsing st ->
      onKeyDown (str "ArrowLeft") st = handlePrev st
      /\ onKeyDown (str "ArrowRight") st = handleNext st)
  /\ (in_bounds st ->
      in_bounds (fold_left (fun s k => onKeyDown k s) keys st)
      /\ flashcards (fold_left (fun s k => onKeyDown k s) keys st)
         = flashcards st)
  /\ (key <> str " " -> key <> str "Enter" -> card_onKeyDown key st = st)
  /\ card_onKeyDown (str " ") st = handleFlip st
  /\ card_onKeyDown (str "Enter") st = handleFlip st.
Proof.
  split; [| split; [| split; [| split; [| split]]]].
  - unfold onKeyDown. intros [-> | ->]; [reflexivity |].
    rewrite andb_false_r. reflexivity.
  - intros Hl Hr. unfold onKeyDown.
    destruct (jsstring_eqb_spec key (str "ArrowLeft")); [contradiction |].
    destruct (jsstring_eqb_spec key (str "ArrowRight")); [contradiction |].
    destruct (negb (showGenerator st) && _); reflexivity.
  - intros (Hs & Hne). unfold onKeyDown. rewrite Hs.
    destruct (flashcards st) as [| c cards] eqn:Hf; [congruence |].
    split; reflexivity.
  - revert st. induction keys as [| k keys IH]; intros st Hb; [auto |].
    destruct (onKeyDown_in_bounds k st Hb) as (Hb' & Hf').
    destruct (IH (onKeyDown k st) Hb') as (IHb & IHf).
    simpl. split; [exact IHb | congruence].
  - intros Hsp Hen. unfold card_onKeyDown.
    destruct (jsstring_eqb_spec key (str " ")); [contradiction |].
    destruct (jsstring_eqb_spec key (str "Enter")); [contradiction |].
    reflexivity.
  - split; reflexivity.
Qed.

Lemma keyboard_navigation_witness :
  onKeyDown (str "ArrowRight") initial_state = initial_state
  /\ onKeyDown (str "a") (demo_state 1 true) = demo_state 1 true
  /\ onKeyDown (str "ArrowRight") (demo_state 1 true) = handleNext (demo_state 1 true)
  /\ in_bounds
       (fold_left (fun s k => onKeyDown k s)
          [str "ArrowRight"; str "ArrowRight"; str "ArrowRight"; str "ArrowLeft"]
          (demo_state 1 true)).
Proof.
  split; [| split; [| split]].
  - apply (proj1 (keyboard_navigation [] (str "ArrowRight") initial_state)).
    left. reflexivity.
  - apply (proj1 (proj2 (keyboard_navigation [] (str "a") (demo_state 1 true))));
      discriminate.
  - apply (proj1 (proj2 (proj2 (keyboard_navigation [] (str "a")
                                  (demo_state 1 true))))).
    split; [reflexivity | discriminate].
  - apply (proj1 (proj2 (proj2 (proj2
             (keyboard_navigation
                [str "ArrowRight"; str "ArrowRight"; str "ArrowRight"; str "ArrowLeft"]
                (str "a") (demo_state 1 true)))))).
    unfold in_bounds. simpl. lia.
Defined.

(** ** The typing placeholder *)

Lemma slice_prefix (s : jsstring) (n : nat) : slice s 0 n = firstn n s.
Proof. unfold slice. rewrite Nat.sub_0_r. reflexivity. Qed.

Lemma typing_effect_ok (examples : list jsstring) (ts : TypingState) :
  typing_ok examples ts ->
  exists ts', typing_effect examples ts = Some ts' /\ typing_ok examples ts'.
Proof.
  intros (ex & Hex & Hc & Hp). unfold typing_effect. rewrite Hex.
  destruct (deleting ts); cbn [negb].
  - destruct (Nat.ltb_spec 0 (charIdx ts)).
    + eexists. split; [reflexivity |]. exists ex. cbn.
      split; [exact Hex |]. split; [lia | apply slice_prefix].
    + assert (Hlen : (exampleIdx ts < List.length examples)%nat)
        by (apply nth_error_Some; congruence).
      assert (Hnext : ((exampleIdx ts + 1) mod List.length examples
                       < List.length examples)%nat)
        by (apply Nat.mod_upper_bound; lia).
      apply nth_error_Some in Hnext.
      destruct (nth_error examples ((exampleIdx ts + 1) mod List.length examples))
        as [ex' |] eqn:Hex'; [| congruence].
      eexists. split; [reflexivity |]. exists ex'. cbn.
      split; [exact Hex' |]. replace (charIdx ts) with O in * by lia.
      split; [lia | rewrite Hp; reflexivity].
  - destruct (Nat.ltb_spec (charIdx ts) (List.length ex)).
    + eexists. split; [reflexivity |]. exists ex. cbn.
      split; [exact Hex |]. split; [lia | apply slice_prefix].
    + eexists. split; [reflexivity |]. exists ex. cbn. auto.
Qed.

Lemma typing_run_ok (examples : list jsstring) (n : nat) :
  forall ts : TypingState,
    typing_ok examples ts ->
    exists ts', typing_run examples n ts = Some ts' /\ typing_ok examples ts'.
Proof.
  induction n as [| n IH]; intros ts Hok; [exists ts; auto |].
  destruct (typing_effect_ok examples ts Hok) as (ts1 & Hstep & Hok1).
  simpl. rewrite Hstep. apply IH, Hok1.
Qed.

(** X18: given at least one example, the hook never reads past its
    examples, however long it runs: every step finds a current example, the
    count of characters shown stays within it, the placeholder is always
    that many of its first characters, and the text returned is the
    placeholder, a bar when there is more to type, and three dots. *)
Theorem typing_placeholder_stays_in_example (examples : list jsstring) (n : nat) :
  examples <> [] ->
  exists ts currentExample,
    typing_run examples n typing_initial = Some ts
    /\ nth_error examples (exampleIdx ts) = Some currentExample
    /\ (charIdx ts <= List.length currentExample)%nat
    /\ placeholder ts = firstn (charIdx ts) currentExample
    /\ typing_text examples ts
       = Some (firstn (charIdx ts) currentExample
               ++ (if negb (deleting ts)
                      && Nat.ltb (charIdx ts) (List.length currentExample)
                   then str "|" else [])
               ++ str "...").
Proof.
  intros Hne.
  assert (Hinit : typing_ok examples typing_initial).
  { destruct examples as [| ex examples]; [congruence |].
    exists ex. simpl. auto using Nat.le_0_l. }
  destruct (typing_run_ok examples n typing_initial Hinit)
    as (ts & Hrun & ex & Hex & Hc & Hp).
  exists ts, ex. split; [exact Hrun |]. split; [exact Hex |].
  split; [exact Hc |]. split; [exact Hp |].
  unfold typing_text. rewrite Hex, Hp.
  destruct (deleting ts); reflexivity.
Qed.

Lemma typing_placeholder_stays_in_example_witness :
  exists ts currentExample,
    typing_run exampleSubjects 40 typing_initial = Some ts
    /\ nth_error exampleSubjects (exampleIdx ts) = Some currentExample
    /\ (charIdx ts <= List.length currentExample)%nat
    /\ placeholder ts = firstn (charIdx ts) currentExample
    /\ typing_text exampleSubjects ts
       = Some (firstn (charIdx ts) currentExample
               ++ (if negb (deleting ts)
                      && Nat.ltb (charIdx ts) (List.length currentExample)
                   then str "|" else [])
               ++ str "...").
Proof.
  apply (typing_placeholder_stays_in_example exampleSubjects 40). discriminate.
Defined.

Lemma typing_run_add (examples : list jsstring) (a b : nat) :
  forall ts ts1 : TypingState,
    typing_run examples a ts = Some ts1 ->
    typing_run examples (a + b) ts = typing_run examples b ts1.
Proof.
  induction a as [| a IH]; intros ts ts1 H; simpl in *.
  - injection H as ->. reflexivity.
  - destruct (typing_effect examples ts) as [ts' |]; [| discriminate].
    apply IH, H.
Qed.

Lemma typing_types (examples : list jsstring) (ex : jsstring) (i : nat) :
  nth_error examples i = Some ex ->
  forall (k c : nat) (p : jsstring),
    (c + k = List.length ex)%nat ->
    p = firstn c ex ->
    typing_run examples k
      {| placeholder := p; exampleIdx := i; charIdx := c; deleting := false |}
    = Some {| placeholder := ex; exampleIdx := i;
              charIdx := List.length ex; deleting := false |}.
Proof.
  intros Hex. induction k as [| k IH]; intros c p Hk Hp.
  - simpl. rewrite Nat.add_0_r in Hk. subst c.
    rewrite firstn_all in Hp. subst p. reflexivity.
  - cbn [typing_run]. unfold typing_effect. cbn [exampleIdx deleting charIdx negb].
    rewrite Hex.
    destruct (Nat.ltb_spec c (List.length ex)); [| lia].
    apply IH; [lia | apply slice_prefix].
Qed.

Lemma typing_deletes (examples : list jsstring) (ex : jsstring) (i : nat) :
  nth_error examples i = Some ex ->
  forall (c : nat) (p : jsstring),
    (c <= List.length ex)%nat ->
    p = firstn c ex ->
    typing_run examples c
      {| placeholder := p; exampleIdx := i; charIdx := c; deleting := true |}
    = Some {| placeholder := []; exampleIdx := i; charIdx := 0; deleting := true |}.
Proof.
  intros Hex. induction c as [| c IH]; intros p Hc Hp.
  - simpl. subst p. reflexivity.
  - cbn [typing_run]. unfold typing_effect. cbn [exampleIdx deleting charIdx negb].
    rewrite Hex. cbn [Nat.ltb Nat.leb].
    replace (S c - 1)%nat with c by lia.
    apply IH; [lia | apply slice_prefix].
Qed.

(** X19: an example of [L] characters takes [2 L + 2] steps: [L] to type it,
    one to pause, [L] to delete it and one to move on; after them the hook
    stands at the start of the next example, the one after the last being
    the first again. *)
Theorem typing_cycle (examples : list jsstring) (i : nat) (ex : jsstring) :
  nth_error examples i = Some ex ->
  typing_run examples (List.length ex)
    {| placeholder := []; exampleIdx := i; charIdx := 0; deleting := false |}
  = Some {| placeholder := ex; exampleIdx := i; charIdx := List.length ex;
            deleting := false |}
  /\ typing_run examples (2 * List.length ex + 2)
       {| placeholder := []; exampleIdx := i; charIdx := 0; deleting := false |}
     = Some {| placeholder := [];
               exampleIdx := (i + 1) mod List.length examples;
               charIdx := 0; deleting := false |}.
Proof.
  intros Hex.
  assert (Htype := typing_types examples ex i Hex (List.length ex) 0 []
                     eq_refl eq_refl).
  split; [exact Htype |].
  replace (2 * List.length ex + 2)%nat
    with (List.length ex + (1 + (List.length ex + 1)))%nat by lia.
  rewrite (typing_run_add examples _ _ _ _ Htype).
  assert (Hpause :
            typing_run examples 1
              {| placeholder := ex; exampleIdx := i;
                 charIdx := List.length ex; deleting := false |}
            = Some {| placeholder := ex; exampleIdx := i;
                      charIdx := List.length ex; deleting := true |}).
  { cbn [typing_run]. unfold typing_effect.
    cbn [exampleIdx deleting charIdx placeholder negb]. rewrite Hex.
    rewrite Nat.ltb_irrefl. reflexivity. }
  rewrite (typing_run_add examples _ _ _ _ Hpause).
  assert (Hdelete := typing_deletes examples ex i Hex (List.length ex) ex
                       (Nat.le_refl _) (eq_sym (firstn_all ex))).
  rewrite (typing_run_add examples _ _ _ _ Hdelete).
  cbn [typing_run]. unfold typing_effect.
  cbn [exampleIdx deleting charIdx placeholder negb]. rewrite Hex.
  reflexivity.
Qed.

Lemma typing_cycle_witness :
  typing_run exampleSubjects (2 * List.length (str "Cell Biology") + 2)
    {| placeholder := []; exampleIdx := 9; charIdx := 0; deleting := false |}
  = Some {| placeholder := [];
            exampleIdx := (9 + 1) mod List.length exampleSubjects;
            charIdx := 0; deleting := false |}.
Proof.
  apply (proj2 (typing_cycle exampleSubjects 9 (str "Cell Biology") eq_refl)).
Defined.

(** ** The parser: trimmed cards and texts without markers *)

Lemma takeWhile_dropWhile (p : char -> bool) (s : jsstring) :
  takeWhile p s ++ dropWhile p s = s.
Proof.
  induction s as [| x s IH]; simpl; [reflexivity |].
  destruct (p x); simpl; [rewrite IH |]; reflexivity.
Qed.

Lemma dropWhile_head (p : char -> bool) (s : jsstring) (c : char) (r : jsstring) :
  dropWhile p s = c :: r -> p c = false.
Proof.
  induction s as [| x s IH]; simpl; [discriminate |].
  destruct (p x) eqn:Hx; [exact IH |]. intros H. injection H as <- _. exact Hx.
Qed.

Lemma trimEnd_last (s : jsstring) (c : char) (r : jsstring) :
  trimEnd s = r ++ [c] -> is_space c = false.
Proof.
  unfold trimEnd. intros H. apply (f_equal (@rev char)) in H.
  rewrite rev_involutive, rev_app_distr in H. simpl in H.
  apply (dropWhile_head is_space _ _ _ H).
Qed.

(** What [trimEnd] leaves is a beginning of the text, and white space
    follows it. *)
Lemma trimEnd_prefix (s : jsstring) :
  exists w, s = trimEnd s ++ w /\ all_of is_space w.
Proof.
  unfold trimEnd. exists (rev (takeWhile is_space (rev s))). split.
  - rewrite <- rev_app_distr, takeWhile_dropWhile, rev_involutive. reflexivity.
  - apply Forall_rev. clear. induction (rev s) as [| x l IH]; simpl; [constructor |].
    destruct (is_space x) eqn:Hx; constructor; assumption.
Qed.

Lemma trim_no_edge_space (s : jsstring) : no_edge_space (trim s).
Proof.
  unfold trim. split.
  - intros c r H.
    destruct (trimEnd_prefix (trimStart s)) as (w & Hw & _).
    rewrite H in Hw. simpl in Hw.
    apply (dropWhile_head is_space s c (r ++ w)). exact Hw.
  - intros c r H. apply (trimEnd_last _ _ _ H).
Qed.

Lemma no_edge_space_trim (s : jsstring) : no_edge_space s -> trim s = s.
Proof.
  intros (Hfirst & Hlast). unfold trim, trimStart.
  assert (Hstart : dropWhile is_space s = s).
  { destruct s as [| c r]; [reflexivity |]. simpl.
    rewrite (Hfirst c r eq_refl). reflexivity. }
  rewrite Hstart. unfold trimEnd.
  destruct (rev s) as [| c r] eqn:Hrev.
  - apply (f_equal (@rev char)) in Hrev. rewrite rev_involutive in Hrev.
    subst s. reflexivity.
  - simpl. assert (Hc : is_space c = false).
    { apply (Hlast c (rev r)). apply (f_equal (@rev char)) in Hrev.
      rewrite rev_involutive in Hrev. exact Hrev. }
    rewrite Hc, <- Hrev. apply rev_involutive.
Qed.

Lemma parse_loop_trimmed (text : jsstring) (card : Flashcard) :
  forall (fuel lastIndex : nat),
    In card (parse_loop fuel text lastIndex) ->
    exists q a, question card = trim q /\ answer card = trim a.
Proof.
  intros fuel lastIndex Hin.
  apply parse_loop_In in Hin as (j & m & _ & _ & ->).
  unfold card_of_match. simpl. eauto.
Qed.

(** X20: every card that [parseFlashcards] returns is trimmed: neither its
    question nor its answer begins or ends with white space, and trimming
    them again changes nothing. *)
Theorem parsed_cards_are_trimmed (text : jsstring) (card : Flashcard) :
  In card (parseFlashcards text) ->
  no_edge_space (question card) /\ no_edge_space (answer card)
  /\ trim (question card) = question card
  /\ trim (answer card) = answer card.
Proof.
  intros Hin. apply parse_loop_trimmed in Hin as (q & a & -> & ->).
  pose proof (trim_no_edge_space q) as Hq.
  pose proof (trim_no_edge_space a) as Ha.
  split; [exact Hq |]. split; [exact Ha |].
  split; apply no_edge_space_trim; assumption.
Qed.

Lemma parsed_cards_are_trimmed_witness :
  no_edge_space (str "2+2?") /\ no_edge_space (str "4")
  /\ trim (str "2+2?") = str "2+2?" /\ trim (str "4") = str "4".
Proof.
  apply (parsed_cards_are_trimmed
           (str "Sure!  Q:   2+2?   A:  4   ")
           {| question := str "2+2?"; answer := str "4" |}).
  vm_compute. left. reflexivity.
Defined.

(** X21: a response in which no [Q:] marker stands, or no [A:] marker,
    yields no card, and the call fails at the parse stage. *)
Theorem response_without_markers_fails (text : jsstring) :
  ~ occurs (str "Q:") text \/ ~ occurs (str "A:") text ->
  parseFlashcards text = []
  /\ generated_cards (FetchText text) = inl (Some parse_failed_message).
Proof.
  intros Hno.
  assert (Hempty : parseFlashcards text = []).
  { destruct (parseFlashcards text) as [| card cards] eqn:Hparse; [reflexivity |].
    exfalso.
    assert (Hin : In card (parseFlashcards text)) by (rewrite Hparse; left; reflexivity).
    apply parseFlashcards_read_from in Hin
      as (pre & w1 & q & w2 & w3 & a & post & Htext & _).
    destruct Hno as [Hq | Ha].
    - apply Hq. exists pre, (w1 ++ q ++ w2 ++ str "A:" ++ w3 ++ a ++ post).
      exact Htext.
    - apply Ha. exists (pre ++ str "Q:" ++ w1 ++ q ++ w2), (w3 ++ a ++ post).
      rewrite Htext, <- !app_assoc. reflexivity. }
  split; [exact Hempty |].
  unfold generated_cards. rewrite Hempty. reflexivity.
Qed.

Lemma has_marker_false (marker s : jsstring) :
  has_marker marker s = false -> marker <> [] -> ~ occurs marker s.
Proof.
  intros Hscan Hm (pre & post & ->).
  induction pre as [| c pre IH].
  - destruct marker as [| m0 marker]; [congruence |].
    simpl in Hscan. apply orb_false_iff in Hscan as (Hhere & _).
    change (m0 :: firstn (List.length marker) (marker ++ post))
      with (firstn (List.length (m0 :: marker)) ((m0 :: marker) ++ post)) in Hhere.
    rewrite firstn_app, Nat.sub_diag, firstn_all in Hhere. simpl in Hhere.
    rewrite app_nil_r, jsstring_eqb_refl in Hhere. discriminate.
  - apply IH. simpl in Hscan. apply orb_false_iff in Hscan as (_ & Hrest).
    exact Hrest.
Qed.

Lemma response_without_markers_fails_witness :
  parseFlashcards (str "Sorry, I cannot answer: quota exceeded.") = []
  /\ generated_cards (FetchText (str "Sorry, I cannot answer: quota exceeded."))
     = inl (Some parse_failed_message).
Proof.
  apply (response_without_markers_fails
           (str "Sorry, I cannot answer: quota exceeded.")).
  left. apply has_marker_false; [vm_compute; reflexivity | discriminate].
Defined.

(** ** The parser reads back what the format carries *)

Lemma any_char_true (c : char) : any_char c = true.
Proof. unfold any_char. apply orb_negb_r. Qed.

Lemma all_of_any (s : jsstring) : all_of any_char s.
Proof. induction s; constructor; [apply any_char_true | assumption]. Qed.

(** A lazy star stops behind the run [w] when the continuation succeeds
    there and fails behind every shorter run. *)
Lemma star_class_lazy_at (p : char -> bool) (R : Type) (k : cont R) (r : R)
    (s' : jsstring) (c : captures) :
  forall (w : jsstring) (fuel pos : nat),
    all_of p w -> (List.length (w ++ s') < fuel)%nat ->
    (forall w1 w2, w = w1 ++ w2 -> w2 <> [] ->
       k (w2 ++ s') (pos + List.length w1)%nat c = None) ->
    k s' (pos + List.length w)%nat c = Some r ->
    repeat_loop (matcher (Class p)) false fuel R (w ++ s') pos c k = Some r.
Proof.
  induction w as [| x w IH]; intros fuel pos Hall Hfuel Hnone Hk;
    (destruct fuel as [| fuel]; [simpl in Hfuel; lia |]).
  - simpl in *. rewrite Nat.add_0_r in Hk. rewrite Hk. reflexivity.
  - inversion Hall as [| ? ? Hx Hw]; subst.
    assert (Hhere : k ((x :: w) ++ s') pos c = None).
    { specialize (Hnone [] (x :: w) eq_refl). simpl in Hnone.
      rewrite Nat.add_0_r in Hnone. apply Hnone. discriminate. }
    assert (Hrec : repeat_loop (matcher (Class p)) false fuel R (w ++ s') (S pos) c k
                   = Some r).
    { apply IH; [exact Hw | simpl in Hfuel; lia | |].
      - intros w1 w2 Hsplit Hne.
        specialize (Hnone (x :: w1) w2). simpl in Hnone.
        rewrite Nat.add_succ_r in Hnone. apply Hnone; [congruence | exact Hne].
      - rewrite <- Hk. f_equal. simpl. lia. }
    cbn [repeat_loop]. rewrite Hhere. cbn [matcher app]. rewrite Hx.
    assert (Hlt : Nat.ltb (List.length (w ++ s')) (List.length (x :: w ++ s')) = true)
      by (apply Nat.ltb_lt; simpl; lia).
    rewrite Hlt. exact Hrec.
Qed.

(** White space and then a literal cannot match a text that has the literal
    behind no run of white space. *)
Lemma spaces_then_lit_none (l : jsstring) (X : regex) (R : Type) (k : cont R)
    (s : jsstring) (pos : nat) (c : captures) :
  (forall w s2, s = w ++ l ++ s2 -> all_of is_space w -> False) ->
  matcher (Seq (Star true (Class is_space)) (Seq (Lit l) X)) R s pos c k = None.
Proof.
  intros Hno.
  destruct (matcher _ R s pos c k) as [r |] eqn:H; [exfalso | reflexivity].
  rewrite matcher_Seq, matcher_Star in H.
  apply star_class_inv in H as (w & s1 & -> & Hw & H). cbv beta in H.
  rewrite matcher_Seq in H.
  apply matcher_Lit_inv in H as (s2 & -> & _).
  exact (Hno w s2 eq_refl Hw).
Qed.

Lemma all_of_last (p : char -> bool) (w : jsstring) (c : char) (l : jsstring) :
  all_of p w -> w = l ++ [c] -> p c = true.
Proof.
  intros Hall ->. apply Forall_app in Hall as (_ & Hc).
  inversion Hc; assumption.
Qed.

(** Inside a question that holds no [A:] and ends in no white space, white
    space and then [A:] is not found before the end of the question. *)
Lemma no_answer_marker_inside (q1 q2 sp tail : jsstring) :
  no_edge_space (q1 ++ q2) -> ~ occurs (str "A:") (q1 ++ q2) -> q2 <> [] ->
  all_of is_space sp ->
  forall w s2,
    q2 ++ sp ++ str "A:" ++ tail = w ++ str "A:" ++ s2 ->
    all_of is_space w -> False.
Proof.
  intros (_ & Hlast) Hno Hne Hsp w s2 Heq Hw.
  destruct (exists_last Hne) as (q2' & c & ->).
  assert (Hc : is_space c = false).
  { apply (Hlast c (q1 ++ q2')). rewrite app_assoc. reflexivity. }
  assert (Hin : forall l, w = (q2' ++ [c]) ++ l -> False).
  { intros l Hwq.
    assert (Hcw : In c w) by (rewrite Hwq; apply in_or_app; left;
                              apply in_or_app; right; left; reflexivity).
    rewrite (proj1 (Forall_forall _ _) Hw c Hcw) in Hc. discriminate. }
  apply app_eq_app in Heq as (l & [(Hq & Hs) | (Hwq & _)]);
    [| exact (Hin l Hwq)].
  change (str "A:" ++ s2) with (65%N :: 58%N :: s2) in Hs.
  destruct l as [| l0 [| l1 l]].
  - apply (Hin []). rewrite app_nil_r in *. symmetry. exact Hq.
  - simpl in Hs. injection Hs as _ Hs.
    destruct sp as [| x sp]; simpl in Hs; [discriminate Hs |].
    injection Hs as <- _. inversion Hsp as [| ? ? Hx _]. discriminate Hx.
  - simpl in Hs. injection Hs as <- <- _. apply Hno.
    exists (q1 ++ w), l. rewrite Hq, <- !app_assoc. reflexivity.
Qed.

(** Inside an answer that holds no [Q:], followed by a line break, the text
    neither ends nor shows a [Q:] before the line break is passed. *)
Lemma no_boundary_inside (a w1 w2 more : jsstring) :
  ~ occurs (str "Q:") a -> a ++ [10%N] = w1 ++ w2 -> w2 <> [] ->
  at_boundary (w2 ++ more) = false.
Proof.
  intros Hno Heq Hne.
  destruct (exists_last Hne) as (w2' & c & ->).
  rewrite app_assoc in Heq. apply app_inj_tail in Heq as (-> & <-).
  destruct w2' as [| x [| y w2']].
  - destruct more; reflexivity.
  - cbn [app at_boundary].
    change (10 =? 58)%N with false. apply andb_false_r.
  - cbn [app at_boundary].
    destruct (N.eqb_spec x 81) as [-> | _]; [| reflexivity].
    destruct (N.eqb_spec y 58) as [-> | _]; [| reflexivity].
    exfalso. apply Hno. exists w1, w2'. reflexivity.
Qed.

Lemma matcher_Class_cons (p : char -> bool) (R : Type) (k : cont R)
    (x : char) (w s' : jsstring) (pos : nat) (c : captures) :
  p x = true ->
  matcher (Class p) R ((x :: w) ++ s') pos c k = k (w ++ s') (S pos) c.
Proof. intros Hp. simpl. rewrite Hp. reflexivity. Qed.

(** A unit of text whose question and answer are told apart without doubt is
    matched as a whole, the groups holding the question and the answer. *)
Lemma match_at_flashcard_unit (pos : nat) (w1 q w2 w3 a post : jsstring) :
  all_of is_space w1 -> all_of is_space w2 -> all_of is_space w3 ->
  q <> [] -> no_edge_space q -> ~ occurs (str "A:") q ->
  a <> [] -> (forall c r, a = c :: r -> is_space c = false) ->
  at_boundary post = true ->
  (forall a1 a2, a = a1 ++ a2 -> a1 <> [] -> a2 <> [] ->
     at_boundary (a2 ++ post) = false) ->
  match_at flashcard_regex
    (str "Q:" ++ w1 ++ q ++ w2 ++ str "A:" ++ w3 ++ a ++ post) pos
  = Some {| m_index := pos;
            m_end := (pos + 2 + List.length w1 + List.length q + List.length w2
                      + 2 + List.length w3 + List.length a)%nat;
            m_captures :=
              [ (2%nat, ((pos + 2 + List.length w1 + List.length q
                          + List.length w2 + 2 + List.length w3)%nat,
                         (pos + 2 + List.length w1 + List.length q
                          + List.length w2 + 2 + List.length w3
                          + List.length a)%nat));
                (1%nat, ((pos + 2 + List.length w1)%nat,
                         (pos + 2 + List.length w1 + List.length q)%nat)) ] |}.
Proof.
  intros Hw1 Hw2 Hw3 Hq Hqedge Hqno Ha Hahead Hpost Hinside.
  destruct q as [| q0 q']; [contradiction |].
  destruct a as [| a0 a']; [contradiction |].
  assert (Hq0 : is_space q0 = false) by (apply (proj1 Hqedge q0 q'); reflexivity).
  assert (Ha0 : is_space a0 = false) by (apply (Hahead a0 a'); reflexivity).
  unfold match_at, flashcard_regex, Q_marker, A_marker, Plus.
  rewrite matcher_Seq, matcher_Lit_prefix, matcher_Seq, matcher_Star.
  apply star_class_greedy_longest; [exact Hq0 | exact Hw1 | lia |].
  cbv beta.
  rewrite matcher_Seq, matcher_Group, matcher_Seq.
  rewrite matcher_Class_cons by apply any_char_true.
  cbv beta. rewrite matcher_Star.
  apply star_class_lazy_at; [apply all_of_any | lia | |].
  - (* no earlier end of the question *)
    intros q1 q2 Hsplit Hne. cbv beta.
    apply (spaces_then_lit_none (str "A:")).
    apply (no_answer_marker_inside (q0 :: q1) q2 w2); try assumption.
    + simpl. rewrite <- Hsplit. exact Hqedge.
    + simpl. rewrite <- Hsplit. exact Hqno.
  - (* the rest behind the question *)
    cbv beta. rewrite matcher_Seq, matcher_Star.
    apply star_class_greedy_longest; [reflexivity | exact Hw2 | lia |].
    cbv beta.
    rewrite matcher_Seq, matcher_Lit_prefix, matcher_Seq, matcher_Star.
    apply star_class_greedy_longest; [exact Ha0 | exact Hw3 | lia |].
    cbv beta.
    rewrite matcher_Seq, matcher_Group, matcher_Seq.
    rewrite matcher_Class_cons by apply any_char_true.
    cbv beta. rewrite matcher_Star.
    apply star_class_lazy_at; [apply all_of_any | lia | |].
    + intros a1 a2 Hsplit Hne. cbv beta.
      rewrite lookahead_boundary.
      rewrite (Hinside (a0 :: a1) a2); [reflexivity | | discriminate | exact Hne].
      simpl. rewrite Hsplit. reflexivity.
    + cbv beta. rewrite lookahead_boundary, Hpost.
      change (List.length (str "Q:")) with 2%nat.
      change (List.length (str "A:")) with 2%nat.
      cbn [List.length]. f_equal. f_equal; [lia |].
      repeat (f_equal; try lia).
Qed.

Lemma trim_line (a : jsstring) :
  a <> [] -> no_edge_space a -> trim (a ++ [10%N]) = a.
Proof.
  intros Hne Hedge.
  rewrite <- (no_edge_space_trim a Hedge) at 2.
  destruct a as [| c r]; [contradiction |].
  unfold trim, trimStart. cbn [app dropWhile].
  rewrite (proj1 Hedge c r eq_refl).
  unfold trimEnd. rewrite app_comm_cons, rev_unit. reflexivity.
Qed.

Lemma no_edge_space_check (s : jsstring) : trim s = s -> no_edge_space s.
Proof. intros H. rewrite <- H. apply trim_no_edge_space. Qed.

Lemma response_text_boundary (cards : list Flashcard) :
  at_boundary (response_text cards) = true.
Proof. destruct cards; reflexivity. Qed.

Lemma unit_text_length (card : Flashcard) :
  List.length (unit_text card)
  = (8 + List.length (question card) + List.length (answer card))%nat.
Proof.
  unfold unit_text. rewrite !length_app.
  change (List.length (str "Q: ")) with 3%nat.
  change (List.length (str "A: ")) with 3%nat. simpl. lia.
Qed.

(** The unit of a plain card is found where it stands, and read back as the
    card. *)
Lemma exec_unit_text (pre more : jsstring) (card : Flashcard) :
  plain_card card -> at_boundary more = true ->
  exists m,
    exec flashcard_regex (pre ++ unit_text card ++ more) (List.length pre) = Some m
    /\ card_of_match (pre ++ unit_text card ++ more) m = card
    /\ m_end m = List.length (pre ++ unit_text card).
Proof.
  intros (Hq & Ha & Hqedge & Haedge & Hqno & Hano) Hmore.
  destruct card as [q a]. cbn [question answer] in *.
  set (text := pre ++ unit_text {| question := q; answer := a |} ++ more).
  assert (Hshape : unit_text {| question := q; answer := a |} ++ more
                   = str "Q:" ++ [32%N] ++ q ++ [10%N] ++ str "A:" ++ [32%N]
                     ++ (a ++ [10%N]) ++ more).
  { unfold unit_text. cbn [question answer].
    change (str "Q: ") with (str "Q:" ++ [32%N]).
    change (str "A: ") with (str "A:" ++ [32%N]).
    rewrite <- !app_assoc. reflexivity. }
  pose proof (match_at_flashcard_unit (List.length pre) [32%N] q [10%N] [32%N]
                (a ++ [10%N]) more) as Hmatch.
  eexists. split.
  { unfold exec, text.
    assert (Hlt : Nat.ltb (List.length (pre ++ unit_text {| question := q; answer := a |}
                                        ++ more)) (List.length pre) = false)
      by (apply Nat.ltb_ge; rewrite length_app; lia).
    rewrite Hlt, skipn_app, skipn_all, Nat.sub_diag. cbn [skipn].
    change ([] ++ ?x) with x. rewrite Hshape.
    apply search_here. apply Hmatch.
    - repeat constructor.
    - repeat constructor.
    - repeat constructor.
    - exact Hq.
    - exact Hqedge.
    - exact Hqno.
    - destruct a; discriminate.
    - intros c r Hcr. destruct a as [| a0 a']; [contradiction |].
      simpl in Hcr. injection Hcr as <- _. apply (proj1 Haedge a0 a'). reflexivity.
    - exact Hmore.
    - intros a1 a2 Hsplit _ Hne.
      apply (no_boundary_inside a a1 a2 more Hano Hsplit Hne). }
  split.
  - unfold card_of_match, group_or_empty, group. cbn [m_captures capture Nat.eqb].
    f_equal.
    + rewrite (slice_at text (pre ++ str "Q: ") q
                 ([10%N] ++ str "A: " ++ a ++ [10%N] ++ more)).
      * apply no_edge_space_trim, Hqedge.
      * unfold text, unit_text. cbn [question answer].
        rewrite <- !app_assoc. reflexivity.
      * rewrite length_app. change (List.length (str "Q: ")) with 3%nat.
        simpl. lia.
      * reflexivity.
    + rewrite (slice_at text (pre ++ str "Q: " ++ q ++ [10%N] ++ str "A: ")
                 (a ++ [10%N]) more).
      * apply trim_line; assumption.
      * unfold text, unit_text. cbn [question answer].
        rewrite <- !app_assoc. reflexivity.
      * rewrite !length_app. change (List.length (str "Q: ")) with 3%nat.
        change (List.length (str "A: ")) with 3%nat. simpl. lia.
      * reflexivity.
  - cbn [m_end]. rewrite (length_app pre), unit_text_length, length_app.
    cbn [question answer]. simpl. lia.
Qed.

Lemma parse_loop_response (cards : list Flashcard) :
  Forall plain_card cards ->
  forall (pre : jsstring) (fuel : nat),
    (List.length (response_text cards) < fuel)%nat ->
    parse_loop fuel (pre ++ response_text cards) (List.length pre) = cards.
Proof.
  induction 1 as [| card cards Hcard _ IH]; intros pre fuel Hfuel;
    (destruct fuel as [| fuel]; [lia |]).
  - cbn [parse_loop]. unfold response_text. cbn [List.map List.concat].
    unfold exec. rewrite app_nil_r, Nat.ltb_irrefl, skipn_all. reflexivity.
  - change (response_text (card :: cards))
      with (unit_text card ++ response_text cards) in *.
    destruct (exec_unit_text pre (response_text cards) card Hcard
                (response_text_boundary cards)) as (m & Hexec & Hcardm & Hend).
    cbn [parse_loop]. rewrite Hexec, Hcardm, Hend. f_equal.
    rewrite app_assoc. apply IH.
    rewrite length_app, unit_text_length in Hfuel. lia.
Qed.

(** X22: a response that lists cards in the format of the prompt, each as
    [Q: question], line break, [A: answer], line break, is read back as
    exactly these cards, in order, when no question or answer is empty, has
    white space at its ends, or holds the marker of the other part. *)
Theorem parse_response_text (cards : list Flashcard) :
  Forall plain_card cards ->
  parseFlashcards (response_text cards) = cards.
Proof.
  intros Hplain. unfold parseFlashcards.
  apply (parse_loop_response cards Hplain []). lia.
Qed.

Lemma parse_response_text_witness :
  parseFlashcards
    (response_text [ {| question := str "What is 2+2?"; answer := str "4" |};
                     {| question := str "Capital of France?";
                        answer := str "Paris, on the Seine" |} ])
  = [ {| question := str "What is 2+2?"; answer := str "4" |};
      {| question := str "Capital of France?";
         answer := str "Paris, on the Seine" |} ].
Proof.
  apply parse_response_text.
  repeat constructor; cbn [question answer];
    try discriminate;
    try (apply no_edge_space_check; reflexivity);
    try (apply has_marker_false; [vm_compute; reflexivity | discriminate]).
Defined.

Lemma filter_all_short (cards : list Flashcard) :
  all_short cards -> filter short_question cards = cards.
Proof.
  induction 1 as [| card cards Hcard _ IH]; [reflexivity |].
  simpl. rewrite Hcard, IH. reflexivity.
Qed.

(** X23: when the response lists at least one card in the format of the
    prompt and every question has fewer than 30 words, the generation step
    keeps all the cards, in order. *)
Theorem well_formed_response_kept (cards : list Flashcard) :
  cards <> [] -> Forall plain_card cards -> all_short cards ->
  generated_cards (FetchText (response_text cards)) = inr cards.
Proof.
  intros Hne Hplain Hshort. unfold generated_cards.
  assert (Hparse : parseFlashcards (response_text cards) = cards)
    by (unfold parseFlashcards; apply (parse_loop_response cards Hplain []); lia).
  rewrite Hparse.
  rewrite (filter_all_short cards Hshort). destruct cards; [contradiction | reflexivity].
Qed.

Lemma well_formed_response_kept_witness :
  generated_cards
    (FetchText
       (response_text [ {| question := str "What is 2+2?"; answer := str "4" |};
                        {| question := str "Capital of France?";
                           answer := str "Paris, on the Seine" |} ]))
  = inr [ {| question := str "What is 2+2?"; answer := str "4" |};
          {| question := str "Capital of France?";
             answer := str "Paris, on the Seine" |} ].
Proof.
  apply well_formed_response_kept.
  - discriminate.
  - repeat constructor; cbn [question answer];
      try discriminate;
      try (apply no_edge_space_check; reflexivity);
      try (apply has_marker_false; [vm_compute; reflexivity | discriminate]).
  - repeat constructor.
Defined.

(** ** Nothing shown is unsaved *)

Lemma session_saved_useEffects (st : State) (ls : LocalStorage) :
  session_saved st ls -> session_saved (useEffects st) ls.
Proof.
  unfold session_saved, useEffects.
  destruct (negb (lastCurrent _ =? current _)); simpl; auto.
Qed.

Lemma session_saved_handle (e : NavEvent) (st : State) (ls : LocalStorage) :
  session_saved st ls -> session_saved (handle e st) ls.
Proof.
  unfold session_saved. destruct e as [| | idx |]; unfold handle.
  - unfold handleNext. destruct (_ <? _); simpl; auto.
  - unfold handlePrev. destruct (_ >? _); simpl; auto.
  - unfold handleCircleClick. destruct (negb _); simpl; auto.
  - simpl. auto.
Qed.

Lemma session_saved_continuation (subj : jsstring) (prev : list jsstring)
    (outcome : FetchOutcome) (cards : list Flashcard) (st : State)
    (ls : LocalStorage) :
  generated_cards outcome = inr cards -> prev <> [] ->
  showGenerator st = false -> store_inv st ls ->
  session_saved (fst (generateFlashcards subj prev outcome st ls))
                (snd (generateFlashcards subj prev outcome st ls)).
Proof.
  intros Hgen Hprev Hs (_ & _ & _ & Hview) _.
  destruct (Hview Hs) as (_ & active & Hact & Hne & Hin).
  destruct (findIndex_some active _ Hin) as (idx & Hidx).
  unfold generateFlashcards. rewrite Hgen.
  destruct prev as [| q prev]; [congruence |]. cbn [List.length Nat.eqb].
  rewrite Hact. destruct active as [| a0 active]; [congruence |].
  unfold updateStoredSet. rewrite Hidx. simpl.
  exists (a0 :: active). split; [exact Hact |].
  pose proof (assign_flashcards_lookup (a0 :: active) (flashcards st ++ cards)
                (getStoredSets ls) idx Hidx) as Hlookup.
  unfold lookup_set in Hlookup. apply find_some in Hlookup. apply Hlookup.
Qed.

Lemma session_saved_step (ev : Event) (st : State) (ls : LocalStorage) :
  store_inv st ls -> session_saved st ls -> offered ev st ->
  session_saved (fst (step ev st ls)) (snd (step ev st ls)).
Proof.
  intros Hinv Hsaved Hoff. unfold step.
  destruct (handler ev st ls) as [st' ls'] eqn:Hh. cbn [fst snd].
  apply session_saved_useEffects.
  assert (Hst : st' = fst (handler ev st ls)) by (rewrite Hh; reflexivity).
  assert (Hls : ls' = snd (handler ev st ls)) by (rewrite Hh; reflexivity).
  clear Hh. subst st' ls'.
  destruct ev as [text | outcome | set | subj | e | outcome |];
    cbn [handler fst snd]; simpl in Hoff.
  - (* EditSubject *)
    destruct Hoff as (Hs & _). unfold session_saved. simpl. rewrite Hs.
    discriminate.
  - (* Submit *)
    destruct Hoff as (Hs & _ & _). unfold handleSubmit.
    destruct (generated_cards outcome) as [thrown | cards] eqn:Hgen.
    + rewrite (generate_failure _ _ _ _ _ _ Hgen).
      unfold session_saved. simpl. rewrite Hs. discriminate.
    + unfold generateFlashcards. rewrite Hgen. unfold session_saved. simpl.
      intros _. eexists. split; [reflexivity |]. left. reflexivity.
  - (* SelectStored *)
    destruct Hoff as (_ & Hin). destruct Hinv as (H1 & _).
    rewrite H1 in Hin. unfold session_saved. simpl. intros _.
    exists (ss_subject set). split; [reflexivity |].
    destruct set. exact Hin.
  - (* DeleteStored *)
    destruct Hoff as (Hs & _). unfold handleDeleteStoredSet. rewrite Hs. simpl.
    unfold session_saved. simpl. rewrite Hs. discriminate.
  - (* Navigate *)
    apply session_saved_handle, Hsaved.
  - (* AddMore *)
    destruct Hoff as ((Hs & Hne) & _ & _). unfold handleAddMore.
    destruct (generated_cards outcome) as [thrown | cards] eqn:Hgen.
    + rewrite (generate_failure _ _ _ _ _ _ Hgen). exact Hsaved.
    + apply (session_saved_continuation _ _ _ cards).
      * exact Hgen.
      * destruct (flashcards st); [congruence | discriminate].
      * exact Hs.
      * exact Hinv.
  - (* Back *)
    unfold session_saved. simpl. discriminate.
Qed.

(** X24: opened on a store of well-formed sets, the card view never shows
    cards that are not saved: whatever the user has done, a stored set has
    the active subject and exactly the cards of the session. *)
Theorem session_cards_are_stored (ls0 : LocalStorage) (st : State)
    (ls : LocalStorage) :
  Forall well_formed_set (getStoredSets ls0) ->
  reachable_from ls0 st ls -> showGenerator st = false ->
  exists active,
    activeSubject st = Some active
    /\ In {| ss_subject := active; ss_flashcards := flashcards st |}
          (getStoredSets ls).
Proof.
  intros Hwf Hreach.
  change (session_saved st ls).
  induction Hreach as [| ev st ls Hreach IH Hoff].
  - apply session_saved_useEffects. unfold session_saved. simpl. discriminate.
  - apply session_saved_step; [| exact IH | exact Hoff].
    apply (reachable_from_store_inv ls0); assumption.
Qed.

Lemma session_cards_are_stored_witness :
  exists active,
    activeSubject (fst first_set_state) = Some active
    /\ In {| ss_subject := active;
             ss_flashcards := flashcards (fst first_set_state) |}
          (getStoredSets (snd first_set_state)).
Proof.
  apply (session_cards_are_stored cleared_storage).
  - constructor.
  - apply first_set_reachable.
  - reflexivity.
Defined.

(** ** The numbers the namer hands out *)

Lemma getUniqueSubjectName_stored (base : jsstring) (sets : list StoredSet) :
  In base (List.map ss_subject sets) ->
  getUniqueSubjectName base sets
  = base ++ str "(" ++ number_to_string (highest_suffix base sets + 1) ++ str ")".
Proof.
  intros Hin. unfold getUniqueSubjectName, highest_suffix.
  pose proof (scan_fold_exact base sets (-1, false) Hin) as Hfound.
  destruct (fold_left _ sets (-1, false)) as [m f]. simpl in *.
  rewrite Hfound. reflexivity.
Qed.

(** A set named [base(n)] put in front raises the largest suffix to [n]
    when [n] is above it. *)
Lemma highest_suffix_cons (base : jsstring) (cards : list Flashcard)
    (sets : list StoredSet) (n : Z) :
  0 <= n -> highest_suffix base sets < n ->
  highest_suffix base
    ({| ss_subject := base ++ str "(" ++ number_to_string n ++ str ")";
        ss_flashcards := cards |} :: sets) = n.
Proof.
  intros Hn Hbelow.
  destruct (N_to_string_digits (Z.to_N n)) as (d & ds & Hstr & Hdigits & Hvalue).
  rewrite <- number_to_string_nonneg in Hstr by exact Hn.
  rewrite Z2N.id in Hvalue by exact Hn.
  rewrite Hstr. unfold highest_suffix in *. cbn [fold_left].
  set (new := {| ss_subject := base ++ str "(" ++ (d :: ds) ++ str ")";
                 ss_flashcards := cards |}).
  assert (Hfirst : fst (scan_subject (subject_regex base) (-1, false) new) = n).
  { pose proof (scan_suffixed base d ds (-1, false) new Hdigits eq_refl) as Hle.
    destruct (scan_subject_inv base (-1, false) new)
      as (_ & [Hsame | (d' & ds' & _ & Hsubj & Hfst)]).
    - rewrite Hsame in Hle. simpl in Hle. lia.
    - unfold new in Hsubj. cbn [ss_subject] in Hsubj.
      apply app_inv_head in Hsubj. apply app_inv_head in Hsubj.
      apply app_inv_tail in Hsubj. rewrite Hfst, <- Hsubj. exact Hvalue. }
  pose proof (scan_fold_mono (subject_regex base) sets
                (scan_subject (subject_regex base) (-1, false) new)) as (Hmono & _).
  destruct (scan_fold_inv base sets
              (scan_subject (subject_regex base) (-1, false) new))
    as (_ & [Hsame | (d' & ds' & Hd' & Hin & Hfst)]).
  - rewrite Hsame. exact Hfirst.
  - pose proof (scan_fold_suffixed base d' ds' sets Hd' (-1, false) Hin) as Hle.
    lia.
Qed.

Lemma add_repeatedly_S (n : nat) (base : jsstring) (cards : list Flashcard)
    (ls : LocalStorage) :
  add_repeatedly (S n) base cards ls
  = snd (addStoredSet base cards (add_repeatedly n base cards ls)).
Proof. reflexivity. Qed.

Lemma getUniqueSubjectName_new (base : jsstring) (sets : list StoredSet) :
  ~ In base (List.map ss_subject sets) -> getUniqueSubjectName base sets = base.
Proof.
  intros Hnew. unfold getUniqueSubjectName.
  pose proof (scan_fold_inv base sets (-1, false)) as (Hfound & _).
  destruct (fold_left _ sets (-1, false)) as [m f].
  simpl in Hfound. destruct Hfound as [-> | Hin]; [reflexivity | contradiction].
Qed.

(** A set named [base] put in front leaves the largest suffix as it was. *)
Lemma highest_suffix_cons_base (base : jsstring) (cards : list Flashcard)
    (sets : list StoredSet) :
  highest_suffix base ({| ss_subject := base; ss_flashcards := cards |} :: sets)
  = highest_suffix base sets.
Proof.
  unfold highest_suffix. cbn [fold_left].
  set (new := {| ss_subject := base; ss_flashcards := cards |}).
  assert (Hfirst : fst (scan_subject (subject_regex base) (-1, false) new) = -1).
  { destruct (scan_subject_inv base (-1, false) new)
      as (_ & [Hsame | (d & ds & _ & Hsubj & _)]); [exact Hsame |].
    exfalso. unfold new in Hsubj. cbn [ss_subject] in Hsubj.
    rewrite <- (app_nil_r base) in Hsubj at 1.
    apply app_inv_head in Hsubj. discriminate Hsubj. }
  pose proof (scan_fold_mono (subject_regex base) sets
                (scan_subject (subject_regex base) (-1, false) new)) as (Hup & _).
  pose proof (scan_fold_mono (subject_regex base) sets (-1, false)) as (Hlow & _).
  rewrite Hfirst in Hup. cbn [fst] in Hlow.
  destruct (scan_fold_inv base sets
              (scan_subject (subject_regex base) (-1, false) new))
    as (_ & [Hsame | (d & ds & Hd & Hin & Hfst)]);
    destruct (scan_fold_inv base sets (-1, false))
      as (_ & [Hsame' | (d' & ds' & Hd' & Hin' & Hfst')]).
  - rewrite Hsame, Hsame', Hfirst. reflexivity.
  - pose proof (scan_fold_suffixed base d' ds' sets Hd'
                  (scan_subject (subject_regex base) (-1, false) new) Hin') as Hle.
    cbn [fst] in *. lia.
  - pose proof (scan_fold_suffixed base d ds sets Hd (-1, false) Hin) as Hle.
    cbn [fst] in *. lia.
  - pose proof (scan_fold_suffixed base d ds sets Hd (-1, false) Hin) as Hle.
    pose proof (scan_fold_suffixed base d' ds' sets Hd'
                  (scan_subject (subject_regex base) (-1, false) new) Hin') as Hle'.
    cbn [fst] in *. lia.
Qed.

Lemma add_repeatedly_suffix (base : jsstring) (cards : list Flashcard)
    (ls : LocalStorage) :
  ~ In base (stored_subjects ls) ->
  highest_suffix base (getStoredSets ls) = -1 ->
  forall n : nat,
    In base (stored_subjects (add_repeatedly (S n) base cards ls))
    /\ highest_suffix base (getStoredSets (add_repeatedly (S n) base cards ls))
       = Z.of_nat n - 1.
Proof.
  intros Hnew Hnone. induction n as [| n (Hin & Hhigh)].
  - rewrite add_repeatedly_S.
    change (add_repeatedly 0 base cards ls) with ls.
    unfold stored_subjects in *. unfold addStoredSet.
    cbn [snd getStoredSets saveStoredSets ls_item List.map ss_subject].
    rewrite (getUniqueSubjectName_new base _ Hnew).
    split; [left; reflexivity |].
    rewrite highest_suffix_cons_base. exact Hnone.
  - rewrite add_repeatedly_S.
    set (prev := add_repeatedly (S n) base cards ls) in *.
    unfold stored_subjects in *. unfold addStoredSet.
    cbn [snd getStoredSets saveStoredSets ls_item List.map ss_subject].
    split; [right; exact Hin |].
    rewrite (getUniqueSubjectName_stored base _ Hin), Hhigh.
    replace (Z.of_nat n - 1 + 1) with (Z.of_nat n) by lia.
    rewrite highest_suffix_cons; lia.
Qed.

(** X25: on a store that holds neither the base nor a numbered variant of
    it, the first set added under the base keeps the name, and the one added
    after [n + 1] others of that name is called [base(n)]: the names go
    [base], [base(0)], [base(1)], ... without a gap (the numbers being safe
    integers). *)
Theorem repeated_subject_numbering (base : jsstring) (cards : list Flashcard)
    (ls : LocalStorage) (n : nat) :
  ~ In base (stored_subjects ls) ->
  highest_suffix base (getStoredSets ls) = -1 ->
  Z.of_nat n < max_safe_integer ->
  fst (addStoredSet base cards ls) = base
  /\ fst (addStoredSet base cards (add_repeatedly (S n) base cards ls))
     = base ++ str "(" ++ number_to_string (Z.of_nat n) ++ str ")".
Proof.
  intros Hnew Hnone _. split.
  - unfold addStoredSet. cbn [fst]. apply getUniqueSubjectName_new, Hnew.
  - destruct (add_repeatedly_suffix base cards ls Hnew Hnone n) as (Hin & Hhigh).
    unfold addStoredSet. cbn [fst].
    rewrite (getUniqueSubjectName_stored base _ Hin), Hhigh.
    replace (Z.of_nat n - 1 + 1) with (Z.of_nat n) by lia. reflexivity.
Qed.

Lemma repeated_subject_numbering_witness :
  fst (addStoredSet (str "Math") demo_cards cleared_storage) = str "Math"
  /\ fst (addStoredSet (str "Math") demo_cards
            (add_repeatedly 4 (str "Math") demo_cards cleared_storage))
     = str "Math" ++ str "(" ++ number_to_string (Z.of_nat 3) ++ str ")".
Proof.
  apply (repeated_subject_numbering (str "Math") demo_cards cleared_storage 3).
  - intros [].
  - reflexivity.
  - reflexivity.
Defined.
